(** * Meeting intelligence worker: a shallow embedding of
    [src/app/api/chat/route.ts] (the chat routes of the Next.js application,
    the worker with its router, [handleEnhancedChat],
    [handleEnhancedMeetingSync], [handleProjectDashboard],
    [handleProjectsList] and their helpers) and the properties of its sync
    pipeline, document publisher, dashboard and chat.

    Conventions of the embedding.
    - A JavaScript string is a [string] holding its UTF-8 bytes (a lone
      surrogate, which UTF-8 does not have, is written on three bytes like
      any other code unit from U+0800 on). What the worker counts in UTF-16
      code units ([length], [slice]) is counted so over the bytes.
    - A JavaScript number is a rational, [Q]: every finite double is one.
      Where the worker divides, the quotient is rounded to the nearest double
      as the runtime does ([JS.double]); a remainder is exact in the runtime
      too.
    - What the runtime computes from tables or settings that are not in the
      repository (the locale's formats, the case mappings of Unicode beyond
      ASCII, the decimal text of a number that is no safe integer, the number
      a string stands for) is asked of the environment: see [Env].
    - A value thrown in JavaScript is an [Exn]; code that can throw lives in
      the monad [M], a state monad over the [World] whose effects survive a
      throw, as they do in the worker. *)

From stdpp Require Import base strings list sorting gmap pretty.
From Stdlib Require Import Ascii ZArith QArith Qround Qabs Lia.

Local Open Scope Z_scope.

(** ** The JavaScript runtime the worker relies on *)

Module JS.

Definition nl : string := String "010"%char EmptyString.

(** [Array.prototype.join]. *)
Definition join (sep : string) (l : list string) : string :=
  String.concat sep l.

(** [String.prototype.padStart (n, c)] for a one-character filler [c] and a
    string of ASCII characters. *)
Fixpoint fill (n : nat) (c : ascii) (s : string) : string :=
  match n with
  | O => s
  | S k => String c (fill k c s)
  end.

Definition padStart (n : nat) (c : ascii) (s : string) : string :=
  fill (n - String.length s) c s.

Definition upper_ascii (c : ascii) : ascii :=
  let n := nat_of_ascii c in
  if ((97 <=? n) && (n <=? 122))%nat then ascii_of_nat (n - 32) else c.

Definition lower_ascii (c : ascii) : ascii :=
  let n := nat_of_ascii c in
  if ((65 <=? n) && (n <=? 90))%nat then ascii_of_nat (n + 32) else c.

Fixpoint map_string (f : ascii → ascii) (s : string) : string :=
  match s with
  | EmptyString => EmptyString
  | String c r => String (f c) (map_string f r)
  end.

Fixpoint is_ascii (s : string) : bool :=
  match s with
  | EmptyString => true
  | String c r => (nat_of_ascii c <? 128)%nat && is_ascii r
  end.

(** [String.prototype.toUpperCase] and [toLowerCase]: on a string of ASCII
    characters the letters change case and nothing else does; on any other
    string the result follows the case mappings of Unicode, [unicode]. *)
Definition toUpperCase (unicode : string → string) (s : string) : string :=
  if is_ascii s then map_string upper_ascii s else unicode s.

Definition toLowerCase (unicode : string → string) (s : string) : string :=
  if is_ascii s then map_string lower_ascii s else unicode s.

(** *** Characters and code units *)

(** The bytes [10xxxxxx] continue the character of the byte before them. *)
Definition is_continuation (c : ascii) : bool :=
  let n := nat_of_ascii c in ((128 <=? n) && (n <? 192))%nat.

(** The UTF-16 code units of the character that a byte starts: two for
    the characters beyond U+FFFF, whose first byte is [11110xxx]. *)
Definition units (c : ascii) : nat :=
  let n := nat_of_ascii c in
  if (n <? 128)%nat then 1%nat
  else if (n <? 192)%nat then 0%nat
  else if (n <? 240)%nat then 1%nat
  else 2%nat.

(** [String.prototype.length] *)
Fixpoint length (s : string) : nat :=
  match s with
  | EmptyString => 0%nat
  | String c r => (units c + length r)%nat
  end.

(** The characters of a string, each with its bytes: a byte from [0xC0] on
    takes the continuation bytes that follow it. [open] holds the bytes, last
    first, of the character that is being read. *)
Definition closed (open : option (list ascii)) : list string :=
  match open with
  | Some bytes => [String.string_of_list_ascii (reverse bytes)]
  | None => []
  end.

Fixpoint characters_from (open : option (list ascii)) (s : string) : list string :=
  match s with
  | EmptyString => closed open
  | String b r =>
      if is_continuation b then
        match open with
        | Some bytes => characters_from (Some (b :: bytes)) r
        | None => String b EmptyString :: characters_from None r
        end
      else
        closed open ++
        (if (192 <=? nat_of_ascii b)%nat
         then characters_from (Some [b]) r
         else String b EmptyString :: characters_from None r)
  end.

Definition characters (s : string) : list string := characters_from None s.

(** The first of the two code units of a character beyond U+FFFF with the
    bytes [b0 b1 b2 ..], on three bytes. *)
Definition high_surrogate (b0 b1 b2 : ascii) : string :=
  let bits (c : ascii) (mask : N) : N := N.land (N_of_ascii c) mask in
  let top := (bits b0 7 * 256 + bits b1 63 * 4 + bits b2 63 / 16 - 64)%N in
  let unit_ := (55296 + top)%N in
  String (ascii_of_N 237)
    (String (ascii_of_N (128 + N.land (unit_ / 64) 63))
       (String (ascii_of_N (128 + N.land unit_ 63)) EmptyString)).

(** [String.prototype.slice (0, n)]: the first [n] code units. [keep] says
    whether the character that is being read is inside the slice. *)
Fixpoint slice_units (n : nat) (keep : bool) (s : string) : string :=
  match s with
  | EmptyString => EmptyString
  | String c r =>
      if is_continuation c then
        if keep then String c (slice_units n true r) else slice_units n false r
      else
        match units c, n with
        | 1%nat, S k => String c (slice_units k true r)
        | 2%nat, S (S k) => String c (slice_units k true r)
        | 2%nat, 1%nat =>
            match r with
            | String b1 (String b2 _) => high_surrogate c b1 b2
            | _ => EmptyString
            end
        | _, _ => EmptyString
        end
  end.

Definition slice0 (n : nat) (s : string) : string := slice_units n false s.

(** [x || y] on strings: the empty string is falsy. *)
Definition or_else (x y : string) : string :=
  match x with EmptyString => y | _ => x end.

(** *** Numbers *)

(** The integer nearest to [n / d], for [d] above zero, and the even one of
    the two when [n / d] is half way between them. *)
Definition nearest_even (n d : Z) : Z :=
  let q := n `div` d in
  let r := n `mod` d in
  if 2 * r <? d then q
  else if d <? 2 * r then q + 1
  else if Z.even q then q else q + 1.

(** The exponent [e] with [2 ^ e ≤ n / d < 2 ^ (e + 1)], for [n] and [d]
    above zero. *)
Definition exponent (n d : Z) : Z :=
  let e := Z.log2 n - Z.log2 d in
  if (if 0 <=? e then d * 2 ^ e <=? n else d <=? n * 2 ^ (- e)) then e else e - 1.

(** [2 ^ e] times [m]. *)
Definition scaled (m e : Z) : Q :=
  if 0 <=? e then inject_Z (m * 2 ^ e) else Qred (m # Z.to_pos (2 ^ (- e))).

(** The double nearest to a rational: 53 binary digits, the last of them
    even when two doubles are as near, and no digit below [2 ^ -1074]. *)
Definition double (x : Q) : Q :=
  let n := Z.abs (Qnum x) in
  let d := Z.pos (Qden x) in
  if n =? 0 then 0%Q
  else
    let last := Z.max (exponent n d) (-1022) - 52 in
    let m := if 0 <=? last then nearest_even n (d * 2 ^ last)
             else nearest_even (n * 2 ^ (- last)) d in
    if Qnum x <? 0 then Qopp (scaled m last) else scaled m last.

(** [x / y] for finite [x] and [y], [y] not zero, whose quotient is within
    the range of the doubles. *)
Definition div (x y : Q) : Q := double (x / y).

(** [x + y], which is lost when it is beyond the doubles. *)
Definition plus (x y : Q) : option Q :=
  let sum := double (x + y) in
  if Qle_bool (inject_Z (2 ^ 1024)) (Qabs sum) then None else Some sum.

(** [x % y]: what is left of [x] after the multiples of [y], with the sign
    of [x]. The runtime computes it exactly. *)
Definition rem (x y : Q) : Q :=
  let q := (x / y)%Q in
  Qred (x - y * inject_Z (Z.quot (Qnum q) (Z.pos (Qden q)))).

(** [Math.floor] and [Math.round] (halves go up). *)
Definition floor (x : Q) : Z := Qfloor x.
Definition round (x : Q) : Z := Qfloor (x + (1 # 2)).

(** A safe integer: one whose decimal expansion is its text. *)
Definition is_safe (n : Z) : bool := Z.abs n <=? 2 ^ 53.

(** [String (x)] for a number: the decimal expansion of a safe integer; of
    any other number the shortest text that reads back as it, [text]. *)
Definition number_to_string (text : Q → string) (x : Q) : string :=
  let r := Qred x in
  if Pos.eqb (Qden r) 1 && is_safe (Qnum r) then pretty (Qnum r) else text x.

Definition integer_to_string (text : Q → string) (n : Z) : string :=
  number_to_string text (inject_Z n).

(** *** Dates: an instant is a count of milliseconds since the epoch *)

Definition ms_per_day : Z := 86400000.

(** Year, month and day of a day number counted from 1970-01-01
    (proleptic Gregorian calendar). *)
Definition civil_from_days (days : Z) : Z * Z * Z :=
  let z := days + 719468 in
  let era := z `div` 146097 in
  let doe := z - era * 146097 in
  let yoe := (doe - doe `div` 1460 + doe `div` 36524 - doe `div` 146096) `div` 365 in
  let doy := doe - (365 * yoe + yoe `div` 4 - yoe `div` 100) in
  let mp := (5 * doy + 2) `div` 153 in
  let d := doy - (153 * mp + 2) `div` 5 + 1 in
  let m := if mp <? 10 then mp + 3 else mp - 9 in
  let y := yoe + era * 400 + (if m <=? 2 then 1 else 0) in
  (y, m, d).

Definition pad (n : nat) (z : Z) : string := padStart n "0" (pretty z).

Definition year_string (y : Z) : string :=
  if (0 <=? y) && (y <=? 9999) then pad 4 y
  else if y <? 0 then "-" +:+ pad 6 (- y) else "+" +:+ pad 6 y.

(** [Date.prototype.toISOString]. *)
Definition toISOString (ms : Z) : string :=
  let '(y, m, d) := civil_from_days (ms `div` ms_per_day) in
  let t := ms `mod` ms_per_day in
  year_string y +:+ "-" +:+ pad 2 m +:+ "-" +:+ pad 2 d +:+ "T" +:+
  pad 2 (t `div` 3600000) +:+ ":" +:+ pad 2 ((t `div` 60000) `mod` 60) +:+ ":" +:+
  pad 2 ((t `div` 1000) `mod` 60) +:+ "." +:+ pad 3 (t `mod` 1000) +:+ "Z".

End JS.

(** ** Data *)

(** A thrown value: an [Error] object and its [message]. *)
Inductive Exn : Type :=
  | Error (message : string)
  | TypeError (message : string)
  | SyntaxError (message : string).

Definition message (e : Exn) : string :=
  match e with Error m | TypeError m | SyntaxError m => m end.

(** An expression that has a value or throws. *)
#[export] Instance result_ret : MRet (sum Exn) := λ A a, inr a.
#[export] Instance result_bind : MBind (sum Exn) := λ A B f r,
  match r with
  | inr a => f a
  | inl e => inl e
  end.

(** The values of a list of expressions evaluated from left to right, up to
    the first that throws. *)
Fixpoint those {A} (l : list (Exn + A)) : Exn + list A :=
  match l with
  | [] => inr []
  | r :: rest =>
      match r with
      | inr a =>
          match those rest with
          | inr values => inr (a :: values)
          | inl e => inl e
          end
      | inl e => inl e
      end
  end.

(** What [JSON.parse] returns. *)
#[warnings="-register-all"]
Inductive JValue : Type :=
  | JNull
  | JBool (b : bool)
  | JNumber (q : Q)
  | JString (s : string)
  | JArray (items : list JValue)
  | JObject (fields : list (string * JValue)).

(** A value of the program that came out of [JSON.parse], or [undefined]. *)
Definition Value : Type := option JValue.
Definition undefined : Value := None.

(** A text that comes from outside or is stored, known by what [JSON.parse]
    makes of it: [Json v] is the JSON text of [v], as [JSON.stringify v]
    writes it; [Plain raw] is a text that [JSON.parse] rejects. *)
Inductive Text : Type :=
  | Json (v : JValue)
  | Plain (raw : string).

Definition JSON_stringify (v : JValue) : Text := Json v.

Definition JSON_parse (t : Text) : Exn + JValue :=
  match t with
  | Json v => inr v
  | Plain raw => inl (SyntaxError "Unexpected token in JSON")
  end.

(** [JSON.stringify (x)] is [undefined] for [undefined]. *)
Definition stringified (x : Value) : option Text := JSON_stringify <$> x.

(** [Boolean (v)] *)
Definition is_truthy (v : JValue) : bool :=
  match v with
  | JNull => false
  | JBool b => b
  | JNumber q => negb (Qeq_bool q 0)
  | JString s => negb (String.eqb s "")
  | JArray _ | JObject _ => true
  end.

Definition truthy_value (x : Value) : bool :=
  match x with
  | Some v => is_truthy v
  | None => false
  end.

(** [obj.key]: the last binding of a repeated key wins, as in [JSON.parse]. *)
Fixpoint field (key : string) (fields : list (string * JValue)) : Value :=
  match fields with
  | [] => None
  | (k, v) :: rest =>
      match field key rest with
      | Some v' => Some v'
      | None => if String.eqb k key then Some v else None
      end
  end.

Definition number_of_nat (n : nat) : JValue := JNumber (inject_Z (Z.of_nat n)).

(** [v.key], for the names of the data properties that the worker reads
    ([summary], [insights], [length], [severity], ..): none of them is the
    name of a method, so that only an object has any of them, but for the
    [length] of an array and of a string. Reading a property of [null]
    throws. *)
Definition member (key : string) (v : JValue) : Exn + Value :=
  match v with
  | JNull => inl (TypeError ("Cannot read properties of null (reading '" +:+ key +:+ "')"))
  | JObject fs => inr (field key fs)
  | JArray items =>
      inr (if String.eqb key "length" then Some (number_of_nat (length items)) else None)
  | JString s =>
      inr (if String.eqb key "length" then Some (number_of_nat (JS.length s)) else None)
  | JBool _ | JNumber _ => inr None
  end.

(** [x.key] for an [x] that may be [undefined]. *)
Definition member_of (key : string) (x : Value) : Exn + Value :=
  match x with
  | Some v => member key v
  | None =>
      inl (TypeError ("Cannot read properties of undefined (reading '" +:+ key +:+ "')"))
  end.

(** The transcripts of the Fireflies query ([id title date duration
    meeting_attendees { displayName email } transcript_url sentences { text
    speaker_name start_time }]), with the types the query gives them. The
    texts and the numbers [date] and [duration] are there; a list, an
    attendee's name and the [start_time] of a sentence may be null. *)
Record Attendee := mkAttendee {
  displayName : option string;
  email : option string }.

Record Sentence := mkSentence {
  text : string;
  speaker_name : string;
  start_time : option Q }.

Record Transcript := mkTranscript {
  tr_id : string;
  tr_title : string;
  tr_date : Q;
  tr_duration : Q;
  meeting_attendees : option (list Attendee);
  transcript_url : string;
  sentences : option (list Sentence) }.

(** The object the prompt of [generateBusinessInsights] asks the model for. *)
Record Risk := mkRisk {
  risk_title : string;
  severity : string }.

Record SubInsight := mkSubInsight {
  si_type : string;
  si_title : string;
  si_description : string;
  requiresAction : bool;
  confidence : Q }.

Record Insight := mkInsight {
  summary : string;
  meetingType : string;
  actionItems : list string;
  decisions : list string;
  risks : list Risk;
  insights : list SubInsight;
  followUpRequired : bool }.

(** *** Reading an [Insight] off a parsed value *)

Definition as_object (v : JValue) : option (list (string * JValue)) :=
  match v with JObject fs => Some fs | _ => None end.
Definition as_array (v : JValue) : option (list JValue) :=
  match v with JArray l => Some l | _ => None end.
Definition as_string (v : JValue) : option string :=
  match v with JString s => Some s | _ => None end.
Definition as_bool (v : JValue) : option bool :=
  match v with JBool b => Some b | _ => None end.
Definition as_number (v : JValue) : option Q :=
  match v with JNumber q => Some q | _ => None end.

Definition get {A} (as_a : JValue → option A) (key : string)
    (fs : list (string * JValue)) : option A :=
  field key fs ≫= as_a.

Definition as_list {A} (as_a : JValue → option A) (v : JValue) : option (list A) :=
  as_array v ≫= mapM as_a.

Definition as_risk (v : JValue) : option Risk :=
  fs ← as_object v;
  t ← get as_string "title" fs;
  s ← get as_string "severity" fs;
  Some (mkRisk t s).

Definition as_sub_insight (v : JValue) : option SubInsight :=
  fs ← as_object v;
  ty ← get as_string "type" fs;
  t ← get as_string "title" fs;
  d ← get as_string "description" fs;
  r ← get as_bool "requiresAction" fs;
  c ← get as_number "confidence" fs;
  Some (mkSubInsight ty t d r c).

(** The parsed value has the shape of an [Insight]: every field is present
    with the type the prompt gives it. *)
Definition as_insight (v : JValue) : option Insight :=
  fs ← as_object v;
  s ← get as_string "summary" fs;
  mt ← get as_string "meetingType" fs;
  ai ← get (as_list as_string) "actionItems" fs;
  ds ← get (as_list as_string) "decisions" fs;
  rs ← get (as_list as_risk) "risks" fs;
  ins ← get (as_list as_sub_insight) "insights" fs;
  f ← get as_bool "followUpRequired" fs;
  Some (mkInsight s mt ai ds rs ins f).

Definition structurally_valid (v : JValue) : bool :=
  bool_decide (is_Some (as_insight v)).

(** ** The stores and the outside world *)

(** Rows of the D1 tables the worker reads and writes. The schema is not in
    the repository; the columns are those the statements of the worker name.
    A cell that the worker binds to a value of the model's reply holds that
    value as it was bound ([None] for [undefined]); a cell that it binds to a
    [JSON.stringify] holds the text, or nothing for [undefined] and for NULL.
    The [date] of a meeting is the number the sync has bound, or what another
    writer has put there: a cell keeps the type of the value it was bound to
    (the columns are taken to be declared without a type that would convert
    it). *)
Record MeetingRow := mkMeetingRow {
  mr_id : string;
  mr_title : string;
  mr_date : Value;
  mr_duration : Z;
  mr_participants : Text;
  mr_fireflies_id : string;
  mr_summary : Value;
  mr_project_id : option string;
  mr_meeting_type : Value;
  mr_action_items_json : option Text;
  mr_key_decisions_json : option Text;
  mr_ai_risk_flags : option Text;
  mr_follow_up_required : Value;
  mr_created_at : string }.

Record InsightRow := mkInsightRow {
  pi_id : string;
  pi_project_id : string;
  pi_insight_type : Value;
  pi_title : Value;
  pi_description : Value;
  pi_source_meeting_id : string;
  pi_requires_action : Value;
  pi_confidence_score : Value;
  pi_extracted_at : Z }.

Record Project := mkProject {
  p_id : string;
  p_name : string;
  autorag_project_tag : option string;
  p_updated_at : Z }.

(** A row of the view [project_dashboard], with the columns the worker
    reads; [estimated_value] and [timeline_status] may be NULL. *)
Record DashboardRow := mkDashboardRow {
  pd_id : string;
  pd_name : string;
  pd_status : string;
  pd_estimated_value : option Q;
  pd_profit_margin_percent : Q;
  pd_timeline_status : option string }.

Record TaskRow := mkTaskRow {
  t_project_id : string;
  t_status : string;
  t_estimated_hours : Z;
  t_actual_hours : Z }.

Record R2Object := mkR2Object {
  content : string;
  contentType : string }.

(** The durable state (D1 tables, R2 bucket) and the number of times the
    clock has been read so far. *)
Record World := mkWorld {
  meetings : list MeetingRow;
  project_insights : list InsightRow;
  projects : list Project;
  project_dashboard : list DashboardRow;
  tasks : list TaskRow;
  bucket : gmap string R2Object;
  reads : nat }.

(** The statements the worker prepares, with their bound values. *)
Inductive Stmt : Type :=
  | SelectProjectForTitle (title : string)
  | InsertOrReplaceMeeting (row : MeetingRow)
  | InsertProjectInsight (id project_id : string) (insight_type title description : Value)
      (source_meeting_id : string) (requires_action confidence_score : Value)
  | SelectProjectDashboard (id : string)
  | SelectProjectInsights (id : string)
  | SelectRecentMeetings (id : string)
  | SelectTaskStats (id : string).

Inductive FetchOutcome : Type :=
  | FetchThrows (e : Exn)
  | FetchJson (transcripts : option (list Transcript)).

Inductive AiOutcome : Type :=
  | AiThrows (e : Exn)
  | AiResponse (response : Text).

(** What the JavaScript runtime takes from its locale and from the tables
    of Unicode and of number conversion: [toLocaleDateString] of the date at
    an instant and [toLocaleString] of a number; the upper-case and
    lower-case forms of a string that is not ASCII; the text of a number that
    is no safe integer; and whether the number that a string stands for is
    above zero. *)
Record Runtime := mkRuntime {
  toLocaleDateString : Q → string;
  toLocaleString : Q → string;
  number_text : Q → string;
  upper_case : string → string;
  lower_case : string → string;
  positive : string → bool }.

(** What the worker does not control: the replies of the transcript source
    and of the model, the clock, which storage calls throw, the order in
    which the event loop resumes the callbacks of a batch, and the runtime.
    [fireflies] is the outcome of the GraphQL request up to
    [firefliesData.data?.transcripts]; [clock n] is what the clock shows at
    its [n]-th reading; [db_fault w s] and [r2_fault w key body] say whether
    the call throws in the world [w], and with what (a value that D1 does
    not take is one reason for it to throw); the [n]-th entry of [schedule]
    is the index of the callback that is resumed at the [n]-th turn of the
    event loop. The schema of the database is not in the repository either:
    [meetings_conflict new old] says whether the row [old] of the table
    [meetings] is in conflict with the row [new] under the unique constraints
    that its CREATE TABLE declares. *)
Record Env := mkEnv {
  fireflies : FetchOutcome;
  ai_run : string → AiOutcome;
  clock : nat → Z;
  db_fault : World → Stmt → option Exn;
  r2_fault : World → string → string → option Exn;
  autorag_fetch : option Exn;
  schedule : list nat;
  runtime : Runtime;
  meetings_conflict : MeetingRow → MeetingRow → bool }.

(** ** Computations that read and write the world and may throw *)

Definition M (A : Type) : Type := World → (Exn + A) * World.

#[export] Instance M_ret : MRet M := λ A a w, (inr a, w).
#[export] Instance M_bind : MBind M := λ A B f c w,
  match c w with
  | (inr a, w') => f a w'
  | (inl e, w') => (inl e, w')
  end.

Definition throw {A} (e : Exn) : M A := λ w, (inl e, w).

(** [try { c } catch (error) { h error }] *)
Definition try_catch {A} (c : M A) (h : Exn → M A) : M A := λ w,
  match c w with
  | (inr a, w') => (inr a, w')
  | (inl e, w') => h e w'
  end.

Definition lift {A} (r : Exn + A) : M A := λ w, (r, w).

(** ** Async functions and promises *)

(** An async function on its way: it has returned, or it waits at an
    [await] for a call to the outside and goes on with what the call
    returns. What it does between two awaits, the call included, happens in
    one piece; a throw there rejects its promise. *)
Inductive Task (A : Type) : Type :=
  | Return (a : A)
  | Await {X : Type} (call : M X) (next : X → Task A).
Arguments Return {A} a.
Arguments Await {A X} call next.

Fixpoint task_bind {A B} (t : Task A) (f : A → Task B) : Task B :=
  match t with
  | Return a => f a
  | Await call next => Await call (λ x, task_bind (next x) f)
  end.

#[export] Instance Task_ret : MRet Task := λ A a, Return a.
#[export] Instance Task_bind : MBind Task := λ A B f t, task_bind t f.

(** [await call] *)
Definition await {X} (call : M X) : Task X := Await call Return.

(** The function run from where it is to its end, nothing else happening
    in between. *)
Fixpoint to_end {A} (t : Task A) : M A :=
  match t with
  | Return a => mret a
  | Await call next => λ w,
      match call w with
      | (inr x, w') => to_end (next x) w'
      | (inl e, w') => (inl e, w')
      end
  end.

(** The outcome of a promise under [Promise.allSettled]. *)
Inductive Settled (A : Type) : Type :=
  | Fulfilled (value : A)
  | Rejected (reason : Exn).
Arguments Fulfilled {A} value.
Arguments Rejected {A} reason.

Definition is_fulfilled {A} (r : Settled A) : bool :=
  match r with Fulfilled _ => true | Rejected _ => false end.

(** The promise of an async function: pending, with what is left to do, or
    settled. *)
Inductive Promise (A : Type) : Type :=
  | Pending (t : Task A)
  | Done (outcome : Settled A).
Arguments Pending {A} t.
Arguments Done {A} outcome.

Definition promise_of {A} (t : Task A) : Promise A :=
  match t with
  | Return a => Done (Fulfilled a)
  | Await _ _ => Pending t
  end.

(** One turn of the event loop for a promise: its function goes on from
    its await to the next one, or to its return or throw. *)
Definition resume {A} (p : Promise A) (w : World) : Promise A * World :=
  match p with
  | Pending (Await call next) =>
      match call w with
      | (inr x, w') => (promise_of (next x), w')
      | (inl e, w') => (Done (Rejected e), w')
      end
  | Pending (Return a) => (Done (Fulfilled a), w)
  | Done outcome => (Done outcome, w)
  end.

Definition resume_at {A} (i : nat) (ps : list (Promise A)) (w : World)
    : list (Promise A) * World :=
  match ps !! i with
  | Some p => let '(p', w') := resume p w in (<[i := p']> ps, w')
  | None => (ps, w)
  end.

Fixpoint turns {A} (order : list nat) (ps : list (Promise A)) (w : World)
    : list (Promise A) * World :=
  match order with
  | [] => (ps, w)
  | i :: rest => let '(ps', w') := resume_at i ps w in turns rest ps' w'
  end.

(** The promises still pending run to their end, in their order. *)
Fixpoint finish {A} (ps : list (Promise A)) (w : World) : list (Settled A) * World :=
  match ps with
  | [] => ([], w)
  | p :: rest =>
      let '(outcome, w') :=
        match p with
        | Done outcome => (outcome, w)
        | Pending t =>
            match to_end t w with
            | (inr a, w') => (Fulfilled a, w')
            | (inl e, w') => (Rejected e, w')
            end
        end in
      let '(outcomes, w'') := finish rest w' in
      (outcome :: outcomes, w'')
  end.

(** [Promise.allSettled (l.map (async x => f x))]: every callback is
    started; the callbacks are resumed in the order [order] gives, each turn
    taking one of them from one await to the next; when [order] is used up
    those still pending run to their end. The return or throw of a callback
    becomes its own entry of the result, and the whole never rejects. *)
Definition allSettled {A B} (order : list nat) (f : A → Task B) (l : list A)
    : M (list (Settled B)) := λ w,
  let '(ps, w') := turns order (promise_of ∘ f <$> l) w in
  let '(outcomes, w'') := finish ps w' in
  (inr outcomes, w'').

(** ** SQL of the worker's statements *)

Module SQL.

(** [LOWER]: the letters of ASCII, as SQLite has it built in. *)
Definition lower : string → string := JS.map_string JS.lower_ascii.

(** [text LIKE pattern] over the characters of the two: [%] stands for any
    run of characters, [_] for any one character, any other character for
    itself, the letters of ASCII in either case alike. *)
Fixpoint like_characters (pattern text : list string) : bool :=
  match pattern with
  | [] => match text with [] => true | _ => false end
  | p :: pattern' =>
      if String.eqb p "%" then
        (fix any (t : list string) : bool :=
           like_characters pattern' t ||
           match t with [] => false | _ :: t' => any t' end) text
      else
        match text with
        | [] => false
        | c :: text' =>
            (String.eqb p "_" || String.eqb (lower p) (lower c))
            && like_characters pattern' text'
        end
  end.

Definition like (pattern text : string) : bool :=
  like_characters (JS.characters pattern) (JS.characters text).

(** [date ('now', '-N days')], [N] being [days], at the instant [now]: the
    day as [YYYY-MM-DD]. (SQLite leaves the dates outside the years 0000 to
    9999 undefined.) *)
Definition date (now days : Z) : string :=
  let '(y, m, d) := JS.civil_from_days (now `div` JS.ms_per_day - days) in
  JS.pad 4 y +:+ "-" +:+ JS.pad 2 m +:+ "-" +:+ JS.pad 2 d.

(** [cell > text], where [text] is a text: a number is below every text,
    NULL compares with nothing, and two texts compare byte by byte. *)
Definition above (cell : Value) (text_ : string) : bool :=
  match cell with
  | Some (JString s) => String.ltb text_ s
  | _ => false
  end.

End SQL.

(** [LOWER(?) LIKE LOWER('%' || col || '%')], for a column that may be NULL. *)
Definition lower_like_contains (title : string) (col : option string) : bool :=
  match col with
  | None => false
  | Some c => SQL.like (SQL.lower ("%" +:+ c +:+ "%")) (SQL.lower title)
  end.

(** The WHERE clause of [associateTranscriptWithProject]. *)
Definition project_matches (title : string) (p : Project) : bool :=
  lower_like_contains title (Some (p_name p)) ||
  lower_like_contains title (autorag_project_tag p).

(** [ORDER BY key DESC], for a key that is a number and for one that is a
    text. *)
Definition desc {A} (key : A → Z) : relation A := λ a b, key b ≤ key a.

#[export] Instance desc_dec {A} (key : A → Z) : RelDecision (desc key) :=
  λ a b, Z_le_dec (key b) (key a).

Definition order_by_desc {A} (key : A → Z) (rows : list A) : list A :=
  merge_sort (desc key) rows.

Definition text_desc {A} (key : A → string) : relation A :=
  λ a b, String.leb (key b) (key a) = true.

#[export] Instance text_desc_dec {A} (key : A → string) : RelDecision (text_desc key) :=
  λ a b, decide (String.leb (key b) (key a) = true).

Definition text_asc {A} (key : A → string) : relation A :=
  λ a b, String.leb (key a) (key b) = true.

#[export] Instance text_asc_dec {A} (key : A → string) : RelDecision (text_asc key) :=
  λ a b, decide (String.leb (key a) (key b) = true).

(** [INSERT OR REPLACE]: the rows of the table that are in conflict with
    the new one are deleted, and the new one is inserted. [conflict new old]
    says which rows are in conflict; it follows from the unique constraints of
    the table. *)
Definition insert_or_replace (conflict : MeetingRow → MeetingRow → bool)
    (row : MeetingRow) (rows : list MeetingRow) : list MeetingRow :=
  filter (λ r, conflict row r = false) rows ++ [row].

(** The text of the [date] of a row, for the rows whose [date] is one. *)
Definition date_text (m : MeetingRow) : string :=
  match mr_date m with
  | Some (JString s) => s
  | _ => ""
  end.

Record TaskStat := mkTaskStat {
  ts_status : string;
  ts_count : nat;
  ts_estimated_hours : Z;
  ts_actual_hours : Z }.

(** [GROUP BY status] with [COUNT( * )] and the two [SUM]s: one group per
    status, which come out in the order of the statuses. *)
Fixpoint add_task (r : TaskRow) (stats : list TaskStat) : list TaskStat :=
  match stats with
  | [] => [mkTaskStat (t_status r) 1 (t_estimated_hours r) (t_actual_hours r)]
  | s :: rest =>
      if decide (ts_status s = t_status r)
      then mkTaskStat (ts_status s) (S (ts_count s))
             (ts_estimated_hours s + t_estimated_hours r)
             (ts_actual_hours s + t_actual_hours r) :: rest
      else s :: add_task r rest
  end.

Definition group_by_status (rows : list TaskRow) : list TaskStat :=
  merge_sort (text_asc ts_status) (foldl (λ stats r, add_task r stats) [] rows).

(** ** Responses *)

Record DashMeeting := mkDashMeeting {
  dm_title : string;
  dm_date : Value;
  dm_summary : Value;
  dm_action_items_json : option Text;
  dm_ai_risk_flags : option Text;
  dm_action_items : JValue;
  dm_risks : JValue }.

Record Dashboard := mkDashboard {
  project : DashboardRow;
  d_insights : list InsightRow;
  recentMeetings : list DashMeeting;
  taskBreakdown : list TaskStat;
  executiveSummary : Text }.

Inductive Body : Type :=
  | BodyText (s : string)
  | BodySync (count : nat) (msg : string) (insightsGenerated : nat)
  | BodySyncError (error details : string) (count : nat)
  | BodyError (error : string)
  | BodyDashboard (d : Dashboard).

Record Response := mkResponse {
  status : Z;
  body : Body }.

(** ** The worker *)

Definition dq : string := String "034"%char EmptyString.

(** [projectId] is a string or null; null and the empty string are falsy. *)
Definition truthy (projectId : option string) : bool :=
  match projectId with
  | Some (String _ _) => true
  | _ => false
  end.

Definition or_default (projectId : option string) (default : string) : string :=
  match projectId with
  | Some s => JS.or_else s default
  | None => default
  end.

Section Worker.
Context (env : Env).

(** *** Values of the model's reply, read without a type *)

Definition number_to_string (x : Q) : string :=
  JS.number_to_string (number_text (runtime env)) x.
Definition integer_to_string (n : Z) : string :=
  JS.integer_to_string (number_text (runtime env)) n.
Definition toUpperCase : string → string := JS.toUpperCase (upper_case (runtime env)).
Definition toLowerCase : string → string := JS.toLowerCase (lower_case (runtime env)).

(** [`${v}`]: the text of a value. An array is the texts of its elements
    with commas between them, nothing standing for null; an object is
    "[object Object]", unless it has a property [toString] of its own,
    which is no function: then no text can be made of it. *)
Fixpoint to_string (v : JValue) : Exn + string :=
  match v with
  | JNull => inr "null"
  | JBool b => inr (if b then "true" else "false")
  | JNumber q => inr (number_to_string q)
  | JString s => inr s
  | JArray items =>
      match
        (fix each (l : list JValue) : Exn + list string :=
           match l with
           | [] => inr []
           | x :: rest =>
               match (match x with JNull => inr "" | _ => to_string x end) with
               | inr s =>
                   match each rest with
                   | inr parts => inr (s :: parts)
                   | inl e => inl e
                   end
               | inl e => inl e
               end
           end) items
      with
      | inr parts => inr (JS.join "," parts)
      | inl e => inl e
      end
  | JObject fs =>
      match field "toString" fs with
      | Some _ => inl (TypeError "Cannot convert object to primitive value")
      | None => inr "[object Object]"
      end
  end.

Definition text_of (x : Value) : Exn + string :=
  match x with
  | Some v => to_string v
  | None => inr "undefined"
  end.

(** [x > 0] *)
Definition above_zero (x : Value) : Exn + bool :=
  match x with
  | None | Some JNull => inr false
  | Some (JBool b) => inr b
  | Some (JNumber q) => inr (negb (Qle_bool q 0))
  | Some (JString s) => inr (positive (runtime env) s)
  | Some (JArray items) =>
      s ← to_string (JArray items);
      mret (positive (runtime env) s)
  | Some (JObject fs) =>
      match field "toString" fs with
      | Some _ => inl (TypeError "Cannot convert object to primitive value")
      | None => inr false
      end
  end.

(** [for (const x of v)]: the elements of an array, the characters of a
    string; nothing else among these values can be iterated. *)
Definition iterated (what : string) (x : Value) : Exn + list JValue :=
  match x with
  | Some (JArray items) => inr items
  | Some (JString s) => inr (JString <$> JS.characters s)
  | _ => inl (TypeError (what +:+ " is not iterable"))
  end.

(** [x.map ((item, i) => f i item)]: only an array has [map]. *)
Definition mapped {A} (what : string) (x : Value) (f : nat → JValue → Exn + A)
    : Exn + list A :=
  match x with
  | Some (JArray items) => those (imap f items)
  | None =>
      inl (TypeError "Cannot read properties of undefined (reading 'map')")
  | Some JNull =>
      inl (TypeError "Cannot read properties of null (reading 'map')")
  | Some _ => inl (TypeError (what +:+ ".map is not a function"))
  end.

(** *** The clock and the stores *)

(** [Date.now ()] and [new Date ()]: one more reading of the clock. *)
Definition Date_now : M Z := λ w,
  (inr (clock env (reads w)),
   mkWorld (meetings w) (project_insights w) (projects w) (project_dashboard w)
     (tasks w) (bucket w) (S (reads w))).

(** [db.prepare (..).bind (..).all ()]: the rows [query] selects, unless
    the call throws. *)
Definition db_all {A} (s : Stmt) (query : World → list A) : M (list A) := λ w,
  match db_fault env w s with
  | Some e => (inl e, w)
  | None => (inr (query w), w)
  end.

(** [db.prepare (..).bind (..).run ()]: the write [update], unless the
    call throws, in which case nothing is written. *)
Definition db_run (s : Stmt) (update : World → World) : M unit := λ w,
  match db_fault env w s with
  | Some e => (inl e, w)
  | None => (inr (), update w)
  end.

Definition put_meeting (row : MeetingRow) (w : World) : World :=
  mkWorld (insert_or_replace (meetings_conflict env) row (meetings w))
    (project_insights w) (projects w)
    (project_dashboard w) (tasks w) (bucket w) (reads w).

(** Modelled from the spec: [extracted_at], which the INSERT does not
    bind, is the time of the insertion (the CREATE TABLE and its column
    default are not in the repository). The time of the database, which is
    also the ['now'] of its [date], is taken from the clock without counting
    as a reading of the worker. *)
Definition db_time (w : World) : Z := clock env (reads w).

Definition add_insight (id project_id : string) (insight_type title description : Value)
    (source_meeting_id : string) (requires_action confidence_score : Value)
    (w : World) : World :=
  mkWorld (meetings w)
    (project_insights w ++
       [mkInsightRow id project_id insight_type title description source_meeting_id
          requires_action confidence_score (db_time w)])
    (projects w) (project_dashboard w) (tasks w) (bucket w) (reads w).

Definition put_object (key : string) (o : R2Object) (w : World) : World :=
  mkWorld (meetings w) (project_insights w) (projects w) (project_dashboard w)
    (tasks w) (<[key := o]> (bucket w)) (reads w).

(** *** The helpers of the sync *)

(** [SELECT id, name FROM projects WHERE .. ORDER BY updated_at DESC LIMIT 1] *)
Definition select_project (title : string) (w : World) : list Project :=
  take 1 (order_by_desc p_updated_at
            (filter (λ p, project_matches title p = true) (projects w))).

Definition associateTranscriptWithProject (title : string) : M (option string) :=
  results ← db_all (SelectProjectForTitle title) (select_project title);
  mret (match results with
        | r :: _ => Some (p_id r)
        | [] => None
        end).

(** [transcript.sentences?.map (..).join ('\n') || ''] *)
Definition full_text (transcript : Transcript) : string :=
  match sentences transcript with
  | Some ss => JS.join JS.nl ((λ s, speaker_name s +:+ ": " +:+ text s) <$> ss)
  | None => ""
  end.

Definition insights_prompt (transcript : Transcript) : string :=
  let fullText := full_text transcript in
  JS.join JS.nl [
    "";
    "      Analyze this business meeting transcript for actionable insights:";
    "      ";
    "      Meeting: " +:+ tr_title transcript;
    "      Content: " +:+ JS.slice0 2500 fullText;
    "      ";
    "      Extract and return JSON with:";
    "      {";
    "        " +:+ dq +:+ "summary" +:+ dq +:+ ": " +:+ dq +:+
      "executive summary in 2-3 sentences" +:+ dq +:+ ",";
    "        " +:+ dq +:+ "meetingType" +:+ dq +:+ ": " +:+ dq +:+
      "project|client|planning|review|standup" +:+ dq +:+ ",";
    "        " +:+ dq +:+ "actionItems" +:+ dq +:+ ": [" +:+ dq +:+ "specific action 1" +:+
      dq +:+ ", " +:+ dq +:+ "action 2" +:+ dq +:+ "],";
    "        " +:+ dq +:+ "decisions" +:+ dq +:+ ": [" +:+ dq +:+ "decision 1" +:+ dq +:+
      ", " +:+ dq +:+ "decision 2" +:+ dq +:+ "],";
    "        " +:+ dq +:+ "risks" +:+ dq +:+ ": [{" +:+ dq +:+ "title" +:+ dq +:+ ": " +:+
      dq +:+ "risk name" +:+ dq +:+ ", " +:+ dq +:+ "severity" +:+ dq +:+ ": " +:+ dq +:+
      "low|medium|high" +:+ dq +:+ "}],";
    "        " +:+ dq +:+ "insights" +:+ dq +:+ ": [{" +:+ dq +:+ "type" +:+ dq +:+ ": " +:+
      dq +:+ "risk|opportunity|blocker" +:+ dq +:+ ", " +:+ dq +:+ "title" +:+ dq +:+
      ": " +:+ dq +:+ "insight" +:+ dq +:+ ", " +:+ dq +:+ "description" +:+ dq +:+ ": " +:+
      dq +:+ "details" +:+ dq +:+ ", " +:+ dq +:+ "requiresAction" +:+ dq +:+ ": true, " +:+
      dq +:+ "confidence" +:+ dq +:+ ": 0.8}],";
    "        " +:+ dq +:+ "followUpRequired" +:+ dq +:+ ": true";
    "      }";
    "      ";
    "      Focus on business impact, project health, and leadership priorities.";
    "    " ].

Definition fallback_insights (transcript : Transcript) : JValue :=
  JObject [
    ("summary", JString ("Meeting: " +:+ tr_title transcript));
    ("meetingType", JString "project");
    ("actionItems", JArray []);
    ("decisions", JArray []);
    ("risks", JArray []);
    ("insights", JArray []);
    ("followUpRequired", JBool false) ].

Definition ai (prompt : string) : M Text :=
  match ai_run env prompt with
  | AiThrows e => throw e
  | AiResponse t => mret t
  end.

Definition generateBusinessInsights (transcript : Transcript) : M JValue :=
  let prompt := insights_prompt transcript in
  try_catch
    (response ← ai prompt;
     lift (JSON_parse response))
    (λ error, mret (fallback_insights transcript)).

Definition uploadToR2 (key body : string) : M unit := λ w,
  match r2_fault env w key body with
  | Some e => (inl e, w)
  | None => (inr (), put_object key (mkR2Object body "text/markdown") w)
  end.

Definition triggerAutoRAGSync : M unit :=
  try_catch
    (match autorag_fetch env with
     | Some e => throw e
     | None => mret ()
     end)
    (λ error, mret ()).

(** *** The document of a meeting *)

(** [Math.round (transcript.duration / 60)] *)
Definition duration_minutes (transcript : Transcript) : Z :=
  JS.round (JS.div (tr_duration transcript) 60).

(** The [timestamp] of a sentence in [createEnhancedMarkdown]: empty when
    [start_time] is falsy, that is null or zero. *)
Definition sentence_timestamp (start_time : option Q) : string :=
  match start_time with
  | Some offset =>
      if Qeq_bool offset 0 then ""
      else "[" +:+ integer_to_string (JS.floor (JS.div offset 60)) +:+ ":" +:+
           JS.padStart 2 "0" (integer_to_string (JS.floor (JS.rem offset 60))) +:+ "]"
  | None => ""
  end.

Definition sentence_line (s : Sentence) : string :=
  sentence_timestamp (start_time s) +:+ " **" +:+ speaker_name s +:+ ":** " +:+ text s.

Definition transcript_section (transcript : Transcript) : string :=
  match sentences transcript with
  | Some ss =>
      JS.or_else (JS.join (JS.nl +:+ JS.nl) (sentence_line <$> ss))
        "No transcript available."
  | None => "No transcript available."
  end.

(** [`${i + 1}. ${item}`] *)
Definition numbered_line (i : nat) (item : JValue) : Exn + string :=
  s ← to_string item;
  mret (pretty (S i) +:+ ". " +:+ s).

(** [`- **${risk.severity.toUpperCase ()}:** ${risk.title}`] *)
Definition risk_line (risk : JValue) : Exn + string :=
  severity_ ← member "severity" risk;
  upper ← match severity_ with
          | Some (JString s) => inr (toUpperCase s)
          | None =>
              inl (TypeError "Cannot read properties of undefined (reading 'toUpperCase')")
          | Some JNull =>
              inl (TypeError "Cannot read properties of null (reading 'toUpperCase')")
          | Some _ => inl (TypeError "risk.severity.toUpperCase is not a function")
          end;
  title ← member "title" risk;
  title_text ← text_of title;
  mret ("- **" +:+ upper +:+ ":** " +:+ title_text).

(** [`${x.length}`] *)
Definition length_text (x : Value) : Exn + string :=
  n ← member_of "length" x;
  text_of n.

(** The lines of the template up to the [Generated] line, its expressions
    evaluated in their order. *)
Definition markdown_head (transcript : Transcript) (insights_ : JValue)
    (projectId : option string) : Exn + list string :=
  meetingType_ ← member "meetingType" insights_;
  meeting_type ← text_of meetingType_;
  found ← member "insights" insights_;
  insights_generated ← length_text found;
  actionItems_ ← member "actionItems" insights_;
  action_items ← length_text actionItems_;
  risks_ ← member "risks" insights_;
  risks_identified ← length_text risks_;
  summary_ ← member "summary" insights_;
  ai_summary ← text_of summary_;
  actions ← mapped "insights.actionItems" actionItems_ numbered_line;
  decisions_ ← member "decisions" insights_;
  decided ← mapped "insights.decisions" decisions_ numbered_line;
  flags ← mapped "insights.risks" risks_ (λ _, risk_line);
  mret [
    "---";
    "  title: " +:+ tr_title transcript;
    "  project_id: " +:+ or_default projectId "unknown";
    "  meeting_type: " +:+ meeting_type;
    "  date: " +:+ number_to_string (tr_date transcript);
    "  duration: " +:+ integer_to_string (duration_minutes transcript) +:+ " minutes";
    "  insights_generated: " +:+ insights_generated;
    "  action_items: " +:+ action_items;
    "  risks_identified: " +:+ risks_identified;
    "  ---";
    "  ";
    "  # " +:+ tr_title transcript;
    "  ";
    "  **Project:** " +:+ or_default projectId "Not Associated";
    "  **Date:** " +:+ toLocaleDateString (runtime env) (tr_date transcript);
    "  **Type:** " +:+ meeting_type;
    "  **AI Summary:** " +:+ ai_summary;
    "  ";
    "  ## Business Intelligence";
    "  ";
    "  ### Action Items";
    "  " +:+ JS.join JS.nl actions;
    "  ";
    "  ### Key Decisions";
    "  " +:+ JS.join JS.nl decided;
    "  ";
    "  ### Risk Flags";
    "  " +:+ JS.join JS.nl flags;
    "  ";
    "  ## Meeting Transcript";
    "  ";
    "  " +:+ transcript_section transcript;
    "  ";
    "  ---" ].

Definition generated_line (now : Z) : string :=
  "  **Generated:** " +:+ JS.toISOString now.

Definition markdown_foot : list string := [
  "  **Source:** Fireflies.ai Enhanced with Business Intelligence";
  "  " ].

Definition createEnhancedMarkdown (transcript : Transcript) (insights_ : JValue)
    (projectId : option string) : M string :=
  head ← lift (markdown_head transcript insights_ projectId);
  now ← Date_now;
  mret (JS.join JS.nl (head ++ generated_line now :: markdown_foot)).

(** *** The callback of the sync *)

(** [for (const x of l) { await f (x) }] *)
Fixpoint for_each {A} (l : list A) (f : A → M unit) : Task unit :=
  match l with
  | [] => mret ()
  | x :: rest => await (f x) ≫= λ _, for_each rest f
  end.

Definition participants_json (transcript : Transcript) : Text :=
  JSON_stringify
    (JArray (match meeting_attendees transcript with
             | Some l => (λ a, match displayName a with
                                | Some n => JString n
                                | None => JNull
                                end) <$> l
             | None => []
             end)).

(** The values bound to the INSERT OR REPLACE, but for the time of the
    insertion, which is read after them. *)
Definition meeting_row (transcript : Transcript) (businessInsights : JValue)
    (projectId : option string) : Exn + (string → MeetingRow) :=
  summary_ ← member "summary" businessInsights;
  meetingType_ ← member "meetingType" businessInsights;
  actionItems_ ← member "actionItems" businessInsights;
  decisions_ ← member "decisions" businessInsights;
  risks_ ← member "risks" businessInsights;
  followUpRequired_ ← member "followUpRequired" businessInsights;
  mret (λ created_at,
    mkMeetingRow
      (tr_id transcript)
      (tr_title transcript)
      (Some (JNumber (tr_date transcript)))
      (duration_minutes transcript)
      (participants_json transcript)
      (tr_id transcript)
      summary_
      projectId
      meetingType_
      (stringified actionItems_)
      (stringified decisions_)
      (stringified risks_)
      followUpRequired_
      created_at).

(** [env.ALLEATO_DB.prepare (`INSERT OR REPLACE INTO meetings ..`).bind (..,
    new Date ().toISOString ()).run ()] *)
Definition record_meeting (transcript : Transcript) (businessInsights : JValue)
    (projectId : option string) : M unit :=
  row ← lift (meeting_row transcript businessInsights projectId);
  now ← Date_now;
  db_run (InsertOrReplaceMeeting (row (JS.toISOString now)))
    (put_meeting (row (JS.toISOString now))).

Definition insight_id (transcript_id : string) (now : Z) : string :=
  "insight_" +:+ transcript_id +:+ "_" +:+ pretty now.

Definition insert_insight (transcript : Transcript) (projectId : string)
    (insight : JValue) : M unit :=
  now ← Date_now;
  type_ ← lift (member "type" insight);
  title ← lift (member "title" insight);
  description ← lift (member "description" insight);
  requiresAction_ ← lift (member "requiresAction" insight);
  confidence_ ← lift (member "confidence" insight);
  db_run
    (InsertProjectInsight (insight_id (tr_id transcript) now) projectId
       type_ title description (tr_id transcript) requiresAction_ confidence_)
    (add_insight (insight_id (tr_id transcript) now) projectId
       type_ title description (tr_id transcript) requiresAction_ confidence_).

(** What the loop over [businessInsights.insights] goes through: nothing
    when [businessInsights.insights.length > 0] does not hold. *)
Definition looped (businessInsights : JValue) : Exn + list JValue :=
  found ← member "insights" businessInsights;
  length_ ← member_of "length" found;
  above_zero length_ ≫= λ more : bool,
  if more then iterated "businessInsights.insights" found else mret [].

(** [if (projectId && businessInsights.insights.length > 0) { for (const
    insight of businessInsights.insights) { .. } }] *)
Definition insert_insights (transcript : Transcript) (projectId : option string)
    (businessInsights : JValue) : Task unit :=
  match projectId with
  | Some pid =>
      if truthy projectId
      then
        match looped businessInsights with
        | inr items => for_each items (insert_insight transcript pid)
        | inl e => await (throw e)
        end
      else mret ()
  | None => mret ()
  end.

Definition document_key (transcript_id : string) : string :=
  "meetings/meeting-" +:+ transcript_id +:+ ".md".

(** [const markdownContent = createEnhancedMarkdown (..); await uploadToR2 (..)] *)
Definition publish_document (transcript : Transcript) (businessInsights : JValue)
    (projectId : option string) : M unit :=
  markdownContent ← createEnhancedMarkdown transcript businessInsights projectId;
  uploadToR2 (document_key (tr_id transcript)) markdownContent.

(** The async callback mapped over the transcripts. *)
Definition syncTranscript (transcript : Transcript) : Task string :=
  projectId ← await (associateTranscriptWithProject (tr_title transcript));
  businessInsights ← await (generateBusinessInsights transcript);
  await (record_meeting transcript businessInsights projectId) ≫= λ _,
  insert_insights transcript projectId businessInsights ≫= λ _,
  await (publish_document transcript businessInsights projectId) ≫= λ _,
  mret (tr_id transcript).

Definition fetch_transcripts : M (list Transcript) :=
  match fireflies env with
  | FetchThrows e => throw e
  | FetchJson None => throw (Error "No transcripts found")
  | FetchJson (Some transcripts) => mret transcripts
  end.

Definition handleEnhancedMeetingSync (method : string) : M Response :=
  if bool_decide (method ≠ "POST")
  then mret (mkResponse 405 (BodyText "Method not allowed"))
  else
    try_catch
      (transcripts ← fetch_transcripts;
       syncResults ← allSettled (schedule env) syncTranscript transcripts;
       let successfulUploads := length (filter (λ r, is_fulfilled r = true) syncResults) in
       triggerAutoRAGSync ≫= λ _,
       mret (mkResponse 200
               (BodySync successfulUploads
                  ("Successfully synced " +:+ pretty successfulUploads +:+
                   " meetings with business intelligence")
                  (length syncResults * 2))))
      (λ error,
         mret (mkResponse 200
                 (BodySyncError "Failed to sync meetings" (message error) 0))).

(** *** The dashboard *)

(** [insights.slice (0, 3).map (i => i.title).join (', ')]: nothing stands
    for a title that is NULL. *)
Definition joined_titles (rows : list InsightRow) : Exn + string :=
  titles ← those ((λ r, match pi_title r with
                         | None | Some JNull => inr ""
                         | Some v => to_string v
                         end) <$> take 3 rows);
  mret (JS.join ", " titles).

Definition executive_summary_prompt (project : DashboardRow)
    (insights_ : list InsightRow) (meetings_ : list MeetingRow) : Exn + string :=
  titles ← joined_titles insights_;
  mret (JS.join JS.nl [
    "";
    "      Create an executive summary for this project:";
    "      ";
    "      Project: " +:+ pd_name project +:+ " (" +:+ pd_status project +:+ ")";
    "      Budget: $" +:+
      match pd_estimated_value project with
      | Some v => toLocaleString (runtime env) v
      | None => "undefined"
      end +:+ " (" +:+ number_to_string (pd_profit_margin_percent project) +:+ "% margin)";
    "      Timeline: " +:+ default "null" (pd_timeline_status project);
    "      ";
    "      Recent Insights: " +:+ titles;
    "      Recent Meetings: " +:+ pretty (length meetings_) +:+ " in last 30 days";
    "      ";
    "      Provide a 3-sentence executive summary focusing on:";
    "      1. Current status and health";
    "      2. Key risks or opportunities";
    "      3. Recommended next actions";
    "    " ]).

(** The text of the [catch]: [project.timeline_status.toLowerCase ()]
    throws on a status that is NULL. *)
Definition fallback_summary (project : DashboardRow) (insights_ : list InsightRow)
    : Exn + string :=
  match pd_timeline_status project with
  | Some timeline_status =>
      inr ("Project " +:+ pd_name project +:+ " is " +:+
           toLowerCase timeline_status +:+ " with " +:+
           number_to_string (pd_profit_margin_percent project) +:+ "% profit margin. " +:+
           pretty (length insights_) +:+ " insights requiring attention.")
  | None => inl (TypeError "Cannot read properties of null (reading 'toLowerCase')")
  end.

Definition generateExecutiveSummary (project : DashboardRow)
    (insights_ : list InsightRow) (meetings_ : list MeetingRow) : M Text :=
  prompt ← lift (executive_summary_prompt project insights_ meetings_);
  try_catch
    (response ← ai prompt;
     mret response)
    (λ error,
       fallback ← lift (fallback_summary project insights_);
       mret (Plain fallback)).

(** [cell ? JSON.parse (cell) : []]: NULL and the empty text are falsy. *)
Definition parse_or_empty (cell : option Text) : M JValue :=
  match cell with
  | None | Some (Plain EmptyString) => mret (JArray [])
  | Some t => lift (JSON_parse t)
  end.

Fixpoint map_M {A B} (f : A → M B) (l : list A) : M (list B) :=
  match l with
  | [] => mret []
  | x :: rest =>
      y ← f x;
      ys ← map_M f rest;
      mret (y :: ys)
  end.

Definition dash_meeting (m : MeetingRow) : M DashMeeting :=
  action_items ← parse_or_empty (mr_action_items_json m);
  risks_ ← parse_or_empty (mr_ai_risk_flags m);
  mret (mkDashMeeting (mr_title m) (mr_date m) (mr_summary m)
          (mr_action_items_json m) (mr_ai_risk_flags m) action_items risks_).

(** [{ ...i, requires_action: Boolean (i.requires_action) }] *)
Definition dash_insight (i : InsightRow) : InsightRow :=
  mkInsightRow (pi_id i) (pi_project_id i) (pi_insight_type i) (pi_title i)
    (pi_description i) (pi_source_meeting_id i)
    (Some (JBool (truthy_value (pi_requires_action i))))
    (pi_confidence_score i) (pi_extracted_at i).

Definition select_project_dashboard (projectId : string) (w : World) : list DashboardRow :=
  filter (λ r, pd_id r = projectId) (project_dashboard w).

Definition select_project_insights (projectId : string) (w : World) : list InsightRow :=
  take 10 (order_by_desc pi_extracted_at
             (filter (λ r, pi_project_id r = projectId) (project_insights w))).

(** [WHERE project_id = ? AND date > date ('now', '-30 days') ORDER BY date
    DESC LIMIT 5] *)
Definition is_recent (projectId : string) (w : World) (m : MeetingRow) : Prop :=
  mr_project_id m = Some projectId ∧ SQL.above (mr_date m) (SQL.date (db_time w) 30) = true.

#[export] Instance is_recent_dec projectId w m : Decision (is_recent projectId w m).
Proof. unfold is_recent. apply _. Defined.

Definition select_recent_meetings (projectId : string) (w : World) : list MeetingRow :=
  take 5 (merge_sort (text_desc date_text) (filter (is_recent projectId w) (meetings w))).

Definition select_task_stats (projectId : string) (w : World) : list TaskStat :=
  group_by_status (filter (λ t, t_project_id t = projectId) (tasks w)).

(** [id] is [url.searchParams.get ('id')]: the parameter, or null. *)
Definition handleProjectDashboard (id : option string) : M Response :=
  match id with
  | None | Some EmptyString =>
      mret (mkResponse 400 (BodyError "Project ID required"))
  | Some projectId =>
      projectData ← db_all (SelectProjectDashboard projectId)
                      (select_project_dashboard projectId);
      match projectData with
      | [] => mret (mkResponse 404 (BodyError "Project not found"))
      | project_ :: _ =>
          insights_ ← db_all (SelectProjectInsights projectId)
                        (select_project_insights projectId);
          recent ← db_all (SelectRecentMeetings projectId)
                     (select_recent_meetings projectId);
          taskStats ← db_all (SelectTaskStats projectId)
                        (select_task_stats projectId);
          recent_view ← map_M dash_meeting recent;
          executive ← generateExecutiveSummary project_ insights_ recent;
          mret (mkResponse 200
                  (BodyDashboard
                     (mkDashboard project_ (dash_insight <$> insights_) recent_view
                        taskStats executive)))
      end
  end.
End Worker.

(** * Vocabulary of the properties, and sample inputs *)

(** ** The extraction *)

(** The degraded result of the extractor, as an [Insight]. *)
Definition fallback_insight (transcript : Transcript) : Insight :=
  mkInsight ("Meeting: " +:+ tr_title transcript) "project" [] [] [] [] false.

(** What [generateBusinessInsights] hands to the pipeline, read off the
    reply of the model. *)
Definition extracted (env : Env) (transcript : Transcript) : JValue :=
  match ai_run env (insights_prompt transcript) with
  | AiResponse (Json parsed) => parsed
  | _ => fallback_insights transcript
  end.

(** The property [key] of a value: [undefined] when there is none. *)
Definition value_of (key : string) (v : JValue) : Value :=
  match member key v with
  | inr x => x
  | inl _ => None
  end.

Definition succeeds {A} (r : Exn + A) : bool :=
  match r with
  | inr _ => true
  | inl _ => false
  end.

Definition is_null (v : JValue) : bool :=
  match v with
  | JNull => true
  | _ => false
  end.

(** The JSON text of an [Insight], as the prompt asks for it. *)
Definition risk_json (r : Risk) : JValue :=
  JObject [("title", JString (risk_title r)); ("severity", JString (severity r))].

Definition sub_insight_json (i : SubInsight) : JValue :=
  JObject [
    ("type", JString (si_type i));
    ("title", JString (si_title i));
    ("description", JString (si_description i));
    ("requiresAction", JBool (requiresAction i));
    ("confidence", JNumber (confidence i)) ].

Definition insight_json (i : Insight) : JValue :=
  JObject [
    ("summary", JString (summary i));
    ("meetingType", JString (meetingType i));
    ("actionItems", JArray (JString <$> actionItems i));
    ("decisions", JArray (JString <$> decisions i));
    ("risks", JArray (risk_json <$> risks i));
    ("insights", JArray (sub_insight_json <$> insights i));
    ("followUpRequired", JBool (followUpRequired i)) ].

(** ** The transcript section *)

(** The whole seconds of an offset, and the minutes and seconds they make. *)
Definition whole_seconds (offset : Q) : Z := Qfloor offset.

(** A number below 100 written with two digits. *)
Definition two_digits (n : Z) : string :=
  if n <? 10 then "0" +:+ pretty n else pretty n.

(** The stamp of a sentence at an offset into the meeting, in seconds:
    none for a sentence without an offset and for one at the offset 0; for
    any other offset [[M:SS]], with [M = Math.floor (offset / 60)] and
    [SS = Math.floor (offset % 60)] filled with ["0"] to two characters. For
    an offset above zero, [SS] is the seconds of the whole seconds of the
    offset, on exactly two digits; for a whole number [n] of seconds, [M] is
    [n div 60] and [SS] is [n mod 60]. *)
Definition stamp_shown (env : Env) (offset_ : option Q) (stamp : string) : Prop :=
  match offset_ with
  | None => stamp = ""
  | Some offset =>
      (offset == 0 → stamp = "")%Q ∧
      (¬ (offset == 0)%Q →
       stamp =
         "[" +:+ integer_to_string env (JS.floor (JS.div offset 60)) +:+ ":" +:+
         JS.padStart 2 "0" (integer_to_string env (JS.floor (JS.rem offset 60))) +:+
         "]") ∧
      ((0 < offset)%Q →
       JS.padStart 2 "0" (integer_to_string env (JS.floor (JS.rem offset 60))) =
         two_digits (whole_seconds offset `mod` 60) ∧
       String.length (two_digits (whole_seconds offset `mod` 60)) = 2%nat) ∧
      (∀ n : Z, (offset == inject_Z n)%Q → 0 < n < 2 ^ 53 →
         stamp = "[" +:+ pretty (n `div` 60) +:+ ":" +:+ two_digits (n `mod` 60) +:+ "]")
  end.

(** The offset modulo 60, as a number, before any rounding. *)
Definition offset_modulo_60 (offset : Q) : Q :=
  (offset - 60 * inject_Z (Qfloor (offset / 60)))%Q.

(** ** Sample inputs *)

(** Whole numbers grouped by thousands, as [toLocaleString] writes them in
    the [en-US] locale. *)
Fixpoint thousands (fuel : nat) (n : Z) : string :=
  match fuel with
  | O => pretty n
  | S k =>
      if n <? 1000 then pretty n
      else thousands k (n `div` 1000) +:+ "," +:+ JS.pad 3 (n `mod` 1000)
  end.

Definition grouped (n : Z) : string :=
  if n <? 0 then "-" +:+ thousands 32 (- n) else thousands 32 n.

(** The date of an instant as [en-US] writes it in the UTC time zone, for
    the instants of our era. *)
Definition en_US_date (ms : Z) : string :=
  let '(y, m, d) := JS.civil_from_days (ms `div` JS.ms_per_day) in
  pretty m +:+ "/" +:+ pretty d +:+ "/" +:+ pretty y.

(** A string of digits stands for a number above zero when one of them is
    not 0. *)
Fixpoint some_digit_above_zero (s : string) : bool :=
  match s with
  | EmptyString => false
  | String c r => negb (Ascii.eqb c "0") || some_digit_above_zero r
  end.

Fixpoint all_digits (s : string) : bool :=
  match s with
  | EmptyString => true
  | String c r => ((48 <=? nat_of_ascii c) && (nat_of_ascii c <=? 57))%nat && all_digits r
  end.

(** The runtime of the samples: the [en-US] formats of whole numbers and of
    dates, the letters of ASCII, and the numbers written with digits only. The
    samples have no other numbers and strings for it. *)
Definition sample_runtime : Runtime :=
  mkRuntime
    (λ instant, en_US_date (Qfloor instant))
    (λ x, grouped (Qfloor x))
    (λ x, pretty (Qfloor x))
    (JS.map_string JS.upper_ascii)
    (JS.map_string JS.lower_ascii)
    (λ s, all_digits s && some_digit_above_zero s).

(** Two rows of [meetings] are in conflict when they have the same id. *)
Definition same_id (new old : MeetingRow) : bool :=
  bool_decide (mr_id old = mr_id new).

(** An environment in which no storage call throws. *)
Definition calm (source : FetchOutcome) (model : string → AiOutcome)
    (time : nat → Z) : Env :=
  mkEnv source model time (λ _ _, None) (λ _ _ _, None) None [] sample_runtime same_id.

(** A clock that gains a millisecond at each reading, and one that stands
    still within the millisecond. *)
Definition ticking (n : nat) : Z := 1700000000000 + Z.of_nat n.
Definition standing (n : nat) : Z := 1700000000000.

Definition empty_world : World := mkWorld [] [] [] [] [] ∅ 0.

(** The model is down; the transcript source is unreachable, or replies
    without a transcript list. *)
Definition model_down (source : FetchOutcome) : Env :=
  calm source (λ _, AiThrows (Error "model unavailable")) ticking.

Definition source_unreachable : Env := model_down (FetchThrows (Error "fetch failed")).
Definition no_transcript_list : Env := model_down (FetchJson None).

Definition weekly_sync : Transcript :=
  mkTranscript "t1" "Goodwill Weekly Sync" 1700000000000 1830
    (Some [mkAttendee (Some "Ann") None; mkAttendee (Some "Bob") None]) ""
    (Some [mkSentence "Welcome everyone." "Ann" (Some 0%Q);
           mkSentence "The permit is late." "Bob" (Some 75%Q)]).

(** A reply of the model that is JSON but not an [Insight]. *)
Definition partial_reply : JValue :=
  JObject [("summary", JString "Budget review")].

Definition two_risks : Insight :=
  mkInsight "Permit delay discussed." "project" ["Call the city"] ["Wait one week"]
    [mkRisk "Permit delay" "high"]
    [mkSubInsight "risk" "Permit delay" "The permit is two weeks late." true (8 # 10);
     mkSubInsight "blocker" "No crane" "The crane is booked elsewhere." true (6 # 10)]
    true.

(** ** Worlds *)

(** The world after one more reading of the clock. *)
Definition tick (w : World) : World :=
  mkWorld (meetings w) (project_insights w) (projects w) (project_dashboard w)
    (tasks w) (bucket w) (S (reads w)).

(** The meeting rows of a transcript id. *)
Definition rows_of (id : string) (w : World) : list MeetingRow :=
  filter (λ r, mr_id r = id) (meetings w).

Definition has_meeting (id : string) (w : World) : Prop :=
  ∃ row, row ∈ meetings w ∧ mr_id row = id.

(** The project id [associateTranscriptWithProject] returns when its query
    does not throw. *)
Definition selected_project (title : string) (w : World) : option string :=
  match select_project title w with
  | r :: _ => Some (p_id r)
  | [] => None
  end.

(** The row of a meeting that a run is to leave: the id, title, date and
    participants of the transcript, its duration in minutes, the project it
    was associated with, the fields derived from the extraction (the lists as
    JSON texts) and the time of the insertion. *)
Definition expected_meeting (transcript : Transcript) (businessInsights : JValue)
    (projectId : option string) (created_at : string) : MeetingRow :=
  mkMeetingRow
    (tr_id transcript)
    (tr_title transcript)
    (Some (JNumber (tr_date transcript)))
    (JS.round (JS.div (tr_duration transcript) 60))
    (Json (JArray (match meeting_attendees transcript with
                   | Some l => (λ a, from_option JString JNull (displayName a)) <$> l
                   | None => []
                   end)))
    (tr_id transcript)
    (value_of "summary" businessInsights)
    projectId
    (value_of "meetingType" businessInsights)
    (Json <$> value_of "actionItems" businessInsights)
    (Json <$> value_of "decisions" businessInsights)
    (Json <$> value_of "risks" businessInsights)
    (value_of "followUpRequired" businessInsights)
    created_at.

(** The insights that the loop of the sync goes through. *)
Definition looped_items (env : Env) (businessInsights : JValue) : list JValue :=
  match looped env businessInsights with
  | inr items => items
  | inl _ => []
  end.

(** The rows that the loop over [businessInsights.insights] inserts when it
    starts at the [n]-th reading of the clock and no insert throws: each
    with the id built from the transcript id and the clock, the project id,
    the fields of the insight and the transcript id as source. *)
Fixpoint inserted_rows (env : Env) (transcript_id projectId : string) (n : nat)
    (l : list JValue) : list InsightRow :=
  match l with
  | [] => []
  | insight :: rest =>
      mkInsightRow
        ("insight_" +:+ transcript_id +:+ "_" +:+ pretty (clock env n))
        projectId
        (value_of "type" insight) (value_of "title" insight)
        (value_of "description" insight)
        transcript_id
        (value_of "requiresAction" insight) (value_of "confidence" insight)
        (clock env (S n))
      :: inserted_rows env transcript_id projectId (S n) rest
  end.

(** The rows a run of the callback appends to [project_insights] when none
    of its inserts throws: none without a project id. *)
Definition appended_rows (env : Env) (transcript : Transcript)
    (projectId : option string) (businessInsights : JValue) (n : nat) : list InsightRow :=
  match projectId with
  | Some pid =>
      if truthy projectId
      then inserted_rows env (tr_id transcript) pid n (looped_items env businessInsights)
      else []
  | None => []
  end.

(** The first lines of the document of a meeting: its title and the project
    it was associated with. *)
Definition front_matter_start (transcript : Transcript) (projectId : option string)
    : string :=
  "---" +:+ JS.nl +:+
  "  title: " +:+ tr_title transcript +:+ JS.nl +:+
  "  project_id: " +:+ or_default projectId "unknown" +:+ JS.nl.

(** The document of a transcript, rendered at the [n]-th reading of the
    clock, when it can be rendered. *)
Definition document (env : Env) (transcript : Transcript) (businessInsights : JValue)
    (projectId : option string) (n : nat) : option R2Object :=
  match markdown_head env transcript businessInsights projectId with
  | inr head =>
      Some (mkR2Object
              (JS.join JS.nl (head ++ generated_line (clock env n) :: markdown_foot))
              "text/markdown")
  | inl _ => None
  end.

(** The document of a meeting whose extraction is an [Insight], rendered at
    the instant [now]: the front matter (title, project id or "unknown",
    meeting type, date, duration in minutes, the numbers of insights, action
    items and risks), then the body with the summary, the numbered action
    items and decisions, the risk flags with their severity in upper case,
    the transcript section and the instant of the rendering. *)
Definition numbered (items : list string) : list string :=
  imap (λ i item, pretty (S i) +:+ ". " +:+ item) items.

Definition risk_flag (env : Env) (r : Risk) : string :=
  "- **" +:+ toUpperCase env (severity r) +:+ ":** " +:+ risk_title r.

Definition count_text (env : Env) {A} (l : list A) : string :=
  integer_to_string env (Z.of_nat (length l)).

Definition insight_document (env : Env) (transcript : Transcript) (i : Insight)
    (projectId : option string) (now : Z) : string :=
  JS.join JS.nl [
    "---";
    "  title: " +:+ tr_title transcript;
    "  project_id: " +:+ or_default projectId "unknown";
    "  meeting_type: " +:+ meetingType i;
    "  date: " +:+ number_to_string env (tr_date transcript);
    "  duration: " +:+
      integer_to_string env (JS.round (JS.div (tr_duration transcript) 60)) +:+ " minutes";
    "  insights_generated: " +:+ count_text env (insights i);
    "  action_items: " +:+ count_text env (actionItems i);
    "  risks_identified: " +:+ count_text env (risks i);
    "  ---";
    "  ";
    "  # " +:+ tr_title transcript;
    "  ";
    "  **Project:** " +:+ or_default projectId "Not Associated";
    "  **Date:** " +:+ toLocaleDateString (runtime env) (tr_date transcript);
    "  **Type:** " +:+ meetingType i;
    "  **AI Summary:** " +:+ summary i;
    "  ";
    "  ## Business Intelligence";
    "  ";
    "  ### Action Items";
    "  " +:+ JS.join JS.nl (numbered (actionItems i));
    "  ";
    "  ### Key Decisions";
    "  " +:+ JS.join JS.nl (numbered (decisions i));
    "  ";
    "  ### Risk Flags";
    "  " +:+ JS.join JS.nl (risk_flag env <$> risks i);
    "  ";
    "  ## Meeting Transcript";
    "  ";
    "  " +:+ transcript_section env transcript;
    "  ";
    "  ---";
    "  **Generated:** " +:+ JS.toISOString now;
    "  **Source:** Fireflies.ai Enhanced with Business Intelligence";
    "  " ].

(** ** Worlds in their order *)

(** [w'] comes after [w] in a run of the pipeline: the tables the pipeline
    only reads are the same, [project_insights] has only grown at its end,
    no meeting id and no document has disappeared. *)
Record later (w w' : World) : Prop := mkLater {
  later_projects : projects w' = projects w;
  later_dashboard : project_dashboard w' = project_dashboard w;
  later_tasks : tasks w' = tasks w;
  later_insights : ∃ rows, project_insights w' = project_insights w ++ rows;
  later_meetings : ∀ id, has_meeting id w → has_meeting id w';
  later_bucket : ∀ key, is_Some (bucket w !! key) → is_Some (bucket w' !! key);
  later_reads : (reads w ≤ reads w')%nat }.

(** The [meetings] table is keyed by the transcript id, as the
    specification of the worker has it ("replace-on-conflict keyed by
    transcript id"): two rows are in conflict exactly when they have the same
    id. *)
Definition keyed_by_id (env : Env) : Prop :=
  ∀ new old, meetings_conflict env new old = true ↔ mr_id old = mr_id new.

(** Nothing has happened to the meeting [id] between [w] and [w']: its rows
    and its document are the same. *)
Definition untouched (id : string) (w w' : World) : Prop :=
  rows_of id w' = rows_of id w ∧
  bucket w' !! document_key id = bucket w !! document_key id.

(** [w'] comes after [w], and between the two nothing has happened to the
    meetings whose id is in [ids]. *)
Definition kept (ids : string → Prop) (w w' : World) : Prop :=
  later w w' ∧ ∀ id, ids id → untouched id w w'.

(** What the callbacks of the other transcripts of a batch may do to
    the world: anything that leaves the meeting of this transcript alone. *)
Definition own (transcript : Transcript) : relation World :=
  kept (λ id, id = tr_id transcript).

Section Interference.
(** What may happen to the world between two steps of a task, and in one
    step of another. *)
Context (R : relation World).

(** Every world a computation ends in is in [R] with the one it started in. *)
Definition monotone {A} (c : M A) : Prop := ∀ w, R w (snd (c w)).

(** Every piece of the task keeps within [R], and the task returns only
    values that are [ok]. *)
Fixpoint steady {A} (ok : A → Prop) (t : Task A) : Prop :=
  match t with
  | Return a => ok a
  | Await call next => monotone call ∧ ∀ x, steady ok (next x)
  end.

Definition steady_promise {A} (ok : A → Prop) (p : Promise A) : Prop :=
  match p with
  | Pending t => steady ok t
  | Done (Fulfilled a) => ok a
  | Done (Rejected _) => True
  end.

Definition all_steady {T A} (ok : T → A → Prop) (ts : list T) (ps : list (Promise A))
    : Prop :=
  Forall2 (λ t p, steady_promise (ok t) p) ts ps.

(** Every promise but the [j]-th keeps within [R]. *)
Definition others_steady {A} (j : nat) (ps : list (Promise A)) : Prop :=
  ∀ i p, i ≠ j → ps !! i = Some p → steady_promise (λ _, True) p.

(** A fact about the world that stays true along [R]. *)
Definition stable (P : World → Prop) : Prop := ∀ w w', P w → R w w' → P w'.

(** What a settled promise has come to: fulfilled with some [a] in a world
    where [Q a] holds; rejected only where that is allowed ([must] is off). *)
Definition settles {A} (must : bool) (Q : A → World → Prop) (r : Settled A) (w : World)
    : Prop :=
  match r with
  | Fulfilled a => Q a w
  | Rejected _ => must = false
  end.

(** From any world in [P], and whatever happens between its awaits as long
    as it is within [R], the task returns only in a world where [Q] holds of
    what it returns; with [must], none of its calls throws, so that it does
    get through all its awaits. *)
Fixpoint reaches {A} (must : bool) (Q : A → World → Prop) (t : Task A)
    (P : World → Prop) : Prop :=
  match t with
  | Return a => ∀ w, P w → Q a w
  | @Await _ X call next =>
      ∃ P' : X → World → Prop,
        (∀ w, P w → match call w with
                    | (inr x, w') => P' x w'
                    | (inl _, _) => must = false
                    end) ∧
        (∀ x, stable (P' x)) ∧
        (∀ x, reaches must Q (next x) (P' x))
  end.

Definition reaching {A} (must : bool) (Q : A → World → Prop) (p : Promise A)
    (w : World) : Prop :=
  match p with
  | Pending t => ∃ P, stable P ∧ P w ∧ reaches must Q t P
  | Done r => settles must Q r w
  end.
End Interference.

(** ** The outcome of a transcript *)

(** The meeting of the transcript is recorded: the [meetings] table holds
    one row of its id, the row of this transcript, of its extraction and of
    the project that the store [w0] has for its title. *)
Definition recorded (env : Env) (transcript : Transcript) (w0 w : World) : Prop :=
  ∃ n, rows_of (tr_id transcript) w =
         [expected_meeting transcript (extracted env transcript)
            (selected_project (tr_title transcript) w0) (JS.toISOString (clock env n))].

(** The document of the transcript is published: the bucket holds, under
    the key of the meeting and as markdown, the document rendered from this
    transcript, its extraction and its project, which starts with the title
    and the project id; for an extraction that is an [Insight] it is the
    [insight_document]. *)
Definition published (env : Env) (transcript : Transcript) (w0 w : World) : Prop :=
  ∃ n doc rest,
    document env transcript (extracted env transcript)
      (selected_project (tr_title transcript) w0) n = Some doc ∧
    bucket w !! document_key (tr_id transcript) = Some doc ∧
    contentType doc = "text/markdown" ∧
    content doc =
      front_matter_start transcript (selected_project (tr_title transcript) w0) +:+ rest ∧
    ∀ i, as_insight (extracted env transcript) = Some i →
         content doc =
           insight_document env transcript i (selected_project (tr_title transcript) w0)
             (clock env n).

(** The callback of the transcript has returned its id, the meeting is
    recorded and its document published. *)
Definition synced (env : Env) (transcript : Transcript) (w0 : World) (id : string)
    (w : World) : Prop :=
  id = tr_id transcript ∧ recorded env transcript w0 w ∧ published env transcript w0 w.

(** The entry of a transcript in the result of the batch. *)
Definition entry_of (transcript : Transcript) (r : Settled string) : Prop :=
  r = Fulfilled (tr_id transcript) ∨ ∃ e, r = Rejected e.

(** None of the reads that the callback makes of the extraction throws: the
    extraction is not null; with a project, what the loop goes through can be
    iterated and holds no null; and the document can be rendered. *)
Definition reads_fine (env : Env) (transcript : Transcript) (projectId : option string)
    (businessInsights : JValue) : bool :=
  succeeds (meeting_row transcript businessInsights projectId) &&
  (if truthy projectId
   then match looped env businessInsights with
        | inr items => forallb (λ item, negb (is_null item)) items
        | inl _ => false
        end
   else true) &&
  succeeds (markdown_head env transcript businessInsights projectId).

(** No storage call about the transcript throws, in any world, and the
    callback can read what the extractor returns for it. *)
Record reliable (env : Env) (transcript : Transcript) : Prop := mkReliable {
  reliable_select : ∀ w,
    db_fault env w (SelectProjectForTitle (tr_title transcript)) = None;
  reliable_meeting : ∀ w row,
    mr_id row = tr_id transcript →
    db_fault env w (InsertOrReplaceMeeting row) = None;
  reliable_insight : ∀ w id pid ty t d r c,
    db_fault env w (InsertProjectInsight id pid ty t d (tr_id transcript) r c) = None;
  reliable_put : ∀ w body,
    r2_fault env w (document_key (tr_id transcript)) body = None;
  reliable_reads : ∀ projectId,
    reads_fine env transcript projectId (extracted env transcript) = true }.

Definition settle {A} (r : Exn + A) : Settled A :=
  match r with
  | inr a => Fulfilled a
  | inl e => Rejected e
  end.

Definition count_fulfilled {A} (rs : list (Settled A)) : nat :=
  length (filter (λ r, is_fulfilled r = true) rs).

(** The response carries the [{count, message}] success body. *)
Definition is_success (r : Exn + Response) : bool :=
  match r with
  | inr (mkResponse _ (BodySync _ _ _)) => true
  | _ => false
  end.

Definition sync_message (n : nat) : string :=
  "Successfully synced " +:+ pretty n +:+ " meetings with business intelligence".

(** The transcript list of the reply of the source, empty when there is
    none. *)
Definition fetched (env : Env) : list Transcript :=
  match fireflies env with
  | FetchJson (Some ts) => ts
  | _ => []
  end.

(** ** Sample stores and batches *)

Definition goodwill : Project := mkProject "p-goodwill" "Goodwill" None 1699000000000.

Definition goodwill_world : World := mkWorld [] [] [goodwill] [] [] ∅ 0.

(** The sync of one meeting whose extraction has two insights, run twice. *)
Definition eager (time : nat → Z) : Env :=
  calm (FetchJson (Some [weekly_sync]))
    (λ _, AiResponse (Json (insight_json two_risks))) time.

Definition once : World :=
  snd (to_end (syncTranscript (eager ticking) weekly_sync) goodwill_world).
Definition twice : World :=
  snd (to_end (syncTranscript (eager ticking) weekly_sync) once).

(** A batch of two meetings in which every write of the first one throws. *)
Definition kickoff : Transcript :=
  mkTranscript "t0" "Kickoff" 1699990000000 600 None "" None.

Definition writes_of_kickoff_fail : Env :=
  mkEnv (FetchJson (Some [kickoff; weekly_sync]))
    (λ _, AiThrows (Error "model unavailable")) ticking
    (λ _ s, match s with
            | InsertOrReplaceMeeting row =>
                if bool_decide (mr_id row = "t0") then Some (Error "D1_ERROR") else None
            | _ => None
            end)
    (λ _ _ _, None) None [1; 0; 1; 0; 0; 1]%nat sample_runtime same_id.

(** The bucket is down, the database is not. *)
Definition bucket_down (time : nat → Z) : Env :=
  mkEnv (FetchJson (Some [weekly_sync]))
    (λ _, AiResponse (Json (insight_json two_risks))) time
    (λ _ _, None) (λ _ _ _, Some (Error "R2 unavailable")) None [] sample_runtime
    same_id.

(** A reply whose [followUpRequired] is a text and whose risk has a field
    more than the prompt asks for: JSON, but not an [Insight]. *)
Definition loose_reply : JValue :=
  JObject [
    ("summary", JString "Permit delay discussed.");
    ("meetingType", JString "project");
    ("actionItems", JArray [JString "Call the city"]);
    ("decisions", JArray []);
    ("risks", JArray [JObject [("title", JString "Permit delay");
                               ("severity", JString "high");
                               ("owner", JString "Bob")]]);
    ("insights", JArray []);
    ("followUpRequired", JString "yes") ].

(** A reply without the list of insights. *)
Definition no_insights_reply : JValue :=
  JObject [
    ("summary", JString "Permit delay discussed.");
    ("meetingType", JString "project");
    ("actionItems", JArray []);
    ("decisions", JArray []);
    ("risks", JArray []);
    ("followUpRequired", JBool true) ].

Definition replying (reply : JValue) : Env :=
  calm (FetchJson (Some [weekly_sync])) (λ _, AiResponse (Json reply)) ticking.

(** ** Project keywords *)

(** The characters of [prefix] are the first characters of [l], and those of
    [needle] stand somewhere in [l] one after the other. *)
Fixpoint starts_with (prefix l : list string) : bool :=
  match prefix, l with
  | [], _ => true
  | p :: r, c :: t => String.eqb p c && starts_with r t
  | _ :: _, [] => false
  end.

Fixpoint includes (needle l : list string) : bool :=
  starts_with needle l ||
  match l with
  | [] => false
  | _ :: t => includes needle t
  end.

(** Every byte of the string satisfies [P]. *)
Definition bytes (P : ascii → Prop) (s : string) : Prop :=
  Forall P (String.list_ascii_of_string s).

(** The title contains the keyword, the letters of ASCII in either case
    alike. *)
Definition title_contains (title keyword : string) : bool :=
  includes (JS.characters (SQL.lower keyword)) (JS.characters (SQL.lower title)).

(** The title contains the name of the project or its configured alias. *)
Definition names_project (title : string) (p : Project) : bool :=
  title_contains title (p_name p) ||
  match autorag_project_tag p with
  | Some tag => title_contains title tag
  | None => false
  end.

(** No [%] and no [_] in the keyword. *)
Fixpoint wildcard_free (s : string) : bool :=
  match s with
  | EmptyString => true
  | String c r => negb (Ascii.eqb c "%") && negb (Ascii.eqb c "_") && wildcard_free r
  end.

Definition keywords_wildcard_free (p : Project) : bool :=
  wildcard_free (p_name p) &&
  match autorag_project_tag p with
  | Some tag => wildcard_free tag
  | None => true
  end.

Definition phase_two : Project := mkProject "p-phase2" "Phase_2" None 1699000000000.

Definition phase_two_world : World := mkWorld [] [] [phase_two] [] [] ∅ 0.

(** A project whose name holds a wildcard next to a letter with an accent,
    which takes two bytes. *)
Definition cafes : Project := mkProject "cafe" "Caf_s" None 1699000000000.

Definition cafes_world : World := mkWorld [] [] [cafes] [] [] ∅ 0.

Definition e_acute : string :=
  String (ascii_of_nat 195) (String (ascii_of_nat 169) EmptyString).

Definition cafes_du_monde : string := "Caf" +:+ e_acute +:+ "s du monde".

(** ** The dashboard *)

(** A stored text that the dashboard can read: NULL, empty, or JSON. *)
Definition cell_parses (cell : option Text) : bool :=
  match cell with
  | Some (Plain (String _ _)) => false
  | _ => true
  end.

Definition parsed_cell (cell : option Text) : JValue :=
  match cell with
  | Some (Json v) => v
  | _ => JArray []
  end.

Definition dash_view (m : MeetingRow) : DashMeeting :=
  mkDashMeeting (mr_title m) (mr_date m) (mr_summary m)
    (mr_action_items_json m) (mr_ai_risk_flags m)
    (parsed_cell (mr_action_items_json m)) (parsed_cell (mr_ai_risk_flags m)).

(** An insight as the view shows it: the row, with [requires_action] as a
    boolean. *)
Definition insight_view (r : InsightRow) : InsightRow :=
  mkInsightRow (pi_id r) (pi_project_id r) (pi_insight_type r) (pi_title r)
    (pi_description r) (pi_source_meeting_id r)
    (Some (JBool (truthy_value (pi_requires_action r))))
    (pi_confidence_score r) (pi_extracted_at r).

(** None of the four reads of the dashboard throws. *)
Definition reads_succeed (env : Env) (id : string) (w : World) : Prop :=
  db_fault env w (SelectProjectDashboard id) = None ∧
  db_fault env w (SelectProjectInsights id) = None ∧
  db_fault env w (SelectRecentMeetings id) = None ∧
  db_fault env w (SelectTaskStats id) = None.

(** The meetings of the project that pass the date filter of the query:
    those whose stored [date] is a text above the day thirty days before the
    current one, written [YYYY-MM-DD]. *)
Definition passes_date_filter (env : Env) (w : World) (m : MeetingRow) : Prop :=
  ∃ day, mr_date m = Some (JString day) ∧
         String.ltb (SQL.date (db_time env w) 30) day = true.

(** The [n] first of the rows [all] that are [wanted], in the descending
    order [before]: rows of [all] that are wanted, no more often than they
    are in [all], in order, and ahead of every wanted row that is left out,
    of which there are none when fewer than [n] are listed. *)
Record top_rows {A} (n : nat) (wanted : A → Prop) (before : relation A)
    (all listed : list A) : Prop := mkTopRows {
  top_count : (length listed ≤ n)%nat;
  top_wanted : Forall wanted listed;
  top_rows_of : listed ⊆+ all;
  top_sorted : StronglySorted before listed;
  top_first : ∀ x, x ∈ all → wanted x → x ∈ listed ∨
                (length listed = n ∧ Forall (λ y, before y x) listed) }.

(** The executive summary of a project: the reply of the model to the
    prompt of the project or, when the model call throws, the fallback text,
    which needs the timeline status of the project. *)
Definition is_summary (env : Env) (p : DashboardRow) (insights_ : list InsightRow)
    (meetings_ : list MeetingRow) (s : Text) : Prop :=
  ∃ prompt,
    executive_summary_prompt env p insights_ meetings_ = inr prompt ∧
    (ai_run env prompt = AiResponse s ∨
     ∃ e timeline_status,
       ai_run env prompt = AiThrows e ∧
       pd_timeline_status p = Some timeline_status ∧
       s = Plain ("Project " +:+ pd_name p +:+ " is " +:+
                  toLowerCase env timeline_status +:+ " with " +:+
                  number_to_string env (pd_profit_margin_percent p) +:+
                  "% profit margin. " +:+ pretty (length insights_) +:+
                  " insights requiring attention.")).

(** The view of the project [id] over the world [w]: the row of the
    project; its ten insights extracted last, [requires_action] as a
    boolean; its five meetings with the greatest dates among those that
    pass the date filter, the stored lists parsed; and the summary. *)
Definition well_formed_view (env : Env) (id : string) (w : World) (d : Dashboard) : Prop :=
  ∃ insights_ meetings_,
    (project d ∈ project_dashboard w ∧ pd_id (project d) = id) ∧
    d_insights d = insight_view <$> insights_ ∧
    top_rows 10 (λ r, pi_project_id r = id) (desc pi_extracted_at)
      (project_insights w) insights_ ∧
    recentMeetings d = dash_view <$> meetings_ ∧
    top_rows 5 (λ m, mr_project_id m = Some id ∧ passes_date_filter env w m)
      (text_desc date_text) (meetings w) meetings_ ∧
    is_summary env (project d) insights_ meetings_ (executiveSummary d).

(** The stored texts of the meetings of the project that pass the date
    filter can be read. *)
Definition cells_parse (env : Env) (id : string) (w : World) : Prop :=
  ∀ m, m ∈ meetings w → mr_project_id m = Some id → passes_date_filter env w m →
       cell_parses (mr_action_items_json m) = true ∧
       cell_parses (mr_ai_risk_flags m) = true.

(** The summary of the project can be made: the titles of its insights can
    be written into the prompt, and the model replies or the project has a
    timeline status for the fallback text. *)
Definition summary_available (env : Env) (id : string) (w : World) : Prop :=
  (∀ r, r ∈ project_insights w → pi_project_id r = id →
        succeeds (text_of env (pi_title r)) = true) ∧
  ((∀ prompt, ∃ reply, ai_run env prompt = AiResponse reply) ∨
   (∀ p, p ∈ project_dashboard w → pd_id p = id → is_Some (pd_timeline_status p))).

Definition goodwill_row : DashboardRow :=
  mkDashboardRow "p-goodwill" "Goodwill" "active" (Some 250000%Q) 12 (Some "ON_TRACK").

Definition dashboard_world : World :=
  mkWorld [] [] [goodwill] [goodwill_row] [] ∅ 0.

(** A meeting that the sync has recorded for the project Goodwill a moment
    ago, and one that another writer has stored with its date as a text. *)
Definition synced_row : MeetingRow :=
  mkMeetingRow "t1" "Goodwill Weekly Sync" (Some (JNumber 1700000000000)) 31
    (Json (JArray [])) "t1" (Some (JString "Permit delay discussed."))
    (Some "p-goodwill") (Some (JString "project")) (Some (Json (JArray [])))
    (Some (Json (JArray []))) (Some (Json (JArray []))) (Some (JBool true))
    "2023-11-14T22:13:20.000Z".

Definition dated_row : MeetingRow :=
  mkMeetingRow "m7" "Goodwill Kickoff" (Some (JString "2023-11-10")) 45
    (Json (JArray [])) "m7" (Some (JString "Scope agreed."))
    (Some "p-goodwill") (Some (JString "project")) None None None (Some (JBool false))
    "2023-11-10T09:00:00.000Z".

Definition meetings_world : World :=
  mkWorld [synced_row; dated_row] [] [goodwill] [goodwill_row] [] ∅ 0.

(** A project without a timeline status. *)
Definition unscheduled_row : DashboardRow :=
  mkDashboardRow "p-new" "Newcomer" "active" None 0 None.

Definition unscheduled_world : World :=
  mkWorld [] [] [] [unscheduled_row] [] ∅ 0.

(** * Further code of [route.ts]: the chat routes of the Next.js application
    and the other endpoints of the worker *)

(** ** [formatSearchResults] of the chat route *)

(** [String.prototype.trim] strips the code points of WhiteSpace and
    LineTerminator from both ends. A string is its UTF-8 bytes here, so these
    code points are listed by their encodings: tab, line feed, vertical tab,
    form feed, carriage return, space, U+00A0, U+1680, U+2000 to U+200A,
    U+2028, U+2029, U+202F, U+205F, U+3000 and U+FEFF. *)
Definition white_space : list (list ascii) := (λ code : list nat, ascii_of_nat <$> code) <$> [
  [9]; [10]; [11]; [12]; [13]; [32];
  [194; 160];
  [225; 154; 128];
  [226; 128; 128]; [226; 128; 129]; [226; 128; 130]; [226; 128; 131];
  [226; 128; 132]; [226; 128; 133]; [226; 128; 134]; [226; 128; 135];
  [226; 128; 136]; [226; 128; 137]; [226; 128; 138];
  [226; 128; 168]; [226; 128; 169];
  [226; 128; 175];
  [226; 129; 159];
  [227; 128; 128];
  [239; 187; 191] ]%nat.

(** What is left of [s] after [prefix], when it starts with it. *)
Fixpoint after (prefix s : list ascii) : option (list ascii) :=
  match prefix, s with
  | [], _ => Some s
  | p :: prefix', c :: s' => if Ascii.eqb p c then after prefix' s' else None
  | _ :: _, [] => None
  end.

(** [s] without the first of the [codes] it starts with. *)
Definition strip_one (codes : list (list ascii)) (s : list ascii) : option (list ascii) :=
  foldr (λ code found, match after code s with Some rest => Some rest | None => found end)
    None codes.

Fixpoint strip_all (fuel : nat) (codes : list (list ascii)) (s : list ascii) : list ascii :=
  match fuel with
  | O => s
  | S n =>
      match strip_one codes s with
      | Some rest => strip_all n codes rest
      | None => s
      end
  end.

Definition trimStart (s : list ascii) : list ascii :=
  strip_all (length s) white_space s.

Definition trimEnd (s : list ascii) : list ascii :=
  reverse (strip_all (length s) (reverse <$> white_space) (reverse s)).

Definition trim (s : string) : string :=
  String.string_of_list_ascii (trimEnd (trimStart (String.list_ascii_of_string s))).

(** A search result, with the fields [formatSearchResults] reads. *)
Record SearchResult := mkSearchResult {
  sr_title : string;
  sr_summary : option string;
  sr_action_items : option (list string) }.

(** What one turn of the [forEach] appends to [response]. *)
Definition result_block (index : nat) (result : SearchResult) : string :=
  "**" +:+ pretty (index + 1)%nat +:+ ". " +:+ sr_title result +:+ "**" +:+ JS.nl +:+
  match sr_summary result with
  | Some (String c s) => String c s +:+ JS.nl
  | _ => ""
  end +:+
  match sr_action_items result with
  | Some (item :: items) =>
      "Key action items: " +:+ JS.join ", " (take 2 (item :: items)) +:+ JS.nl
  | _ => ""
  end +:+
  JS.nl.

Definition no_results : string :=
  "I couldn't find any relevant documents for your query. Try rephrasing or being more specific.".

Definition results_header (query : string) : string :=
  "Based on the documents I found, here's what I can tell you about " +:+ dq +:+ query +:+
  dq +:+ ":" +:+ JS.nl +:+ JS.nl.

(** [results] is the array, or null. *)
Definition formatSearchResults (results : option (list SearchResult)) (query : string)
    : string :=
  match results with
  | None | Some [] => no_results
  | Some results =>
      let topResults := take 3 results in
      let response := results_header query in
      trim (foldl String.append response (imap result_block topResults))
  end.

(** A result cut down to what [formatSearchResults] shows of it. *)
Definition shown (result : SearchResult) : SearchResult :=
  mkSearchResult (sr_title result) (sr_summary result) (take 2 <$> sr_action_items result).

(** The string ends with one of the code points that [trim] strips. *)
Definition ends_blank (s : string) : bool :=
  bool_decide (is_Some (strip_one (reverse <$> white_space)
                          (reverse (String.list_ascii_of_string s)))).

Definition starts_blank (s : string) : bool :=
  bool_decide (is_Some (strip_one white_space (String.list_ascii_of_string s))).

Definition three_results : list SearchResult := [
  mkSearchResult "Kickoff" (Some "Scope agreed. ") (Some ["Order steel"; "Book crane"; "Call city"]);
  mkSearchResult "Weekly" None (Some []);
  mkSearchResult "Review" (Some "") None;
  mkSearchResult "Handover" (Some "Done") None ].

(** ** Parsed values read without a type *)

(** [v.key] on a [v] that is not null, for a key that no array, string,
    number or boolean has ([result], [response], [matches], [message]): the
    field of an object, undefined otherwise. *)
Definition prop (key : string) (v : JValue) : option JValue :=
  match v with
  | JObject fs => field key fs
  | _ => None
  end.

(** [x?.key] *)
Definition optional_prop (key : string) (x : option JValue) : option JValue :=
  match x with
  | None | Some JNull => None
  | Some v => prop key v
  end.

(** [x || y] *)
Definition or_value (x y : option JValue) : option JValue :=
  match x with
  | Some v => if is_truthy v then x else y
  | None => y
  end.

(** [x || text], with a text that is not empty. *)
Definition or_text (x : option JValue) (text : string) : JValue :=
  match x with
  | Some v => if is_truthy v then v else JString text
  | None => JString text
  end.

(** [m.length === 0], for a truthy [m]. *)
Definition has_length_zero (m : JValue) : bool :=
  match m with
  | JArray items => match items with [] => true | _ => false end
  | JString s => String.eqb s ""
  | JObject fs =>
      match field "length" fs with
      | Some (JNumber q) => Qeq_bool q 0
      | _ => false
      end
  | _ => false
  end.

(** [x && x.length === 0] *)
Definition is_empty_list (x : option JValue) : bool :=
  match x with
  | Some m => is_truthy m && has_length_zero m
  | None => false
  end.

Definition apology : string :=
  "I apologize, but I could not generate a response at this time.".

(** ** Requests to AutoRAG *)

(** What [fetch] is called with: the URL, the [Authorization] header and
    the fields of the JSON body. [JSON.stringify] leaves out a [query] that is
    undefined. *)
Record Call := mkCall {
  call_url : string;
  call_authorization : string;
  call_query : option JValue;
  call_query_rewrite : bool;
  call_maximum_number_of_results : Z;
  call_match_threshold : Q }.

(** The reply to a [fetch]: its status, and what [text ()] and [json ()]
    make of its body. *)
Record HttpReply := mkHttpReply {
  http_status : Z;
  http_text : Exn + string;
  http_json : Exn + JValue }.

Inductive Fetched : Type :=
  | Unreachable (e : Exn)
  | Replied (r : HttpReply).

(** [response.ok] *)
Definition http_ok (r : HttpReply) : bool :=
  (200 <=? http_status r) && (http_status r <=? 299).

(** [`${x}`] for a string that may be undefined. *)
Definition interpolated (x : option string) : string :=
  match x with
  | Some s => s
  | None => "undefined"
  end.

Definition ai_search_url (account_id : option string) : string :=
  "https://api.cloudflare.com/client/v4/accounts/" +:+ interpolated account_id +:+
  "/autorag/rags/alleato-docs/ai-search".

Definition bearer (token : option string) : string :=
  "Bearer " +:+ interpolated token.

Definition ai_search (account_id token : option string) (query : option JValue)
    (match_threshold : Q) : Call :=
  mkCall (ai_search_url account_id) (bearer token) query true 10 match_threshold.

(** ** The chat route of the Next.js application *)

Module Next.

(** [process.env], as far as the route reads it. *)
Record ProcessEnv := mkProcessEnv {
  CLOUDFLARE_ACCOUNT_ID : option string;
  CLOUDFLARE_API_TOKEN : option string }.

(** [NextResponse.json ({ response }, { status })] *)
Record ChatReply := mkChatReply {
  chat_status : Z;
  chat_response : JValue }.

(** A route handler may throw and sends requests: the state is the list of
    the requests sent so far. *)
Definition N (A : Type) : Type := list Call → (Exn + A) * list Call.

#[export] Instance N_ret : MRet N := λ A a sent, (inr a, sent).
#[export] Instance N_bind : MBind N := λ A B f c sent,
  match c sent with
  | (inr a, sent') => f a sent'
  | (inl e, sent') => (inl e, sent')
  end.

Definition raise {A} (e : Exn) : N A := λ sent, (inl e, sent).

Definition attempt {A} (c : N A) (h : Exn → N A) : N A := λ sent,
  match c sent with
  | (inr a, sent') => (inr a, sent')
  | (inl e, sent') => h e sent'
  end.

Definition of_outcome {A} (r : Exn + A) : N A := λ sent, (r, sent).

Section Handler.
Context (outside : Call → Fetched).

(** [await fetch (..)] *)
Definition send (call : Call) : N HttpReply := λ sent,
  match outside call with
  | Unreachable e => (inl e, sent ++ [call])
  | Replied r => (inr r, sent ++ [call])
  end.

(** [const { message } = await request.json ()]: the field, undefined when
    the body is no object with it; a body that is no JSON, or null, throws. *)
Definition read_message (body : Text) : N (option JValue) :=
  data ← of_outcome (JSON_parse body);
  match data with
  | JNull => raise (TypeError "Cannot destructure property 'message' of null")
  | _ => mret (prop "message" data)
  end.

(** [data.result], which throws on null. *)
Definition result_of (data : JValue) : N (option JValue) :=
  match data with
  | JNull => raise (TypeError "Cannot read properties of null (reading 'result')")
  | _ => mret (prop "result" data)
  end.
End Handler.
End Next.

(** The first [POST] of [route.ts]. *)
Module ChatRoute1.
Import Next.

Definition fallback : string :=
  "I'm having trouble connecting to my knowledge base right now. Please check that your AutoRAG is properly configured and try again.".

(** What the reply of AutoRAG says, or the apology. *)
Definition spoken (data : JValue) : JValue :=
  or_text (optional_prop "response" (prop "result" data)) apology.

Section Handler.
Context (process_env : ProcessEnv) (outside : Call → Fetched).

(** The request for a [message]. *)
Definition request (message : option JValue) : Call :=
  ai_search (CLOUDFLARE_ACCOUNT_ID process_env) (CLOUDFLARE_API_TOKEN process_env)
    message (7 # 10).

(** [body] is the body of the request. *)
Definition POST (body : Text) : N ChatReply :=
  attempt
    (message ← read_message body;
     response ← send outside (request message);
     if negb (http_ok response)
     then raise (Error ("AutoRAG API error: " +:+ pretty (http_status response)))
     else
       data ← of_outcome (http_json response);
       result ← result_of data;
       let aiResponse := or_text (optional_prop "response" result) apology in
       mret (mkChatReply 200 aiResponse))
    (λ error, mret (mkChatReply 200 (JString fallback))).
End Handler.
End ChatRoute1.

(** The second [POST] of [route.ts], which checks its configuration. *)
Module ChatRoute2.
Import Next.

(** [!value || value === placeholder] *)
Definition unset (value : option string) (placeholder : string) : bool :=
  match value with
  | None | Some EmptyString => true
  | Some s => String.eqb s placeholder
  end.

Definition no_account (process_env : ProcessEnv) : bool :=
  unset (CLOUDFLARE_ACCOUNT_ID process_env) "your-account-id-here".
Definition no_token (process_env : ProcessEnv) : bool :=
  unset (CLOUDFLARE_API_TOKEN process_env) "your-api-token-here".

Definition configuration_error : string :=
  "Configuration error: Please set your CLOUDFLARE_ACCOUNT_ID and CLOUDFLARE_API_TOKEN in the .env.local file.".

Definition not_configured : string :=
  "The AutoRAG knowledge base is not configured yet. Please ensure AutoRAG is set up in your Cloudflare account with the index name " +:+
  dq +:+ "alleato-docs" +:+ dq +:+ ".".

Definition no_matches : string :=
  "I couldn't find any relevant documents for your query. This might be because:" +:+
  JS.nl +:+ JS.nl +:+
  "1. The knowledge base is empty - try syncing some meetings first" +:+ JS.nl +:+
  "2. Your query doesn't match any indexed content" +:+ JS.nl +:+
  "3. Try rephrasing your question or being more specific".

Definition trouble : string :=
  "I'm having trouble connecting to the AutoRAG knowledge base.".
Definition set_account : string :=
  " Please set your CLOUDFLARE_ACCOUNT_ID in the .env.local file.".
Definition set_token : string :=
  " Please set your CLOUDFLARE_API_TOKEN in the .env.local file.".
Definition ensure_index : string :=
  " Please ensure AutoRAG is configured in your Cloudflare account with the index " +:+
  dq +:+ "alleato-docs" +:+ dq +:+ ".".

(** What the reply of AutoRAG says, or the apology. *)
Definition spoken (data : JValue) : JValue :=
  let result := prop "result" data in
  if is_empty_list (optional_prop "matches" result)
  then JString no_matches
  else
    match or_value (optional_prop "response" result) (prop "response" data) with
    | Some v => if is_truthy v then v else JString apology
    | None => JString apology
    end.

Section Handler.
Context (process_env : ProcessEnv) (outside : Call → Fetched).

(** The request for a [message]. *)
Definition request (message : option JValue) : Call :=
  ai_search (CLOUDFLARE_ACCOUNT_ID process_env) (CLOUDFLARE_API_TOKEN process_env)
    message (1 # 2).

Definition POST (body : Text) : N ChatReply :=
  attempt
    (if no_account process_env || no_token process_env
     then mret (mkChatReply 200 (JString configuration_error))
     else
       message ← read_message body;
       response ← send outside (request message);
       if negb (http_ok response)
       then
         errorText ← of_outcome (http_text response);
         if bool_decide (http_status response = 404)
         then mret (mkChatReply 200 (JString not_configured))
         else raise (Error ("AutoRAG API error: " +:+ pretty (http_status response) +:+
                            " - " +:+ errorText))
       else
         data ← of_outcome (http_json response);
         result ← result_of data;
         let aiResponse :=
           or_text (or_value (optional_prop "response" result) (prop "response" data))
             apology in
         let aiResponse :=
           if is_empty_list (optional_prop "matches" result)
           then JString no_matches
           else aiResponse in
         mret (mkChatReply 200 aiResponse))
    (λ error,
       let errorMessage := trouble in
       let errorMessage :=
         if no_account process_env then errorMessage +:+ set_account
         else if no_token process_env then errorMessage +:+ set_token
         else errorMessage +:+ ensure_index in
       mret (mkChatReply 200 (JString errorMessage))).
End Handler.
End ChatRoute2.

(** What the routes make of the body of a request: the [message] they send
    on as the query, when the body is JSON and not null. *)
Definition message_of (body : Text) : option (option JValue) :=
  match body with
  | Json JNull | Plain _ => None
  | Json data => Some (prop "message" data)
  end.

(** The route has sent nothing, or the one request [call]. *)
Definition sent_at_most (call : option Call) (before after_ : list Call) : Prop :=
  match call with
  | Some c => after_ = before ++ [c]
  | None => after_ = before
  end.

(** Nothing is configured, and AutoRAG is not reachable. *)
Definition nothing_configured : Next.ProcessEnv := Next.mkProcessEnv None None.
Definition offline (call : Call) : Fetched := Unreachable (TypeError "fetch failed").

Definition hello : Text := Json (JObject [("message", JString "hello")]).

(** ** The other endpoints of the worker *)

(** *** The project a chat message names *)

(** [\w] *)
Definition is_word (c : ascii) : bool :=
  let n := nat_of_ascii c in
  ((48 <=? n) && (n <=? 57) || (65 <=? n) && (n <=? 90) || (n =? 95) ||
   (97 <=? n) && (n <=? 122))%nat.

(** [\b] between two characters; beyond either end of the string there is
    no word character. *)
Definition word_boundary (before after_ : option ascii) : bool :=
  xorb (from_option is_word false before) (from_option is_word false after_).

(** The alternatives of the regular expression
    [/\b(goodwill|bloomington|port collective|alleato)\b/g]. *)
Definition project_keywords : list string :=
  ["goodwill"; "bloomington"; "port collective"; "alleato"].

Definition first_char (s : string) : option ascii :=
  match s with
  | String c _ => Some c
  | EmptyString => None
  end.

Fixpoint last_char (s : string) : option ascii :=
  match s with
  | EmptyString => None
  | String c EmptyString => Some c
  | String _ rest => last_char rest
  end.

(** What is left of [s] after [prefix], when it starts with it. *)
Fixpoint rest_after (prefix s : string) : option string :=
  match prefix, s with
  | EmptyString, _ => Some s
  | String p prefix', String c s' => if Ascii.eqb p c then rest_after prefix' s' else None
  | String _ _, EmptyString => None
  end.

(** The alternative [keyword] matches at the start of [s], where [before]
    is the character before it. *)
Definition matches_here (before : option ascii) (s keyword : string) : bool :=
  word_boundary before (first_char s) &&
  match rest_after keyword s with
  | Some rest => word_boundary (last_char keyword) (first_char rest)
  | None => false
  end.

(** The first match: the leftmost position where an alternative matches,
    and there the first alternative that does. *)
Fixpoint first_match (before : option ascii) (s : string) : option string :=
  match list_find (λ keyword, matches_here before s keyword = true) project_keywords with
  | Some (_, keyword) => Some keyword
  | None =>
      match s with
      | EmptyString => None
      | String c rest => first_match (Some c) rest
      end
  end.

(** [message.toLowerCase ().match (/../g)], and of the matches the first. *)
Definition first_keyword (env : Env) (message : string) : option string :=
  first_match None (toLowerCase env message).

(** *** What the endpoints read *)

(** The row of [project_dashboard] as the chat reads it: the columns of
    [DashboardRow] and those its template names besides. *)
Record ContextRow := mkContextRow {
  cx_project : DashboardRow;
  cx_client_name : string;
  cx_recent_meetings : Z;
  cx_completed_tasks : Z;
  cx_total_tasks : Z;
  cx_actual_cost : option Q;
  cx_budget_health : string }.

(** A row of [SELECT title, description FROM project_insights ..]. *)
Record ContextInsight := mkContextInsight {
  ci_title : string;
  ci_description : string }.

(** [{ ...results[0], insights }] *)
Record ProjectContext := mkProjectContext {
  context_row : ContextRow;
  context_insights : list ContextInsight }.

(** What these endpoints do not control: the secrets of the worker, the
    replies of AutoRAG, and what D1 answers to their statements, which read
    columns and a view that the sync pipeline never writes. [d1_projects w
    sql params] is the answer to the statement that [handleProjectsList] builds,
    [d1_context w pattern] and [d1_context_insights w id] are the answers to
    the two statements of [extractProjectContext]. *)
Record Services := mkServices {
  account_id : string;
  api_token : string;
  autorag : Call → Fetched;
  d1_projects : World → string → list string → Exn + list DashboardRow;
  d1_context : World → string → Exn + list ContextRow;
  d1_context_insights : World → string → Exn + list ContextInsight }.

(** *** Requests and responses *)

(** A request: its method, the path and the search parameters of its URL,
    and its body. *)
Record Request := mkRequest {
  req_method : string;
  pathname : string;
  searchParams : string → option string;
  req_body : Text }.

(** [aiResponse], and what [+=] has put behind it. *)
Record Spoken := mkSpoken {
  said : JValue;
  appendix : option string }.

Record ContextSummary := mkContextSummary {
  projectName : string;
  cs_status : string;
  budgetHealth : string }.

Record ProjectsSummary := mkProjectsSummary {
  total_ : nat;
  onTrack : nat;
  atRisk : nat;
  overdue : nat;
  totalValue : option Q }.

(** The bodies of the responses: none, a text, a body of the sync or the
    dashboard endpoint, or the JSON text of one of the objects below. The
    [totalValue] of a summary is nothing when the sum is beyond the doubles:
    the JSON text then has null for it. *)
Inductive Payload : Type :=
  | NoBody
  | PlainText (s : string)
  | OfHandler (b : Body)
  | ChatAnswer (response : Spoken) (projectContext : option ContextSummary)
  | ChatFallback (response : string)
  | ProjectsList (projects : list DashboardRow) (summary : ProjectsSummary)
  | InternalError (error details : string).

Record Reply := mkReply {
  reply_status : Z;
  reply_body : Payload }.

Definition of_response (r : Response) : Reply :=
  mkReply (status r) (OfHandler (body r)).

Section Endpoints.
Context (env : Env) (services : Services).

(** [await db.prepare (..).bind (..).all ()] *)
Definition d1 {A} (answer : World → Exn + A) : M A := λ w, (answer w, w).

(** [extractProjectContext (message, db)]. [message] is what the
    destructuring of the body has given: a value, or undefined. *)
Definition extractProjectContext (message : option JValue) : M (option ProjectContext) :=
  match message with
  | Some (JString text_) =>
      match first_keyword env text_ with
      | Some keyword =>
          results ← d1 (λ w, d1_context services w ("%" +:+ keyword +:+ "%"));
          match results with
          | row :: _ =>
              insights_ ← d1 (λ w, d1_context_insights services w (pd_id (cx_project row)));
              mret (Some (mkProjectContext row insights_))
          | [] => mret None
          end
      | None => mret None
      end
  | Some JNull =>
      throw (TypeError "Cannot read properties of null (reading 'toLowerCase')")
  | None =>
      throw (TypeError "Cannot read properties of undefined (reading 'toLowerCase')")
  | Some _ => throw (TypeError "message.toLowerCase is not a function")
  end.

(** [value.toLocaleString ()] on a number that may be NULL. *)
Definition localized (value : option Q) : M string :=
  match value with
  | Some v => mret (toLocaleString (runtime env) v)
  | None => throw (TypeError "Cannot read properties of null (reading 'toLocaleString')")
  end.

(** The message with the context of the project before it. *)
Definition enhanced (projectContext : ProjectContext) (message : string) : M string :=
  let row := context_row projectContext in
  actual ← localized (cx_actual_cost row);
  estimated ← localized (pd_estimated_value (cx_project row));
  mret (JS.join JS.nl [
    "";
    "  Project Context: " +:+ pd_name (cx_project row) +:+ " (Status: " +:+
      pd_status (cx_project row) +:+ ", Client: " +:+ cx_client_name row +:+ ")";
    "  Recent Activity: " +:+ pretty (cx_recent_meetings row) +:+ " meetings, " +:+
      pretty (cx_completed_tasks row) +:+ "/" +:+ pretty (cx_total_tasks row) +:+
      " tasks completed";
    "  Budget Status: $" +:+ actual +:+ " spent of $" +:+ estimated +:+ " budget";
    "  ";
    "  User Question: " +:+ message;
    "  ";
    "  Please provide insights considering this project context and recent meeting data.";
    "        " ]).

(** The lines that the chat puts behind the answer for a project with
    insights. *)
Definition project_insights_note (insights_ : list ContextInsight) : string :=
  JS.nl +:+ JS.nl +:+ "**Project-Specific Insights:**" +:+ JS.nl +:+
  JS.join JS.nl ((λ i, "• " +:+ ci_title i) <$> insights_).

Definition chat_fallback : string :=
  "I'm having trouble accessing the knowledge base right now. Please try again.".

(** [const { message, context } = await request.json ()] *)
Definition read_body (body : Text) : M (option JValue) :=
  data ← lift (JSON_parse body);
  match data with
  | JNull => throw (TypeError "Cannot destructure property 'message' of null")
  | _ => mret (prop "message" data)
  end.

(** [await fetch (..)] *)
Definition call_autorag (call : Call) : M HttpReply :=
  match autorag services call with
  | Unreachable e => throw e
  | Replied r => mret r
  end.

(** [data.result], which throws on null. *)
Definition result_of (data : JValue) : M (option JValue) :=
  match data with
  | JNull => throw (TypeError "Cannot read properties of null (reading 'result')")
  | _ => mret (prop "result" data)
  end.

Definition handleEnhancedChat (request : Request) : M Reply :=
  if bool_decide (req_method request ≠ "POST")
  then mret (mkReply 405 (PlainText "Method not allowed"))
  else
    message ← read_body (req_body request);
    try_catch
      (projectContext ← extractProjectContext message;
       enhancedMessage ←
         match projectContext, message with
         | Some context, Some (JString text_) =>
             enhancedMessage ← enhanced context text_;
             mret (Some (JString enhancedMessage))
         | _, _ => mret message
         end;
       autoragResponse ← call_autorag
         (ai_search (Some (account_id services)) (Some (api_token services))
            enhancedMessage (7 # 10));
       if negb (http_ok autoragResponse)
       then throw (Error ("AutoRAG API error: " +:+ pretty (http_status autoragResponse)))
       else
         data ← lift (http_json autoragResponse);
         result ← result_of data;
         let aiResponse := or_text (optional_prop "response" result) apology in
         let note :=
           match projectContext with
           | Some context =>
               if bool_decide (0 < length (context_insights context))%nat
               then Some (project_insights_note (context_insights context))
               else None
           | None => None
           end in
         mret (mkReply 200
                 (ChatAnswer (mkSpoken aiResponse note)
                    ((λ context,
                        let row := context_row context in
                        mkContextSummary (pd_name (cx_project row))
                          (pd_status (cx_project row)) (cx_budget_health row))
                       <$> projectContext))))
      (λ error, mret (mkReply 200 (ChatFallback chat_fallback))).

(** *** The list of projects *)

(** The statement [handleProjectsList] builds and the values it binds.
    [status] and [clientId] are the search parameters, or null. *)
Definition projects_conditions (status_ clientId : option string) : list string :=
  (if truthy status_ then ["status = ?"] else []) ++
  (if truthy clientId then ["client_id = ?"] else []).

Definition projects_params (status_ clientId : option string) : list string :=
  (match status_ with Some s => if truthy status_ then [s] else [] | None => [] end) ++
  (match clientId with Some c => if truthy clientId then [c] else [] | None => [] end).

Definition projects_query (status_ clientId : option string) : string :=
  let query := "SELECT * FROM project_dashboard" in
  let conditions := projects_conditions status_ clientId in
  let query :=
    if bool_decide (0 < length conditions)%nat
    then query +:+ " WHERE " +:+ JS.join " AND " conditions
    else query in
  query +:+ " ORDER BY priority DESC, timeline_status ASC".

(** [results.filter (p => p.timeline_status === value).length] *)
Definition count_status (value : string) (results : list DashboardRow) : nat :=
  length (filter (λ p, pd_timeline_status p = Some value) results).

(** [p.estimated_value || 0] *)
Definition value_or_zero (p : DashboardRow) : Q := default 0%Q (pd_estimated_value p).

(** [results.reduce ((sum, p) => sum + (p.estimated_value || 0), 0)]: a sum
    of doubles, each step rounded, and lost once it is beyond them. *)
Definition total_value (results : list DashboardRow) : option Q :=
  foldl (λ sum p, sum ≫= λ so_far, JS.plus so_far (value_or_zero p)) (Some 0%Q) results.

Definition handleProjectsList (request : Request) : M Reply :=
  let status_ := searchParams request "status" in
  let clientId := searchParams request "client" in
  results ← d1 (λ w, d1_projects services w (projects_query status_ clientId)
                       (projects_params status_ clientId));
  mret (mkReply 200
          (ProjectsList results
             (mkProjectsSummary (length results)
                (count_status "ON_TRACK" results)
                (count_status "AT_RISK" results)
                (count_status "OVERDUE" results)
                (total_value results)))).

(** *** The router *)

(** The handlers that the router names and the file does not define: a
    call of one of them throws, or returns the promise of a response. *)
Context (handleDocuments handleProjectInsights handleFinancialDashboard handleTasks
         handleCreateProject : Request → Exn + M Reply).

(** Calling an async function of the file returns its promise. *)
Definition called (promise : M Reply) : Exn + M Reply := inr promise.

Definition answered (handler : M Response) : M Reply :=
  response ← handler;
  mret (of_response response).

(** [fetch (request, env, ctx)]. The [try] of the router is around the
    calls of the handlers, which it returns without awaiting them: it catches
    what a call throws, and the promise a call returns settles outside it. *)
Definition fetch (request : Request) : M Reply :=
  if bool_decide (req_method request = "OPTIONS")
  then mret (mkReply 200 NoBody)
  else
    match
      (if bool_decide (pathname request = "/api/chat")
       then called (handleEnhancedChat request)
       else if bool_decide (pathname request = "/api/sync-meetings")
       then called (answered (handleEnhancedMeetingSync env (req_method request)))
       else if bool_decide (pathname request = "/api/documents")
       then handleDocuments request
       else if bool_decide (pathname request = "/api/projects")
       then called (handleProjectsList request)
       else if bool_decide (pathname request = "/api/project-dashboard")
       then called (answered (handleProjectDashboard env (searchParams request "id")))
       else if bool_decide (pathname request = "/api/project-insights")
       then handleProjectInsights request
       else if bool_decide (pathname request = "/api/financial-dashboard")
       then handleFinancialDashboard request
       else if bool_decide (pathname request = "/api/tasks")
       then handleTasks request
       else if bool_decide (pathname request = "/api/create-project")
       then handleCreateProject request
       else called (mret (mkReply 404 (PlainText "Endpoint not found"))))
    with
    | inr promise => promise
    | inl error =>
        mret (mkReply 500 (InternalError "Internal server error" (message error)))
    end.
End Endpoints.

(** *** Vocabulary of the endpoints' properties *)

(** The last character before a match: of [pre], or [before] when [pre] is
    empty. *)
Definition last_before (before : option ascii) (pre : string) : option ascii :=
  match last_char pre with
  | Some c => Some c
  | None => before
  end.

(** [keyword] stands in [s] as a word of its own: no word character is next
    to it on either side. *)
Definition whole_word_from (before : option ascii) (keyword s : string) : Prop :=
  ∃ pre post,
    s = pre +:+ keyword +:+ post ∧
    from_option is_word false (last_before before pre) = false ∧
    from_option is_word false (first_char post) = false.

Definition whole_word (keyword s : string) : Prop := whole_word_from None keyword s.

(** The estimated values of the rows as whole numbers, none below zero: 0
    for a row without one. *)
Definition whole_values (rows : list DashboardRow) (values : list Z) : Prop :=
  Forall2 (λ p v, 0 ≤ v ∧
                  (pd_estimated_value p = Some (inject_Z v) ∨
                   (pd_estimated_value p = None ∧ v = 0))) rows values.

(** The number of [?] in the text of a statement. *)
Fixpoint placeholders (sql : string) : nat :=
  match sql with
  | EmptyString => 0
  | String c rest => ((if Ascii.eqb c "?" then 1 else 0) + placeholders rest)%nat
  end.

(** The paths whose handlers the file does not define. *)
Definition undefined_paths : list string :=
  ["/api/documents"; "/api/project-insights"; "/api/financial-dashboard"; "/api/tasks";
   "/api/create-project"].

(** What the chat makes of the reply of AutoRAG: the answer, with [note]
    behind it and the [summary] of the project beside it, or the fallback. *)
Definition answer_of (reply : Fetched) (note : option string)
    (summary_ : option ContextSummary) : Payload :=
  match reply with
  | Replied r =>
      if http_ok r
      then
        match http_json r with
        | inr JNull | inl _ => ChatFallback chat_fallback
        | inr data =>
            ChatAnswer
              (mkSpoken (or_text (optional_prop "response" (prop "result" data)) apology)
                 note)
              summary_
        end
      else ChatFallback chat_fallback
  | Unreachable _ => ChatFallback chat_fallback
  end.

(** *** Sample services and requests *)

Definition all_good : HttpReply :=
  mkHttpReply 200 (inr "")
    (inr (JObject [("result", JObject [("response", JString "All good.")])])).

Definition goodwill_context (actual_cost : option Q) : ContextRow :=
  mkContextRow goodwill_row "Goodwill Industries" 3 4 10 actual_cost "healthy".

(** AutoRAG answers "All good."; D1 knows the project Goodwill, with one
    insight that needs action. *)
Definition sample_services (actual_cost : option Q) : Services :=
  mkServices "acct" "tok" (λ _, Replied all_good)
    (λ w _ _, inr (project_dashboard w))
    (λ _ pattern,
       if String.eqb pattern "%goodwill%" then inr [goodwill_context actual_cost]
       else inr [])
    (λ _ _, inr [mkContextInsight "Permit delay" "The permit is late."]).

Definition chat_request (message : string) : Request :=
  mkRequest "POST" "/api/chat" (λ _, None) (Json (JObject [("message", JString message)])).

(** A request for the list of projects, and services whose database is
    out of order. *)
Definition projects_request (status_ clientId : option string) : Request :=
  mkRequest "GET" "/api/projects"
    (λ key, if String.eqb key "status" then status_
            else if String.eqb key "client" then clientId else None)
    (Plain "").

Definition dashboard_request (id : string) : Request :=
  mkRequest "GET" "/api/project-dashboard"
    (λ key, if String.eqb key "id" then Some id else None) (Plain "").

(** The handlers that the file does not define, taken to throw when they
    are called. *)
Definition not_defined (name : string) (request : Request) : Exn + M Reply :=
  inl (Error (name +:+ " is not defined")).

(** The database is out of order: every statement throws. *)
Definition database_down : Env :=
  mkEnv (FetchJson None) (λ _, AiThrows (Error "model unavailable")) ticking
    (λ _ _, Some (Error "D1_ERROR")) (λ _ _ _, None) None [] sample_runtime same_id.

Definition nowhere : Request := mkRequest "GET" "/api/nowhere" (λ _, None) (Plain "").

(** * Properties *)

(** ** Running computations *)

Lemma run_bind {A B} (c : M A) (f : A → M B) (w : World) :
  (c ≫= f) w =
  match c w with
  | (inr a, w') => f a w'
  | (inl e, w') => (inl e, w')
  end.
Proof. reflexivity. Qed.

Lemma run_ret {A} (a : A) (w : World) : (mret a : M A) w = (inr a, w).
Proof. reflexivity. Qed.

Lemma run_try_catch {A} (c : M A) (h : Exn → M A) (w : World) :
  try_catch c h w =
  match c w with
  | (inr a, w') => (inr a, w')
  | (inl e, w') => h e w'
  end.
Proof. reflexivity. Qed.

Lemma run_bind_inr {A B} (c : M A) (f : A → M B) (w w1 : World) (a : A) :
  c w = (inr a, w1) → (c ≫= f) w = f a w1.
Proof. intros H. by rewrite run_bind, H. Qed.

Lemma run_bind_inl {A B} (c : M A) (f : A → M B) (w w1 : World) (e : Exn) :
  c w = (inl e, w1) → (c ≫= f) w = (inl e, w1).
Proof. intros H. by rewrite run_bind, H. Qed.

(** A successful bind is a successful first step followed by a successful
    second one. *)
Lemma bind_inr {A B} (c : M A) (f : A → M B) (w w' : World) (b : B) :
  (c ≫= f) w = (inr b, w') →
  ∃ a w1, c w = (inr a, w1) ∧ f a w1 = (inr b, w').
Proof.
  rewrite run_bind. destruct (c w) as [[e|a] w1]; intros Heq.
  - discriminate.
  - by exists a, w1.
Qed.

Section Sync_response.
Context (env : Env).

Lemma fetch_transcripts_world (w : World) :
  snd (fetch_transcripts env w) = w.
Proof.
  unfold fetch_transcripts.
  destruct (fireflies env) as [e|[ts|]]; reflexivity.
Qed.

Lemma triggerAutoRAGSync_run (w : World) :
  triggerAutoRAGSync env w = (inr (), w).
Proof.
  unfold triggerAutoRAGSync. rewrite run_try_catch.
  destruct (autorag_fetch env); reflexivity.
Qed.

Lemma resume_at_length {A} (i : nat) (ps : list (Promise A)) (w : World) :
  length (fst (resume_at i ps w)) = length ps.
Proof.
  unfold resume_at. destruct (ps !! i) as [p|]; [|done].
  destruct (resume p w). simpl. apply length_insert.
Qed.

Lemma turns_length {A} (order : list nat) (ps : list (Promise A)) (w : World) :
  length (fst (turns order ps w)) = length ps.
Proof.
  revert ps w. induction order as [|i order IH]; intros ps w; [done|]. simpl.
  pose proof (resume_at_length i ps w) as Hlen.
  destruct (resume_at i ps w) as [ps' w']. simpl in Hlen.
  by rewrite IH.
Qed.

Lemma finish_length {A} (ps : list (Promise A)) (w : World) :
  length (fst (finish ps w)) = length ps.
Proof.
  revert w. induction ps as [|p ps IH]; intros w; [done|]. simpl.
  destruct (match p with Done _ => _ | Pending _ => _ end) as [outcome w'].
  specialize (IH w'). destruct (finish ps w'). simpl in *. by rewrite IH.
Qed.

(** [Promise.allSettled] never rejects, and settles every element. *)
Lemma allSettled_total {A B} (order : list nat) (f : A → Task B) (l : list A) (w : World) :
  ∃ rs w', allSettled order f l w = (inr rs, w') ∧ length rs = length l.
Proof.
  unfold allSettled.
  pose proof (turns_length order (promise_of ∘ f <$> l) w) as Hturns.
  destruct (turns order _ w) as [ps w1].
  pose proof (finish_length ps w1) as Hfinish.
  destruct (finish ps w1) as [rs w2]. simpl in *.
  exists rs, w2. split; [done|]. by rewrite Hfinish, Hturns, length_fmap.
Qed.

Lemma allSettled_nil {A B} (order : list nat) (f : A → Task B) (w : World) :
  allSettled order f [] w = (inr [], w).
Proof.
  unfold allSettled. simpl.
  assert (Hturns : turns order ([] : list (Promise B)) w = ([], w)).
  { induction order as [|i order IH]; [done|]. simpl. exact IH. }
  by rewrite Hturns.
Qed.
End Sync_response.

(** C5. Whatever the batch-level exception (the request to the transcript
    source throws, its body cannot be read, or it carries no transcript
    list), the sync endpoint catches it and answers with status 200 and
    [{error, details, count: 0}]; nothing has been written. *)
Theorem sync_batch_exception_is_caught (env : Env) (w : World) (e : Exn)
    (Hthrows : fst (fetch_transcripts env w) = inl e) :
  handleEnhancedMeetingSync env "POST" w =
  (inr (mkResponse 200 (BodySyncError "Failed to sync meetings" (message e) 0)), w).
Proof.
  unfold handleEnhancedMeetingSync.
  rewrite bool_decide_eq_false_2 by (intros H; by apply H).
  rewrite run_try_catch, run_bind.
  pose proof (fetch_transcripts_world env w) as Hw.
  destruct (fetch_transcripts env w) as [[e'|ts] w1]; simpl in *.
  - by simplify_eq.
  - discriminate.
Qed.

Lemma sync_batch_exception_is_caught_sample :
  handleEnhancedMeetingSync source_unreachable "POST" empty_world =
  (inr (mkResponse 200 (BodySyncError "Failed to sync meetings" "fetch failed" 0)),
   empty_world).
Proof.
  apply (sync_batch_exception_is_caught source_unreachable empty_world
           (Error "fetch failed")).
  reflexivity.
Defined.

(** The sync endpoint never throws, for any method and any environment. *)
Lemma handleEnhancedMeetingSync_never_throws (env : Env) (method : string) (w : World) :
  ∃ r w', handleEnhancedMeetingSync env method w = (inr r, w').
Proof.
  unfold handleEnhancedMeetingSync. case_bool_decide.
  - eexists _, _. reflexivity.
  - rewrite run_try_catch, run_bind.
    destruct (fetch_transcripts env w) as [[e|ts] w1].
    + eexists _, _. reflexivity.
    + rewrite run_bind.
      destruct (allSettled_total (schedule env) (syncTranscript env) ts w1)
        as (rs & w2 & -> & _).
      rewrite run_bind, triggerAutoRAGSync_run. eexists _, _. reflexivity.
Qed.

(** C6 (as the code has it). A reply without a transcript list is answered with
    status 200 and the error-shaped body, with count 0 and the details
    "No transcripts found"; it is not the success body. *)
Theorem no_transcript_list_response (env : Env) (w : World)
    (Hnone : fireflies env = FetchJson None) :
  handleEnhancedMeetingSync env "POST" w =
  (inr (mkResponse 200
          (BodySyncError "Failed to sync meetings" "No transcripts found" 0)), w).
Proof.
  unfold handleEnhancedMeetingSync.
  rewrite bool_decide_eq_false_2 by (intros H; by apply H).
  rewrite run_try_catch.
  rewrite (run_bind_inl _ _ w w (Error "No transcripts found")); [done|].
  unfold fetch_transcripts. by rewrite Hnone.
Qed.

Lemma no_transcript_list_response_sample :
  handleEnhancedMeetingSync no_transcript_list "POST" empty_world =
  (inr (mkResponse 200
          (BodySyncError "Failed to sync meetings" "No transcripts found" 0)),
   empty_world).
Proof. apply (no_transcript_list_response no_transcript_list empty_world). reflexivity. Defined.

(** C6, the counterexample: without a transcript list the response is the
    error body with its [error] and [details], not the success one. *)
Lemma no_transcript_list_is_not_a_success :
  fst (handleEnhancedMeetingSync no_transcript_list "POST" empty_world) =
    inr (mkResponse 200
           (BodySyncError "Failed to sync meetings" "No transcripts found" 0)) ∧
  is_success (fst (handleEnhancedMeetingSync no_transcript_list "POST" empty_world)) = false.
Proof. split; reflexivity. Qed.

(** An empty list, by contrast, is a successful empty batch. *)
Lemma empty_transcript_list_response (env : Env) (w : World)
    (Hempty : fireflies env = FetchJson (Some [])) :
  handleEnhancedMeetingSync env "POST" w =
  (inr (mkResponse 200
          (BodySync 0 "Successfully synced 0 meetings with business intelligence" 0)), w).
Proof.
  unfold handleEnhancedMeetingSync.
  rewrite bool_decide_eq_false_2 by (intros H; by apply H).
  rewrite run_try_catch.
  rewrite (run_bind_inr _ _ w w []) by (unfold fetch_transcripts; by rewrite Hempty).
  rewrite (run_bind_inr _ _ _ _ _ (allSettled_nil _ _ w)).
  by rewrite (run_bind_inr _ _ _ _ _ (triggerAutoRAGSync_run env w)).
Qed.

(** ** The insight extractor *)

Lemma fallback_is_an_insight (transcript : Transcript) :
  as_insight (fallback_insights transcript) = Some (fallback_insight transcript).
Proof. reflexivity. Qed.

(** C3 (as the code has it). The extractor never throws and leaves the world as it
    is. When the model call throws or its text is not JSON, the result is
    the fallback, which is a structurally valid [Insight] (the title as
    summary, type "project", nothing else, no follow-up). When the text is
    JSON, the result is the parsed value as it is. *)
Theorem generateBusinessInsights_result (env : Env) (transcript : Transcript) (w : World) :
  ∃ result,
    generateBusinessInsights env transcript w = (inr result, w) ∧
    match ai_run env (insights_prompt transcript) with
    | AiResponse (Json parsed) => result = parsed
    | AiResponse (Plain _) | AiThrows _ =>
        result = fallback_insights transcript ∧
        as_insight result = Some (fallback_insight transcript) ∧
        structurally_valid result = true
    end.
Proof.
  unfold generateBusinessInsights, ai.
  rewrite run_try_catch, run_bind.
  destruct (ai_run env (insights_prompt transcript)) as [e|[parsed|raw]];
    eexists; by repeat split.
Qed.

(** C3, the counterexample: a reply that is JSON without the fields of an
    [Insight] is returned as it is. *)
Lemma unvalidated_reply_is_returned :
  generateBusinessInsights
    (calm (FetchJson None) (λ _, AiResponse (Json partial_reply)) ticking)
    weekly_sync empty_world = (inr partial_reply, empty_world) ∧
  structurally_valid partial_reply = false.
Proof. split; reflexivity. Qed.

(** ** Strings *)

Lemma app_cons (c : ascii) (s t : string) :
  String c s +:+ t = String c (s +:+ t).
Proof. reflexivity. Qed.

Lemma app_empty_r (s : string) : s +:+ "" = s.
Proof. induction s as [|c s IH]; [done|]. by rewrite app_cons, IH. Qed.

Lemma app_assoc_string (a b c : string) : (a +:+ b) +:+ c = a +:+ (b +:+ c).
Proof. induction a as [|x a IH]; [done|]. by rewrite !app_cons, IH. Qed.

Lemma length_app_string (a b : string) :
  String.length (a +:+ b) = (String.length a + String.length b)%nat.
Proof. induction a as [|x a IH]; [done|]. rewrite app_cons. simpl. by rewrite IH. Qed.

Lemma app_inv_tail_string (a b s : string) : a +:+ s = b +:+ s → a = b.
Proof.
  revert b. induction a as [|x a IH]; intros [|y b] Heq.
  - done.
  - apply (f_equal String.length) in Heq.
    rewrite !length_app_string in Heq. simpl in Heq. lia.
  - apply (f_equal String.length) in Heq.
    rewrite !length_app_string in Heq. simpl in Heq. lia.
  - rewrite !app_cons in Heq. injection Heq as -> Heq. f_equal. by apply IH.
Qed.

Lemma join_cons (sep x : string) (l : list string) :
  JS.join sep (x :: l) =
  match l with
  | [] => x
  | _ => x +:+ sep +:+ JS.join sep l
  end.
Proof. by destruct l. Qed.


(** ** Expressions that may throw *)

Lemma bind_inr_result {A B} (r : Exn + A) (f : A → Exn + B) (b : B) :
  r ≫= f = inr b → ∃ a, r = inr a ∧ f a = inr b.
Proof. destruct r as [e|a]; [discriminate|]. intros H. by exists a. Qed.

Lemma lift_run {A} (r : Exn + A) (w : World) : lift r w = (r, w).
Proof. reflexivity. Qed.

(** ** Numbers of the runtime *)

Lemma integer_to_string_safe (env : Env) (n : Z) :
  Z.abs n ≤ 2 ^ 53 → integer_to_string env n = pretty n.
Proof.
  intros Hn. unfold integer_to_string, JS.integer_to_string, JS.number_to_string.
  rewrite inject_Z_Qred. simpl Qden. simpl Qnum.
  unfold JS.is_safe. rewrite Pos.eqb_refl. simpl andb.
  by rewrite (proj2 (Z.leb_le _ _)).
Qed.

Lemma floor_rem_60 (q : Q) :
  (0 < q)%Q → JS.floor (JS.rem q 60) = whole_seconds q `mod` 60.
Proof.
  intros Hq. unfold JS.floor, JS.rem, whole_seconds.
  rewrite (Qfloor_comp _ _ (Qred_correct _)).
  destruct q as [n d]. unfold Qlt in Hq. simpl in Hq.
  assert (Hn : 0 ≤ n) by lia.
  unfold Qdiv, Qinv, Qmult, Qminus, Qplus, Qopp, inject_Z, Qfloor. simpl Qnum. simpl Qden.
  rewrite Z.quot_div_nonneg by lia.
  replace (n * 1) with n by lia.
  replace (Z.pos (d * 60)) with (Z.pos d * 60) by lia.
  rewrite <- Z.div_div by lia.
  set (k := (n `div` Z.pos d) `div` 60).
  replace (Z.pos (d * (1 * 1))) with (Z.pos d) by lia.
  replace (n * Z.pos (1 * 1) + - (60 * k) * Z.pos d) with (n + (- (60 * k)) * Z.pos d) by lia.
  rewrite Z.div_add by lia.
  unfold k. rewrite (Z.mod_eq (n `div` Z.pos d) 60) by lia. lia.
Qed.
(** ** The transcript section of the published document *)

Lemma two_digits_padStart (d : Z) :
  0 ≤ d < 60 → JS.padStart 2 "0" (pretty d) = two_digits d.
Proof.
  intros Hd. rewrite <- (Z2Nat.id d) by lia.
  assert (Hn : (Z.to_nat d < 60)%nat) by lia.
  generalize dependent (Z.to_nat d). clear. intros n Hn.
  do 60 (destruct n as [|n]; [vm_compute; reflexivity|]). lia.
Qed.

Lemma two_digits_length (d : Z) :
  0 ≤ d < 60 → String.length (two_digits d) = 2%nat.
Proof.
  intros Hd. rewrite <- (Z2Nat.id d) by lia.
  assert (Hn : (Z.to_nat d < 60)%nat) by lia.
  generalize dependent (Z.to_nat d). clear. intros n Hn.
  do 60 (destruct n as [|n]; [vm_compute; reflexivity|]). lia.
Qed.

(** The seconds of a timestamp, for an offset above zero: those of the
    whole seconds of the offset, on two digits. *)
Lemma timestamp_seconds (env : Env) (offset : Q) :
  (0 < offset)%Q →
  JS.padStart 2 "0" (integer_to_string env (JS.floor (JS.rem offset 60))) =
  two_digits (whole_seconds offset `mod` 60).
Proof.
  intros Hpos. rewrite floor_rem_60 by done.
  pose proof (Z.mod_pos_bound (whole_seconds offset) 60) as Hmod.
  rewrite integer_to_string_safe by lia.
  apply two_digits_padStart. lia.
Qed.

(** ** The minutes of a timestamp *)

Lemma nearest_even_lower (n d : Z) : 0 < d → n `div` d ≤ JS.nearest_even n d.
Proof.
  intros Hd. unfold JS.nearest_even.
  destruct (2 * (n `mod` d) <? d); [lia|].
  destruct (d <? 2 * (n `mod` d)); [lia|].
  destruct (Z.even (n `div` d)); lia.
Qed.

Lemma nearest_even_upper (n d : Z) :
  0 < d → JS.nearest_even n d ≤ (2 * n + d) `div` (2 * d).
Proof.
  intros Hd. pose proof (Z.mod_pos_bound n d Hd) as Hr.
  pose proof (Z.div_mod n d ltac:(lia)) as Hn.
  unfold JS.nearest_even.
  destruct (Z.ltb_spec (2 * (n `mod` d)) d) as [Hlow|Hhigh].
  - apply Z.div_le_lower_bound; lia.
  - assert (Hup : n `div` d + 1 ≤ (2 * n + d) `div` (2 * d))
      by (apply Z.div_le_lower_bound; lia).
    destruct (d <? 2 * (n `mod` d)); [done|].
    destruct (Z.even (n `div` d)); lia.
Qed.

Lemma exponent_low (n d : Z) :
  0 < n → 0 < d → 0 ≤ JS.exponent n d → d * 2 ^ JS.exponent n d ≤ n.
Proof.
  intros Hn Hd. unfold JS.exponent.
  set (e0 := Z.log2 n - Z.log2 d).
  destruct (Z.leb_spec 0 e0) as [He0|He0].
  - destruct (Z.leb_spec (d * 2 ^ e0) n) as [Hle|Hgt]; [done|].
    intros He.
    destruct (Z.log2_spec n Hn) as [Hn1 _].
    destruct (Z.log2_spec d Hd) as [_ Hd2].
    pose proof (Z.log2_nonneg d) as Hld.
    assert (Hpow : 2 ^ Z.succ (Z.log2 d) * 2 ^ (e0 - 1) = 2 ^ Z.log2 n).
    { rewrite <- Z.pow_add_r by lia. f_equal. unfold e0. lia. }
    assert (Hpos : 0 < 2 ^ (e0 - 1)) by (apply Z.pow_pos_nonneg; lia).
    nia.
  - destruct (d <=? n * 2 ^ (- e0)); lia.
Qed.

(** The minutes of an offset of whole seconds: the quotient of the double
    division is below the next whole number. *)
Lemma floor_div_60 (q : Q) (n : Z) :
  (q == inject_Z n)%Q → 0 < n < 2 ^ 53 → JS.floor (JS.div q 60) = n `div` 60.
Proof.
  intros Hq Hn. destruct q as [a d]. unfold Qeq in Hq. simpl in Hq.
  rewrite Z.mul_1_r in Hq. subst a.
  unfold JS.floor, JS.div, Qdiv, Qinv, Qmult. cbn [Qnum Qden].
  unfold JS.double. cbn [Qnum Qden].
  rewrite Z.mul_1_r. set (D := Z.pos d).
  replace (Z.pos (d * 60)) with (D * 60) by (unfold D; lia).
  assert (HD : 0 < D) by (unfold D; lia).
  assert (HA : 0 < n * D) by nia.
  rewrite Z.abs_eq by lia.
  rewrite (proj2 (Z.eqb_neq _ 0)) by lia.
  rewrite (proj2 (Z.ltb_ge _ 0)) by lia.
  set (e := JS.exponent (n * D) (D * 60)).
  assert (He : e ≤ 47).
  { destruct (Z.le_gt_cases e 47) as [|Hbig]; [done|].
    pose proof (exponent_low (n * D) (D * 60) HA ltac:(lia) ltac:(fold e; lia)) as Hlow.
    fold e in Hlow.
    assert (Hpow : 2 ^ 48 ≤ 2 ^ e) by (apply Z.pow_le_mono_r; lia).
    assert (60 * 2 ^ 48 ≤ n) by nia.
    assert (2 ^ 53 < 60 * 2 ^ 48) by (vm_compute; reflexivity). lia. }
  set (last := Z.max e (-1022) - 52).
  assert (Hlast : last < 0) by (unfold last; lia).
  rewrite (proj2 (Z.leb_gt 0 last)) by done.
  unfold JS.scaled. rewrite (proj2 (Z.leb_gt 0 last)) by done.
  rewrite (Qfloor_comp _ _ (Qred_correct _)).
  set (K := - last). assert (HK : 5 ≤ K) by (unfold K, last; lia).
  assert (Hpow : 32 ≤ 2 ^ K).
  { change 32 with (2 ^ 5). apply Z.pow_le_mono_r; lia. }
  unfold Qfloor. rewrite Z2Pos.id by lia.
  set (m := JS.nearest_even (n * D * 2 ^ K) (D * 60)).
  pose proof (Z.div_mod n 60 ltac:(lia)) as Hdiv.
  pose proof (Z.mod_pos_bound n 60 ltac:(lia)) as Hmod.
  set (k := n `div` 60) in *.
  symmetry. apply (Z.div_unique_pos m (2 ^ K) k (m - k * 2 ^ K)); [|lia].
  split.
  - assert (k * 2 ^ K ≤ m); [|lia].
    etrans; [|apply nearest_even_lower; lia].
    apply Z.div_le_lower_bound; [lia|]. nia.
  - assert (m < (k + 1) * 2 ^ K); [|lia].
    eapply Z.le_lt_trans; [apply nearest_even_upper; lia|].
    apply Z.div_lt_upper_bound; [lia|].
    assert (2 * (n * 2 ^ K) + 60 < 2 * 60 * ((k + 1) * 2 ^ K)) by nia.
    nia.
Qed.

(** The timestamp of a sentence a whole number of seconds into the meeting. *)
Lemma timestamp_of_whole_seconds (env : Env) (offset : Q) (n : Z) :
  (offset == inject_Z n)%Q → 0 < n < 2 ^ 53 →
  sentence_timestamp env (Some offset) =
    "[" +:+ pretty (n `div` 60) +:+ ":" +:+ two_digits (n `mod` 60) +:+ "]".
Proof.
  intros Hq Hn. unfold sentence_timestamp.
  assert (Hpos : (0 < offset)%Q).
  { rewrite Hq. change 0%Q with (inject_Z 0). rewrite <- Zlt_Qlt. lia. }
  destruct (Qeq_bool offset 0) eqn:Hzero.
  { apply Qeq_bool_eq in Hzero. rewrite Hzero in Hpos. by apply Qlt_irrefl in Hpos. }
  rewrite timestamp_seconds by done.
  rewrite (floor_div_60 offset n Hq Hn).
  assert (Hwhole : whole_seconds offset = n).
  { unfold whole_seconds. rewrite (Qfloor_comp _ _ Hq). apply Qfloor_Z. }
  rewrite Hwhole.
  rewrite integer_to_string_safe; [done|].
  assert (0 ≤ n `div` 60 ≤ n); [|lia].
  split; [apply Z.div_pos; lia|]. apply Z.div_le_upper_bound; lia.
Qed.

Lemma sentence_line_nonempty (env : Env) (s : Sentence) :
  ∃ c r, sentence_line env s = String c r.
Proof.
  unfold sentence_line. destruct (sentence_timestamp env (start_time s)) as [|c r].
  - by eexists _, _.
  - by eexists _, _.
Qed.

Lemma transcript_section_some (env : Env) (transcript : Transcript) (ss : list Sentence) :
  sentences transcript = Some ss → ss ≠ [] →
  transcript_section env transcript =
  JS.join (JS.nl +:+ JS.nl) (sentence_line env <$> ss).
Proof.
  intros Hsentences Hsome. unfold transcript_section. rewrite Hsentences.
  destruct ss as [|s ss]; [done|].
  rewrite fmap_cons, join_cons.
  destruct (sentence_line_nonempty env s) as (c & r & ->).
  by destruct (sentence_line env <$> ss).
Qed.

(** ** The published document *)

Lemma join_app (sep : string) (a b : list string) :
  a ≠ [] → b ≠ [] →
  JS.join sep (a ++ b) = JS.join sep a +:+ sep +:+ JS.join sep b.
Proof.
  intros Ha Hb. induction a as [|x a IH]; [done|].
  destruct a as [|y a].
  - simpl app. rewrite join_cons. by destruct b.
  - change ((x :: y :: a) ++ b) with (x :: ((y :: a) ++ b)).
    rewrite (join_cons sep x ((y :: a) ++ b)), (join_cons sep x (y :: a)).
    simpl app at 1. rewrite IH by done. by rewrite !app_assoc_string.
Qed.

Lemma join_middle_inj (sep x y : string) (a b : list string) :
  JS.join sep (a ++ x :: b) = JS.join sep (a ++ y :: b) → x = y.
Proof.
  induction a as [|a0 a IH]; simpl app.
  - rewrite !join_cons. destruct b as [|b0 b]; [done|].
    apply app_inv_tail_string.
  - rewrite !join_cons.
    destruct (a ++ x :: b) as [|? ?] eqn:Hx; [by destruct a|].
    destruct (a ++ y :: b) as [|? ?] eqn:Hy; [by destruct a|].
    intros Heq. apply IH. by do 2 apply String.app_inj in Heq.
Qed.

(** The template: its first lines and its last ones before the signature. *)
Lemma markdown_head_lines (env : Env) (transcript : Transcript) (insights_ : JValue)
    (projectId : option string) (head : list string) :
  markdown_head env transcript insights_ projectId = inr head →
  take 3 head = ["---"; "  title: " +:+ tr_title transcript;
                 "  project_id: " +:+ or_default projectId "unknown"] ∧
  drop 29 head = ["  ## Meeting Transcript"; "  ";
                  "  " +:+ transcript_section env transcript; "  "; "  ---"].
Proof.
  unfold markdown_head. intros H.
  repeat (apply bind_inr_result in H as (? & _ & H)).
  injection H as <-. split; reflexivity.
Qed.

Lemma createEnhancedMarkdown_run (env : Env) (transcript : Transcript)
    (insights_ : JValue) (projectId : option string) (w : World) :
  createEnhancedMarkdown env transcript insights_ projectId w =
  match markdown_head env transcript insights_ projectId with
  | inr head =>
      (inr (JS.join JS.nl (head ++ generated_line (clock env (reads w)) :: markdown_foot)),
       tick w)
  | inl e => (inl e, w)
  end.
Proof.
  unfold createEnhancedMarkdown. rewrite run_bind, lift_run.
  by destruct (markdown_head env transcript insights_ projectId).
Qed.

Lemma markdown_equal_iff (head : list string) (now1 now2 : Z) :
  JS.join JS.nl (head ++ generated_line now1 :: markdown_foot) =
  JS.join JS.nl (head ++ generated_line now2 :: markdown_foot) ↔
  JS.toISOString now1 = JS.toISOString now2.
Proof.
  split.
  - intros Heq. apply join_middle_inj in Heq.
    unfold generated_line in Heq. by apply String.app_inj in Heq.
  - intros Heq. unfold generated_line. by rewrite Heq.
Qed.
(** ** Replies that have the shape of an [Insight] *)

Lemma as_insight_fields (v : JValue) (i : Insight) :
  as_insight v = Some i →
  ∃ fs a d r n,
    v = JObject fs ∧
    field "summary" fs = Some (JString (summary i)) ∧
    field "meetingType" fs = Some (JString (meetingType i)) ∧
    (field "actionItems" fs = Some (JArray a) ∧ mapM as_string a = Some (actionItems i)) ∧
    (field "decisions" fs = Some (JArray d) ∧ mapM as_string d = Some (decisions i)) ∧
    (field "risks" fs = Some (JArray r) ∧ mapM as_risk r = Some (risks i)) ∧
    (field "insights" fs = Some (JArray n) ∧ mapM as_sub_insight n = Some (insights i)) ∧
    field "followUpRequired" fs = Some (JBool (followUpRequired i)).
Proof.
  destruct v as [| | | | |fs]; try discriminate.
  unfold as_insight, get, as_list. simpl. intros H.
  destruct (field "summary" fs) as [[| | |s| |]|] eqn:?; try discriminate. simpl in H.
  destruct (field "meetingType" fs) as [[| | |mt| |]|] eqn:?; try discriminate. simpl in H.
  destruct (field "actionItems" fs) as [[| | | |a|]|] eqn:?; try discriminate. simpl in H.
  destruct (mapM as_string a) as [ai|] eqn:Ha; try discriminate. simpl in H.
  destruct (field "decisions" fs) as [[| | | |d|]|] eqn:?; try discriminate. simpl in H.
  destruct (mapM as_string d) as [ds|] eqn:Hd; try discriminate. simpl in H.
  destruct (field "risks" fs) as [[| | | |r|]|] eqn:?; try discriminate. simpl in H.
  destruct (mapM as_risk r) as [rs|] eqn:Hr; try discriminate. simpl in H.
  destruct (field "insights" fs) as [[| | | |n|]|] eqn:?; try discriminate. simpl in H.
  destruct (mapM as_sub_insight n) as [ins|] eqn:Hn; try discriminate. simpl in H.
  destruct (field "followUpRequired" fs) as [[|f| | | |]|] eqn:?; try discriminate. simpl in H.
  injection H as <-. exists fs, a, d, r, n. simpl. by repeat split.
Qed.

Lemma mapM_shape {A} (as_a : JValue → option A) (items : list JValue) (l : list A) :
  mapM as_a items = Some l → Forall (λ x, is_Some (as_a x)) items.
Proof.
  intros H. apply mapM_Some in H. induction H; constructor; eauto.
Qed.

Lemma those_imap_typed {A B} (as_a : JValue → option A) (f : nat → JValue → Exn + B)
    (g : nat → A → B) (items : list JValue) (l : list A) :
  mapM as_a items = Some l →
  (∀ i x a, as_a x = Some a → f i x = inr (g i a)) →
  those (imap f items) = inr (imap g l).
Proof.
  intros H. apply mapM_Some in H. revert f g.
  induction H as [|x a items l Hx _ IH]; intros f g Hfg; [done|].
  cbn [imap those]. rewrite (Hfg _ _ _ Hx), (IH (f ∘ S) (g ∘ S)); [done|].
  intros i y b Hy. by apply Hfg.
Qed.

Lemma numbered_lines (env : Env) (what : string) (items : list JValue) (l : list string) :
  mapM as_string items = Some l →
  mapped what (Some (JArray items)) (numbered_line env) = inr (numbered l).
Proof.
  intros H. apply (those_imap_typed as_string); [done|].
  by intros i [| | |s| |] a [= <-].
Qed.

Lemma risk_lines (env : Env) (what : string) (items : list JValue) (l : list Risk) :
  mapM as_risk items = Some l →
  mapped what (Some (JArray items)) (λ _, risk_line env) = inr (risk_flag env <$> l).
Proof.
  intros H. rewrite <- imap_const.
  apply (those_imap_typed as_risk); [done|].
  intros k [| | | | |fs] r Hr; try discriminate.
  unfold as_risk, get in Hr. simpl in Hr.
  destruct (field "title" fs) as [[| | |t| |]|] eqn:Ht; try discriminate. simpl in Hr.
  destruct (field "severity" fs) as [[| | |s| |]|] eqn:Hs; try discriminate.
  injection Hr as <-.
  unfold risk_line. simpl. rewrite Hs. simpl. by rewrite Ht.
Qed.

(** The document of an extraction that is an [Insight]. *)
Lemma markdown_of_insight (env : Env) (transcript : Transcript) (v : JValue)
    (i : Insight) (projectId : option string) (now : Z) :
  as_insight v = Some i →
  ∃ head,
    markdown_head env transcript v projectId = inr head ∧
    JS.join JS.nl (head ++ generated_line now :: markdown_foot) =
      insight_document env transcript i projectId now.
Proof.
  intros Hshape.
  destruct (as_insight_fields v i Hshape)
    as (fs & a & d & r & n & -> & Hs & Hmt & [Ha Hai] & [Hd Hds] & [Hr Hrs] & [Hn Hins] & Hf).
  unfold markdown_head. cbn [member].
  rewrite Hmt, Hn, Ha, Hr, Hs, Hd.
  cbn [mbind result_bind text_of to_string].
  change (length_text env (Some (JArray n))) with
    (inr (B := string) (A := Exn) (number_to_string env (inject_Z (Z.of_nat (length n))))).
  change (length_text env (Some (JArray a))) with
    (inr (B := string) (A := Exn) (number_to_string env (inject_Z (Z.of_nat (length a))))).
  change (length_text env (Some (JArray r))) with
    (inr (B := string) (A := Exn) (number_to_string env (inject_Z (Z.of_nat (length r))))).
  cbn [mbind result_bind].
  rewrite (numbered_lines env _ a _ Hai), (numbered_lines env _ d _ Hds),
    (risk_lines env _ r _ Hrs).
  cbn [mbind result_bind].
  eexists. split; [reflexivity|].
  unfold insight_document, count_text.
  rewrite <- (length_mapM _ _ _ Hins), <- (length_mapM _ _ _ Hai), <- (length_mapM _ _ _ Hrs).
  reflexivity.
Qed.

Lemma markdown_head_of_insight (env : Env) (transcript : Transcript) (v : JValue)
    (i : Insight) (projectId : option string) :
  as_insight v = Some i →
  ∃ head, markdown_head env transcript v projectId = inr head.
Proof.
  intros Hshape.
  destruct (markdown_of_insight env transcript v i projectId 0 Hshape) as (head & H & _).
  by exists head.
Qed.

Lemma looped_of_insight (env : Env) (v : JValue) (i : Insight) :
  as_insight v = Some i →
  ∃ items, looped env v = inr items ∧ Forall (λ item, is_null item = false) items.
Proof.
  intros Hshape.
  destruct (as_insight_fields v i Hshape)
    as (fs & a & d & r & n & -> & Hs & Hmt & _ & _ & _ & [Hn Hins] & Hf).
  unfold looped. cbn [member]. rewrite Hn. simpl.
  assert (Hobjects : Forall (λ item, is_null item = false) n).
  { eapply Forall_impl; [exact (mapM_shape _ _ _ Hins)|].
    by intros [| | | | |?] [? ?]. }
  destruct (Qle_bool _ _); simpl; eexists; split; try reflexivity; done.
Qed.

(** A reply with the shape of an [Insight] can be read by the callback. *)
Lemma insight_reads_fine (env : Env) (transcript : Transcript) (projectId : option string)
    (v : JValue) :
  is_Some (as_insight v) → reads_fine env transcript projectId v = true.
Proof.
  intros [i Hshape]. unfold reads_fine.
  destruct (markdown_head_of_insight env transcript v i projectId Hshape) as [head ->].
  destruct (looped_of_insight env v i Hshape) as (items & -> & Hitems).
  destruct (as_insight_fields v i Hshape) as (fs & _ & _ & _ & _ & -> & _).
  simpl. destruct (truthy projectId); [|done].
  rewrite andb_true_r. apply forallb_forall. intros item Hin.
  apply list_elem_of_In in Hin. rewrite Forall_forall in Hitems.
  by rewrite (Hitems _ Hin).
Qed.
Lemma zip_with_stamps (env : Env) (ss : list Sentence) :
  sentence_line env <$> ss =
  zip_with (λ stamp s, stamp +:+ " **" +:+ speaker_name s +:+ ":** " +:+ text s)
    (sentence_timestamp env ∘ start_time <$> ss) ss.
Proof. induction ss as [|s ss IH]; [done|]. rewrite !fmap_cons. simpl. by rewrite <- IH. Qed.

(** C10 (as the code has it). In a document that the publisher renders for
    a transcript with sentences, the transcript section stands under its
    heading and holds the sentences separated by blank lines, each as
    [stamp **speaker:** text]. The stamp is empty for a sentence without an
    offset and for one at the offset 0; for any other offset it is
    [[M:SS]] with [M = Math.floor (offset / 60)] and
    [SS = Math.floor (offset % 60)] filled with ["0"] to two characters.
    For an offset above zero, [SS] is the seconds of the whole seconds of the
    offset, on exactly two digits; for an offset of [n] whole seconds the
    stamp is [[n div 60:n mod 60]], the seconds on two digits. *)
Theorem transcript_section_timestamps (env : Env) (transcript : Transcript)
    (ss : list Sentence) (insights_ : JValue) (projectId : option string)
    (w : World) (md : string)
    (Hsentences : sentences transcript = Some ss)
    (Hsome : ss ≠ [])
    (Hrendered : fst (createEnhancedMarkdown env transcript insights_ projectId w) = inr md) :
  ∃ (stamps : list string) (before after : string),
    md = before +:+ JS.nl +:+
         "  ## Meeting Transcript" +:+ JS.nl +:+
         "  " +:+ JS.nl +:+
         "  " +:+
         JS.join (JS.nl +:+ JS.nl)
           (zip_with (λ stamp s, stamp +:+ " **" +:+ speaker_name s +:+ ":** " +:+ text s)
              stamps ss) +:+ JS.nl +:+
         "  " +:+ JS.nl +:+
         "  ---" +:+ JS.nl +:+ after ∧
    Forall2 (λ s stamp, stamp_shown env (start_time s) stamp) ss stamps.
Proof.
  rewrite createEnhancedMarkdown_run in Hrendered.
  destruct (markdown_head env transcript insights_ projectId) as [e|head] eqn:Hhead;
    [discriminate|].
  injection Hrendered as <-.
  destruct (markdown_head_lines _ _ _ _ _ Hhead) as [_ Hlast].
  exists (sentence_timestamp env ∘ start_time <$> ss), (JS.join JS.nl (take 29 head)),
    (generated_line (clock env (reads w)) +:+ JS.nl +:+ JS.join JS.nl markdown_foot).
  split.
  - rewrite <- zip_with_stamps, <- (transcript_section_some env transcript ss) by done.
    rewrite <- (take_drop 29 head) at 1. rewrite <- (assoc_L (++)), Hlast.
    rewrite join_app.
    + reflexivity.
    + intros Hnil. apply (f_equal length) in Hnil.
      apply (f_equal length) in Hlast. rewrite length_drop in Hlast.
      rewrite length_take in Hnil. cbn [length] in *. lia.
    + done.
  - apply Forall2_fmap_r, Forall_Forall2_diag, Forall_forall. intros s _.
    simpl. unfold stamp_shown. destruct (start_time s) as [offset|]; [|done].
    split; [|split; [|split]].
    + intros H0. unfold sentence_timestamp. by rewrite (proj2 (Qeq_bool_iff _ _) H0).
    + intros H0. unfold sentence_timestamp.
      destruct (Qeq_bool offset 0) eqn:Heq; [|done].
      by apply Qeq_bool_iff in Heq.
    + intros Hpos. split; [by apply timestamp_seconds|].
      apply two_digits_length, Z.mod_pos_bound. lia.
    + intros n Hn Hrange. by apply timestamp_of_whole_seconds.
Qed.

Lemma transcript_section_timestamps_sample :
  ∃ md,
    fst (createEnhancedMarkdown (eager ticking) weekly_sync (insight_json two_risks)
           (Some "p-goodwill") goodwill_world) = inr md ∧
    ∃ stamps before after,
      md = before +:+ JS.nl +:+
           "  ## Meeting Transcript" +:+ JS.nl +:+
           "  " +:+ JS.nl +:+
           "  " +:+
           JS.join (JS.nl +:+ JS.nl)
             (zip_with (λ stamp s, stamp +:+ " **" +:+ speaker_name s +:+ ":** " +:+ text s)
                stamps
                [mkSentence "Welcome everyone." "Ann" (Some 0%Q);
                 mkSentence "The permit is late." "Bob" (Some 75%Q)]) +:+ JS.nl +:+
           "  " +:+ JS.nl +:+
           "  ---" +:+ JS.nl +:+ after ∧
      Forall2 (λ s stamp, stamp_shown (eager ticking) (start_time s) stamp)
        [mkSentence "Welcome everyone." "Ann" (Some 0%Q);
         mkSentence "The permit is late." "Bob" (Some 75%Q)] stamps.
Proof.
  eexists. split; [vm_compute; reflexivity|].
  apply (transcript_section_timestamps (eager ticking) weekly_sync _
           (insight_json two_risks) (Some "p-goodwill") goodwill_world).
  - reflexivity.
  - discriminate.
  - vm_compute. reflexivity.
Defined.

(** The lines of the sample: no stamp at the offset 0, [[1:15]] at 75
    seconds. *)
Lemma transcript_section_of_weekly_sync :
  transcript_section (eager ticking) weekly_sync =
  " **Ann:** Welcome everyone." +:+ JS.nl +:+ JS.nl +:+
  "[1:15] **Bob:** The permit is late.".
Proof. vm_compute. reflexivity. Qed.

(** C10, the counterexample: a sentence half a second into the meeting. The
    offset is above zero and its remainder modulo 60 is a half, but the line
    shows the seconds [00]. *)
Lemma half_second_offset_is_floored :
  sentence_line (eager ticking) (mkSentence "Hello." "Ann" (Some (1 # 2))) =
    "[0:00] **Ann:** Hello." ∧
  (0 < 1 # 2)%Q ∧
  Qeq_bool (offset_modulo_60 (1 # 2)) (1 # 2) = true ∧
  Qeq_bool (offset_modulo_60 (1 # 2)) 0 = false.
Proof. split; [vm_compute; reflexivity|]. by repeat split. Qed.
(** C4 (as the code has it). Two calls of the publisher on the same (meeting,
    insight, projectId) either both throw, the same exception, or both render
    a document, and then the two documents are the same bytes exactly when
    the clock shows the same instant, to the millisecond, at both. An
    insight that has the shape of an [Insight] is always rendered. *)
Theorem markdown_identical_iff_same_instant (env : Env) (transcript : Transcript)
    (insights_ : JValue) (projectId : option string) (w1 w2 : World) :
  match fst (createEnhancedMarkdown env transcript insights_ projectId w1),
        fst (createEnhancedMarkdown env transcript insights_ projectId w2) with
  | inr md1, inr md2 =>
      md1 = md2 ↔
      JS.toISOString (clock env (reads w1)) = JS.toISOString (clock env (reads w2))
  | inl e1, inl e2 => e1 = e2
  | _, _ => False
  end ∧
  (is_Some (as_insight insights_) →
   ∃ md1 md2,
     fst (createEnhancedMarkdown env transcript insights_ projectId w1) = inr md1 ∧
     fst (createEnhancedMarkdown env transcript insights_ projectId w2) = inr md2 ∧
     (md1 = md2 ↔
      JS.toISOString (clock env (reads w1)) = JS.toISOString (clock env (reads w2)))).
Proof.
  rewrite !createEnhancedMarkdown_run. split.
  - destruct (markdown_head env transcript insights_ projectId) as [e|head]; [done|].
    apply markdown_equal_iff.
  - intros [i Hshape].
    destruct (markdown_head_of_insight env transcript insights_ i projectId Hshape)
      as [head ->].
    eexists _, _. split; [reflexivity|]. split; [reflexivity|]. apply markdown_equal_iff.
Qed.

Lemma markdown_identical_iff_same_instant_sample :
  ∃ md1 md2,
    fst (createEnhancedMarkdown (eager standing) weekly_sync (insight_json two_risks)
           (Some "p-goodwill") goodwill_world) = inr md1 ∧
    fst (createEnhancedMarkdown (eager standing) weekly_sync (insight_json two_risks)
           (Some "p-goodwill") (tick goodwill_world)) = inr md2 ∧
    (md1 = md2 ↔
     JS.toISOString (clock (eager standing) (reads goodwill_world)) =
     JS.toISOString (clock (eager standing) (reads (tick goodwill_world)))).
Proof.
  apply (markdown_identical_iff_same_instant (eager standing) weekly_sync
           (insight_json two_risks) (Some "p-goodwill") goodwill_world (tick goodwill_world)).
  by eexists.
Defined.

(** C4, the counterexample: the same meeting rendered twice in a row, one
    millisecond apart. *)
Lemma markdown_differs_a_millisecond_later :
  let env := calm (FetchJson None) (λ _, AiThrows (Error "unavailable")) ticking in
  let first :=
    createEnhancedMarkdown env weekly_sync (insight_json two_risks) (Some "p1") empty_world in
  let second :=
    createEnhancedMarkdown env weekly_sync (insight_json two_risks) (Some "p1") (snd first) in
  is_Some (as_insight (insight_json two_risks)) ∧
  succeeds (fst first) = true ∧ succeeds (fst second) = true ∧
  fst first ≠ fst second.
Proof.
  intros env first second. split; [by eexists|]. split; [by vm_compute|].
  split; [by vm_compute|].
  intros Heq. subst first second.
  rewrite !createEnhancedMarkdown_run in Heq.
  destruct (markdown_head env weekly_sync (insight_json two_risks) (Some "p1"))
    as [e|head] eqn:Hhead.
  - vm_compute in Hhead. discriminate.
  - unfold fst in Heq.
    apply (inj inr), markdown_equal_iff in Heq.
    vm_compute in Heq. discriminate.
Qed.

(** ** Tasks *)

Lemma bind_await {A B X} (call : M X) (next : X → Task A) (f : A → Task B) :
  Await call next ≫= f = Await call (λ x, next x ≫= f).
Proof. reflexivity. Qed.

Lemma await_bind {X B} (call : M X) (f : X → Task B) :
  await call ≫= f = Await call f.
Proof. reflexivity. Qed.

Lemma to_end_bind {A B} (t : Task A) (f : A → Task B) (w : World) :
  to_end (t ≫= f) w = (to_end t ≫= λ a, to_end (f a)) w.
Proof.
  revert w. induction t as [a|X call next IH]; intros w; [done|].
  rewrite bind_await, run_bind. simpl. destruct (call w) as [[e|x] w']; [done|].
  by rewrite IH.
Qed.

Lemma to_end_step_inr {X B} (call : M X) (f : X → Task B) (w w1 : World) (x : X) :
  call w = (inr x, w1) → to_end (await call ≫= f) w = to_end (f x) w1.
Proof. intros H. rewrite await_bind. simpl. by rewrite H. Qed.

Lemma to_end_step_inl {X B} (call : M X) (f : X → Task B) (w w1 : World) (e : Exn) :
  call w = (inl e, w1) → to_end (await call ≫= f) w = (inl e, w1).
Proof. intros H. rewrite await_bind. simpl. by rewrite H. Qed.

(** ** Tasks among other tasks *)

Section Interference_facts.
Context (R : relation World) `{!PreOrder R}.

Lemma monotone_ret {A} (a : A) : monotone R (mret a : M A).
Proof. intros w. reflexivity. Qed.

Lemma monotone_throw {A} (e : Exn) : monotone R (throw e : M A).
Proof. intros w. reflexivity. Qed.

Lemma monotone_lift {A} (r : Exn + A) : monotone R (lift r).
Proof. intros w. reflexivity. Qed.

Lemma monotone_bind {A B} (c : M A) (f : A → M B) :
  monotone R c → (∀ a, monotone R (f a)) → monotone R (c ≫= f).
Proof.
  intros Hc Hf w. rewrite run_bind. specialize (Hc w).
  destruct (c w) as [[e|a] w1]; simpl in *; [done|].
  etrans; [exact Hc|]. apply Hf.
Qed.

Lemma monotone_try_catch {A} (c : M A) (h : Exn → M A) :
  monotone R c → (∀ e, monotone R (h e)) → monotone R (try_catch c h).
Proof.
  intros Hc Hh w. rewrite run_try_catch. specialize (Hc w).
  destruct (c w) as [[e|a] w1]; simpl in *; [|done].
  etrans; [exact Hc|]. apply Hh.
Qed.

Lemma steady_weaken {A} (ok ok' : A → Prop) (t : Task A) :
  (∀ a, ok a → ok' a) → steady R ok t → steady R ok' t.
Proof.
  intros Hok. induction t as [a|X call next IH]; simpl; [apply Hok|].
  intros [Hcall Hnext]. split; [done|]. intros x. by apply IH.
Qed.

Lemma steady_bind {A B} (ok : A → Prop) (ok' : B → Prop) (t : Task A) (f : A → Task B) :
  steady R ok t → (∀ a, steady R ok' (f a)) → steady R ok' (t ≫= f).
Proof.
  intros Ht Hf. induction t as [a|X call next IH]; [apply Hf|].
  destruct Ht as [Hcall Hnext]. rewrite bind_await. split; [done|].
  intros x. by apply IH.
Qed.

Lemma steady_step {X B} (ok : B → Prop) (call : M X) (f : X → Task B) :
  monotone R call → (∀ x, steady R ok (f x)) → steady R ok (await call ≫= f).
Proof. intros Hcall Hf. rewrite await_bind. by split. Qed.

(** A steady task run to its end ends within [R], on an [ok] value if it
    returns. *)
Lemma steady_to_end {A} (ok : A → Prop) (t : Task A) (w : World) :
  steady R ok t →
  R w (snd (to_end t w)) ∧ ∀ a, fst (to_end t w) = inr a → ok a.
Proof.
  revert w. induction t as [a|X call next IH]; intros w Ht.
  - split; [done|]. by intros ? [= <-].
  - destruct Ht as [Hcall Hnext]. simpl. specialize (Hcall w).
    destruct (call w) as [[e|x] w']; simpl in *.
    + by split.
    + destruct (IH x w' (Hnext x)) as [Hlater Hok]. split; [by etrans | done].
Qed.

Lemma steady_promise_of {A} (ok : A → Prop) (t : Task A) :
  steady R ok t → steady_promise R ok (promise_of t).
Proof. by destruct t. Qed.

(** A turn of a steady promise leaves it steady, within [R]. *)
Lemma steady_resume {A} (ok : A → Prop) (p : Promise A) (w : World) :
  steady_promise R ok p →
  steady_promise R ok (fst (resume p w)) ∧ R w (snd (resume p w)).
Proof.
  destruct p as [[a|X call next]|[a|e]]; simpl; intros Hp; try done.
  destruct Hp as [Hcall Hnext]. specialize (Hcall w).
  destruct (call w) as [[e|x] w']; simpl in *; [done|].
  split; [|done]. by apply steady_promise_of.
Qed.

(** *** What a task reaches *)

Lemma reaches_weaken {A} (must : bool) (Q : A → World → Prop) (t : Task A)
    (P P0 : World → Prop) :
  (∀ w, P0 w → P w) → reaches R must Q t P → reaches R must Q t P0.
Proof.
  intros HP. destruct t as [a|X call next]; simpl.
  - intros Ht w Hw. by apply Ht, HP.
  - intros (P' & Hcall & Hstable & Hnext). exists P'. split; [|done].
    intros w Hw. by apply Hcall, HP.
Qed.

Lemma reaches_bind {A B} (must : bool) (Q1 : A → World → Prop) (Q2 : B → World → Prop)
    (t : Task A) (f : A → Task B) (P : World → Prop) :
  reaches R must Q1 t P → (∀ a, reaches R must Q2 (f a) (Q1 a)) →
  reaches R must Q2 (t ≫= f) P.
Proof.
  intros Ht Hf. revert P Ht. induction t as [a|X call next IH]; intros P Ht.
  - simpl in Ht. by apply (reaches_weaken must Q2 (f a) (Q1 a)).
  - destruct Ht as (P' & Hcall & Hstable & Hnext). rewrite bind_await.
    exists P'. split; [done|]. split; [done|]. intros x. by apply IH.
Qed.

Lemma reaches_step {X B} (must : bool) (Q : B → World → Prop) (call : M X)
    (f : X → Task B) (P : World → Prop) (P' : X → World → Prop) :
  (∀ w, P w → match call w with
              | (inr x, w') => P' x w'
              | (inl _, _) => must = false
              end) →
  (∀ x, stable R (P' x)) →
  (∀ x, reaches R must Q (f x) (P' x)) →
  reaches R must Q (await call ≫= f) P.
Proof. intros Hcall Hstable Hf. rewrite await_bind. by exists P'. Qed.

(** Run to its end from a world in [P], the task settles as announced. *)
Lemma reaches_to_end {A} (must : bool) (Q : A → World → Prop) (t : Task A)
    (P : World → Prop) (w : World) :
  reaches R must Q t P → P w →
  settles must Q (settle (fst (to_end t w))) (snd (to_end t w)).
Proof.
  revert P w. induction t as [a|X call next IH]; intros P w Ht Hw.
  - by apply Ht.
  - destruct Ht as (P' & Hcall & Hstable & Hnext).
    specialize (Hcall w Hw). simpl. destruct (call w) as [[e|x] w']; [done|].
    by apply (IH x (P' x)).
Qed.

(** What a task reaches from each of several stable facts it reaches from
    any of them; a fact that does not depend on the world can be taken for
    granted. *)
Lemma reaches_union {A} (must : bool) (Q : A → World → Prop) (t : Task A) :
  reaches R must Q t (λ w, ∃ P, stable R P ∧ reaches R must Q t P ∧ P w).
Proof.
  induction t as [a|X call next IH]; simpl.
  - intros w (P & _ & HP & Hw). by apply HP.
  - exists (λ x w, ∃ P, stable R P ∧ reaches R must Q (next x) P ∧ P w).
    split; [|split].
    + intros w (P & _ & (P' & Hcall & Hstable & Hnext) & Hw).
      specialize (Hcall w Hw). destruct (call w) as [[e|x] w']; [done|].
      exists (P' x). by split.
    + intros x w w' (P & HP & Hreach & Hw) Hww'. exists P.
      split; [done|]. split; [done|]. by eapply HP.
    + intros x. apply IH.
Qed.

Lemma reaches_if {A} (must : bool) (Q : A → World → Prop) (t : Task A)
    (fact : Prop) (P : World → Prop) :
  stable R P → (fact → reaches R must Q t P) →
  reaches R must Q t (λ w, fact ∧ P w).
Proof.
  intros HP Ht. eapply reaches_weaken; [|apply reaches_union].
  intros w [Hfact Hw]. exists P. split; [done|]. split; [by apply Ht | done].
Qed.

Lemma reaching_stable {A} (must : bool) (Q : A → World → Prop) (p : Promise A)
    (w w' : World) :
  (∀ a, stable R (Q a)) → reaching R must Q p w → R w w' → reaching R must Q p w'.
Proof.
  intros HQ Hp Hlater. destruct p as [t|[a|e]]; simpl in *; [|by eapply HQ|done].
  destruct Hp as (P & Hstable & Hw & Ht). exists P. split; [done|]. split; [|done].
  by eapply Hstable.
Qed.

Lemma reaching_promise_of {A} (must : bool) (Q : A → World → Prop) (t : Task A)
    (P : World → Prop) (w : World) :
  stable R P → P w → reaches R must Q t P → reaching R must Q (promise_of t) w.
Proof.
  intros Hstable Hw Ht. destruct t as [a|X call next]; simpl.
  - by apply Ht.
  - by exists P.
Qed.

(** A turn of a promise leaves it on its way to what it reaches. *)
Lemma reaching_resume {A} (must : bool) (Q : A → World → Prop) (p : Promise A)
    (w : World) :
  reaching R must Q p w → reaching R must Q (fst (resume p w)) (snd (resume p w)).
Proof.
  destruct p as [[a|X call next]|[a|e]]; simpl; try done.
  - intros (P & _ & Hw & Ht). by apply Ht.
  - intros (P & _ & Hw & P' & Hcall & Hstable & Hnext).
    specialize (Hcall w Hw). destruct (call w) as [[e|x] w']; [done|]. simpl.
    by apply (reaching_promise_of must Q (next x) (P' x)).
Qed.

(** *** The promises of a batch, turn after turn *)

Section Turns.
Context {T A : Type} (ok : T → A → Prop).

Lemma resume_at_steady (ts : list T) (i : nat) (ps : list (Promise A)) (w : World) :
  all_steady R ok ts ps →
  all_steady R ok ts (fst (resume_at i ps w)) ∧ R w (snd (resume_at i ps w)).
Proof.
  intros Hall. unfold resume_at. destruct (ps !! i) as [p|] eqn:Hp; [|done].
  destruct (Forall2_lookup_r _ _ _ _ _ Hall Hp) as (t & Ht & Hsteady).
  destruct (steady_resume (ok t) p w Hsteady) as [Hp' Hlater].
  destruct (resume p w) as [p' w']. simpl in *. split; [|done].
  unfold all_steady. rewrite <- (list_insert_id ts i t Ht).
  by apply Forall2_insert.
Qed.

Lemma turns_steady (ts : list T) (order : list nat) (ps : list (Promise A)) (w : World) :
  all_steady R ok ts ps →
  all_steady R ok ts (fst (turns order ps w)) ∧ R w (snd (turns order ps w)).
Proof.
  revert ps w. induction order as [|i order IH]; intros ps w Hall; [done|]. simpl.
  destruct (resume_at_steady ts i ps w Hall) as [Hall' Hlater].
  destruct (resume_at i ps w) as [ps' w']. simpl in *.
  destruct (IH ps' w' Hall') as [? ?]. split; [done | by etrans].
Qed.

Lemma finish_one (ok1 : A → Prop) (p : Promise A) (w : World) :
  steady_promise R ok1 p →
  ∃ r w', (match p with
           | Done outcome => (outcome, w)
           | Pending t0 =>
               match to_end t0 w with
               | (inr a, w') => (Fulfilled a, w')
               | (inl e, w') => (Rejected e, w')
               end
           end) = (r, w') ∧
          steady_promise R ok1 (Done r) ∧ R w w'.
Proof.
  intros Hp. destruct p as [t0|r]; [|by exists r, w].
  destruct (steady_to_end ok1 t0 w Hp) as [Hlater Hok].
  destruct (to_end t0 w) as [[e|a] w']; eexists _, _; simpl in *; eauto.
Qed.

Lemma finish_steady (ts : list T) (ps : list (Promise A)) (w : World) :
  all_steady R ok ts ps →
  Forall2 (λ t r, steady_promise R (ok t) (Done r)) ts (fst (finish ps w)) ∧
  R w (snd (finish ps w)).
Proof.
  intros Hall. revert w. induction Hall as [|t p ts ps Hp Hall IH]; intros w; [done|].
  simpl.
  destruct (finish_one (ok t) p w Hp) as (r & w' & -> & Hr & Hlater).
  destruct (IH w') as [Hrest Hlater']. destruct (finish ps w') as [rs w''].
  simpl in *. split; [by constructor | by etrans].
Qed.
End Turns.

Section One_among_others.
Context {A : Type} (must : bool) (Q : A → World → Prop) (HQ : ∀ a, stable R (Q a)).

Lemma resume_at_reaching (i j : nat) (ps : list (Promise A)) (p : Promise A) (w : World) :
  others_steady R j ps → ps !! j = Some p → reaching R must Q p w →
  ∃ p', fst (resume_at i ps w) !! j = Some p' ∧
        reaching R must Q p' (snd (resume_at i ps w)) ∧
        others_steady R j (fst (resume_at i ps w)).
Proof.
  intros Hothers Hj Hp. unfold resume_at.
  destruct (ps !! i) as [q|] eqn:Hi; [|by exists p].
  destruct (decide (i = j)) as [->|Hne].
  - rewrite Hj in Hi. injection Hi as <-.
    pose proof (reaching_resume must Q p w Hp) as Hp'.
    destruct (resume p w) as [p' w']. simpl in *. exists p'.
    split; [apply list_lookup_insert_eq; by eapply lookup_lt_Some|].
    split; [done|]. intros i q Hi. rewrite list_lookup_insert_ne by done.
    by apply Hothers.
  - destruct (steady_resume (λ _, True) q w (Hothers i q Hne Hi)) as [Hq' Hlater].
    destruct (resume q w) as [q' w']. simpl in *. exists p.
    split; [by rewrite list_lookup_insert_ne|].
    split; [by eapply reaching_stable|].
    intros i' q0 Hi'. destruct (decide (i = i')) as [<-|Hne'].
    + rewrite list_lookup_insert_eq by (by eapply lookup_lt_Some). by intros [= <-].
    + rewrite list_lookup_insert_ne by done. by apply Hothers.
Qed.

Lemma turns_reaching (order : list nat) (j : nat) (ps : list (Promise A))
    (p : Promise A) (w : World) :
  others_steady R j ps → ps !! j = Some p → reaching R must Q p w →
  ∃ p', fst (turns order ps w) !! j = Some p' ∧
        reaching R must Q p' (snd (turns order ps w)) ∧
        others_steady R j (fst (turns order ps w)).
Proof.
  revert ps p w. induction order as [|i order IH]; intros ps p w Hothers Hj Hp.
  { by exists p. }
  simpl.
  destruct (resume_at_reaching i j ps p w Hothers Hj Hp) as (p' & Hj' & Hp' & Hothers').
  destruct (resume_at i ps w) as [ps' w']. simpl in *. by eapply IH.
Qed.

Lemma settles_stable (r : Settled A) (w w' : World) :
  settles must Q r w → R w w' → settles must Q r w'.
Proof. destruct r as [a|e]; simpl; [apply HQ | done]. Qed.

Lemma finish_within (ps : list (Promise A)) (w : World) :
  Forall (steady_promise R (λ _, True)) ps → R w (snd (finish ps w)).
Proof.
  intros Hall.
  destruct (finish_steady (T := unit) (λ _ _, True) (replicate (length ps) ()) ps w)
    as [_ H]; [|done].
  clear w. induction Hall as [|p ps Hp Hall IH]; [constructor|].
  simpl. by constructor.
Qed.

Lemma finish_reaching (j : nat) (ps : list (Promise A)) (p : Promise A) (w : World) :
  others_steady R j ps → ps !! j = Some p → reaching R must Q p w →
  ∃ r, fst (finish ps w) !! j = Some r ∧ settles must Q r (snd (finish ps w)).
Proof.
  revert j w. induction ps as [|q ps IH]; intros j w Hothers Hj Hp; [done|].
  destruct j as [|j]; simpl in Hj.
  - injection Hj as ->. simpl.
    assert (Hone : ∃ r w', (match p with
                            | Done outcome => (outcome, w)
                            | Pending t0 =>
                                match to_end t0 w with
                                | (inr a, w') => (Fulfilled a, w')
                                | (inl e, w') => (Rejected e, w')
                                end
                            end) = (r, w') ∧ settles must Q r w').
    { destruct p as [t0|r]; simpl in Hp; [|by exists r, w].
      destruct Hp as (P & _ & Hw & Ht).
      pose proof (reaches_to_end must Q t0 P w Ht Hw) as Hend.
      destruct (to_end t0 w) as [[e|a] w']; eexists _, _; simpl in *; eauto. }
    destruct Hone as (r & w' & -> & Hr).
    assert (Hrest : Forall (steady_promise R (λ _, True)) ps).
    { apply Forall_lookup. intros i q Hi. by apply (Hothers (S i)). }
    pose proof (finish_within ps w' Hrest) as Hlater.
    destruct (finish ps w') as [rs w'']. simpl in *. exists r.
    split; [done | by eapply settles_stable].
  - simpl.
    destruct (finish_one (λ _, True) q w (Hothers 0%nat q (Nat.neq_0_succ j) eq_refl))
      as (r & w' & -> & _ & Hlater).
    destruct (IH j w') as (r' & Hr' & HQr); [|done|by eapply reaching_stable|].
    { intros i q' Hne Hi. apply (Hothers (S i)); [lia | done]. }
    destruct (finish ps w') as [rs w'']. simpl in *. by exists r'.
Qed.
End One_among_others.

(** What [Promise.allSettled] guarantees over steady callbacks: every entry
    is the return of its own callback or a rejection, and the world it ends in
    is within [R] of the one it started in. *)
Lemma allSettled_steady {T A} (ok : T → A → Prop) (order : list nat)
    (f : T → Task A) (l : list T) (w : World) :
  Forall (λ x, steady R (ok x) (f x)) l →
  ∃ rs w', allSettled order f l w = (inr rs, w') ∧
    Forall2 (λ x r, steady_promise R (ok x) (Done r)) l rs ∧ R w w'.
Proof.
  intros Hf. unfold allSettled.
  assert (Hall : all_steady R ok l (promise_of ∘ f <$> l)).
  { apply Forall2_fmap_r, Forall_Forall2_diag. eapply Forall_impl; [exact Hf|].
    intros x Hx. by apply steady_promise_of. }
  destruct (turns_steady ok l order _ w Hall) as [Hall' Hlater].
  destruct (turns order _ w) as [ps w1]. simpl in *.
  destruct (finish_steady ok l ps w1 Hall') as [Hrs Hlater'].
  destruct (finish ps w1) as [rs w2]. simpl in *.
  exists rs, w2. split; [done|]. split; [done | by etrans].
Qed.

(** What a callback reaches on its own it reaches in the batch, in the world
    the batch ends in, whatever the other callbacks do within [R] and in
    whatever order the callbacks are resumed. *)
Lemma allSettled_reaching {T A} (must : bool) (Q : A → World → Prop)
    (P : World → Prop) (order : list nat) (f : T → Task A) (l : list T)
    (w w' : World) (rs : list (Settled A)) (j : nat) (x : T) :
  (∀ i y, i ≠ j → l !! i = Some y → steady R (λ _, True) (f y)) →
  (∀ a, stable R (Q a)) → stable R P → P w →
  allSettled order f l w = (inr rs, w') →
  l !! j = Some x → reaches R must Q (f x) P →
  ∃ r, rs !! j = Some r ∧ settles must Q r w'.
Proof.
  intros Hf HQ HP Hw Hrun Hj Hx. unfold allSettled in Hrun.
  assert (Hothers : others_steady R j (promise_of ∘ f <$> l)).
  { intros i p Hne Hi. rewrite list_lookup_fmap in Hi.
    destruct (l !! i) as [y|] eqn:Hy; [|done]. injection Hi as <-.
    apply steady_promise_of. by eapply Hf. }
  assert (Hp : reaching R must Q (promise_of (f x)) w).
  { by apply (reaching_promise_of must Q (f x) P). }
  assert (Hlook : (promise_of ∘ f <$> l) !! j = Some (promise_of (f x))).
  { by rewrite list_lookup_fmap, Hj. }
  destruct (turns_reaching must Q HQ order j _ _ w Hothers Hlook Hp)
    as (p' & Hj' & Hp' & Hothers').
  destruct (turns order _ w) as [ps w1]. simpl in *.
  destruct (finish_reaching must Q HQ j ps p' w1 Hothers' Hj' Hp') as (r & Hr & HQr).
  destruct (finish ps w1) as [rs' w2]. simpl in *.
  injection Hrun as <- <-. by exists r.
Qed.
End Interference_facts.

(** ** The worlds of a run *)

Lemma later_preorder : PreOrder later.
Proof.
  split.
  - intros w. split; try done. by exists []; rewrite app_nil_r.
  - intros w1 w2 w3 H12 H23. split.
    + by rewrite (later_projects _ _ H23), (later_projects _ _ H12).
    + by rewrite (later_dashboard _ _ H23), (later_dashboard _ _ H12).
    + by rewrite (later_tasks _ _ H23), (later_tasks _ _ H12).
    + destruct (later_insights _ _ H12) as [r1 Hr1].
      destruct (later_insights _ _ H23) as [r2 Hr2].
      exists (r1 ++ r2). by rewrite Hr2, Hr1, app_assoc.
    + intros id Hid. by apply (later_meetings _ _ H23), (later_meetings _ _ H12).
    + intros k Hk. by apply (later_bucket _ _ H23), (later_bucket _ _ H12).
    + pose proof (later_reads _ _ H12). pose proof (later_reads _ _ H23). lia.
Qed.

#[export] Existing Instance later_preorder.

Lemma kept_preorder (ids : string → Prop) : PreOrder (kept ids).
Proof.
  split.
  - intros w. split; [reflexivity|]. by intros id _.
  - intros w1 w2 w3 [Hl12 H12] [Hl23 H23]. split; [by etrans|].
    intros id Hid. destruct (H12 id Hid) as [Hr12 Hd12].
    destruct (H23 id Hid) as [Hr23 Hd23]. split; congruence.
Qed.

#[export] Existing Instance kept_preorder.

Lemma kept_later (ids : string → Prop) (w w' : World) : kept ids w w' → later w w'.
Proof. by intros [? _]. Qed.

Lemma document_key_inj (a b : string) : document_key a = document_key b → a = b.
Proof.
  unfold document_key. intros Heq. apply String.app_inj in Heq.
  by apply app_inv_tail_string in Heq.
Qed.

Lemma meeting_row_expected (transcript : Transcript) (v : JValue)
    (projectId : option string) (row : string → MeetingRow) (created_at : string) :
  meeting_row transcript v projectId = inr row →
  row created_at = expected_meeting transcript v projectId created_at.
Proof.
  unfold meeting_row, expected_meeting, value_of. intros H.
  destruct v as [| | | | |fs]; try discriminate; simpl in H; injection H as <-;
    reflexivity.
Qed.

Section Stores.
Context (env : Env) (Hkey : keyed_by_id env).

Lemma conflict_false (new old : MeetingRow) :
  meetings_conflict env new old = false ↔ mr_id old ≠ mr_id new.
Proof.
  rewrite <- (Hkey new old). by destruct (meetings_conflict env new old).
Qed.

Lemma has_meeting_insert_or_replace (id : string) (row : MeetingRow)
    (rows : list MeetingRow) :
  (∃ r, r ∈ rows ∧ mr_id r = id) →
  ∃ r, r ∈ insert_or_replace (meetings_conflict env) row rows ∧ mr_id r = id.
Proof.
  intros (r & Hin & Hid). unfold insert_or_replace.
  destruct (decide (mr_id r = mr_id row)) as [Heq|Hne].
  - exists row. split; [set_solver | congruence].
  - exists r. split; [|done]. apply elem_of_app. left.
    apply list_elem_of_filter. split; [|done]. by apply conflict_false.
Qed.

(** After [INSERT OR REPLACE] the table holds one row of the id of the new
    row, the new one, and the rows of the other ids as they were. *)
Lemma rows_of_insert_or_replace (row : MeetingRow) (rows : list MeetingRow) :
  filter (λ r, mr_id r = mr_id row) (insert_or_replace (meetings_conflict env) row rows) =
  [row].
Proof.
  unfold insert_or_replace. induction rows as [|r rows IH].
  - simpl. by rewrite filter_cons_True.
  - destruct (decide (mr_id r = mr_id row)) as [Heq|Hne].
    + rewrite (filter_cons_False (λ r, meetings_conflict env row r = false)); [done|].
      intros Hfalse. by apply conflict_false in Hfalse.
    + rewrite (filter_cons_True (λ r, meetings_conflict env row r = false))
        by (by apply conflict_false).
      simpl. by rewrite filter_cons_False.
Qed.

Lemma rows_of_other_id (id : string) (row : MeetingRow) (rows : list MeetingRow) :
  id ≠ mr_id row →
  filter (λ r, mr_id r = id) (insert_or_replace (meetings_conflict env) row rows) =
  filter (λ r, mr_id r = id) rows.
Proof.
  intros Hne. unfold insert_or_replace.
  rewrite filter_app, (filter_cons_False _ row) by (intros H; by apply Hne).
  rewrite filter_nil, app_nil_r, list_filter_filter.
  apply list_filter_iff. intros r. split; [by intros [? _]|].
  intros Hr. split; [done|]. apply conflict_false. congruence.
Qed.
End Stores.

Section Monotone.
Context (env : Env) (Hkey : keyed_by_id env) (ids : string → Prop).

Lemma later_tick (w : World) : later w (tick w).
Proof. split; simpl; try done; [by exists []; rewrite app_nil_r | lia]. Qed.

Lemma kept_tick (w : World) : kept ids w (tick w).
Proof. split; [apply later_tick|]. by intros id _. Qed.

Lemma monotone_Date_now : monotone (kept ids) (Date_now env).
Proof. intros w. apply kept_tick. Qed.

Lemma monotone_db_all {A} (s : Stmt) (query : World → list A) :
  monotone (kept ids) (db_all env s query).
Proof. intros w. unfold db_all. by destruct (db_fault env w s). Qed.

Lemma monotone_db_run (s : Stmt) (update : World → World) :
  (∀ w, kept ids w (update w)) → monotone (kept ids) (db_run env s update).
Proof. intros Hu w. unfold db_run. destruct (db_fault env w s); [done | apply Hu]. Qed.

Lemma kept_put_meeting (row : MeetingRow) (w : World) :
  ¬ ids (mr_id row) → kept ids w (put_meeting env row w).
Proof.
  intros Hrow. split.
  - split; simpl; try done.
    + by exists []; rewrite app_nil_r.
    + intros id. by apply has_meeting_insert_or_replace.
  - intros id Hid. split; [|done]. unfold rows_of. simpl.
    apply rows_of_other_id; [done|]. by intros ->.
Qed.

Lemma kept_add_insight id pid ty t d src r c (w : World) :
  kept ids w (add_insight env id pid ty t d src r c w).
Proof. split; [|by intros ? _]. split; simpl; try done. by eexists. Qed.

Lemma kept_put_object (key : string) (o : R2Object) (w : World) :
  (∀ id, ids id → document_key id ≠ key) → kept ids w (put_object key o w).
Proof.
  intros Hkeys. split.
  - split; simpl; try done.
    + by exists []; rewrite app_nil_r.
    + intros k Hk. destruct (decide (key = k)) as [->|Hne].
      * rewrite lookup_insert_eq. by eexists.
      * by rewrite lookup_insert_ne.
  - intros id Hid. split; [done|]. simpl.
    rewrite lookup_insert_ne; [done|]. intros Heq. by apply (Hkeys id).
Qed.

Lemma monotone_uploadToR2 (key body : string) :
  (∀ id, ids id → document_key id ≠ key) → monotone (kept ids) (uploadToR2 env key body).
Proof.
  intros Hkeys w. unfold uploadToR2. destruct (r2_fault env w key body); [done|].
  by apply kept_put_object.
Qed.

Lemma monotone_associate (title : string) :
  monotone (kept ids) (associateTranscriptWithProject env title).
Proof.
  apply monotone_bind; [apply _ | apply monotone_db_all | intros; apply (monotone_ret _)].
Qed.

Lemma monotone_generateBusinessInsights (transcript : Transcript) :
  monotone (kept ids) (generateBusinessInsights env transcript).
Proof.
  apply monotone_try_catch; [apply _| |intros; apply (monotone_ret _)].
  apply monotone_bind; [apply _| |intros; apply (monotone_lift _)].
  unfold ai. destruct (ai_run env _); [apply (monotone_throw _) | apply (monotone_ret _)].
Qed.

Lemma monotone_insert_insight (transcript : Transcript) (pid : string) (item : JValue) :
  monotone (kept ids) (insert_insight env transcript pid item).
Proof.
  unfold insert_insight.
  apply monotone_bind; [apply _ | apply monotone_Date_now|]. intros now.
  repeat (apply monotone_bind; [apply _ | apply (monotone_lift _)|]; intros ?).
  apply monotone_db_run. intros w. apply kept_add_insight.
Qed.

Lemma monotone_createEnhancedMarkdown transcript insights_ projectId :
  monotone (kept ids) (createEnhancedMarkdown env transcript insights_ projectId).
Proof.
  apply monotone_bind; [apply _ | apply (monotone_lift _)|]. intros head.
  apply monotone_bind; [apply _ | apply monotone_Date_now | intros; apply (monotone_ret _)].
Qed.

Lemma monotone_record_meeting transcript businessInsights projectId :
  ¬ ids (tr_id transcript) →
  monotone (kept ids) (record_meeting env transcript businessInsights projectId).
Proof.
  intros Hid w. unfold record_meeting. rewrite run_bind, lift_run.
  destruct (meeting_row transcript businessInsights projectId) as [e|row] eqn:Hrow;
    [reflexivity|].
  revert w. apply monotone_bind; [apply _ | apply monotone_Date_now|]. intros now.
  apply monotone_db_run. intros w. apply kept_put_meeting.
  by rewrite (meeting_row_expected _ _ _ _ _ Hrow).
Qed.

Lemma monotone_publish_document transcript businessInsights projectId :
  ¬ ids (tr_id transcript) →
  monotone (kept ids) (publish_document env transcript businessInsights projectId).
Proof.
  intros Hid.
  apply monotone_bind; [apply _ | apply monotone_createEnhancedMarkdown|].
  intros md. apply monotone_uploadToR2. intros id Hids Heq.
  apply document_key_inj in Heq. by subst.
Qed.

Lemma steady_for_each (transcript : Transcript) (pid : string) (items : list JValue) :
  steady (kept ids) (λ _, True) (for_each items (insert_insight env transcript pid)).
Proof.
  induction items as [|item items IH]; [done|]. cbn [for_each].
  apply steady_step; [apply monotone_insert_insight | by intros _].
Qed.

Lemma steady_insert_insights (transcript : Transcript) (projectId : option string)
    (businessInsights : JValue) :
  steady (kept ids) (λ _, True) (insert_insights env transcript projectId businessInsights).
Proof.
  unfold insert_insights. destruct projectId as [pid|]; [|done].
  destruct (truthy (Some pid)); [|done].
  destruct (looped env businessInsights) as [e|items]; [|apply steady_for_each].
  split; [apply (monotone_throw _) | done].
Qed.

(** Every piece of the callback of a transcript keeps the worlds in their
    order and leaves the meetings of the other ids as they are, and the
    callback returns the id of its transcript. *)
Lemma steady_syncTranscript (transcript : Transcript) :
  ¬ ids (tr_id transcript) →
  steady (kept ids) (λ id, id = tr_id transcript) (syncTranscript env transcript).
Proof.
  intros Hid. unfold syncTranscript.
  apply steady_step; [apply monotone_associate|]. intros projectId.
  apply steady_step; [apply monotone_generateBusinessInsights|]. intros businessInsights.
  apply steady_step; [by apply monotone_record_meeting|]. intros _.
  apply (steady_bind _ (λ _, True)); [apply steady_insert_insights|].
  intros _. apply steady_step; [by apply monotone_publish_document|]. by intros _.
Qed.
End Monotone.

(** ** One transcript through the pipeline *)

Section Callback.
Context (env : Env).

Lemma generateBusinessInsights_run (transcript : Transcript) (w : World) :
  generateBusinessInsights env transcript w = (inr (extracted env transcript), w).
Proof.
  unfold generateBusinessInsights, extracted, ai.
  rewrite run_try_catch, run_bind.
  by destruct (ai_run env (insights_prompt transcript)) as [e|[parsed|raw]].
Qed.

Lemma associate_run (title : string) (w : World) :
  db_fault env w (SelectProjectForTitle title) = None →
  associateTranscriptWithProject env title w = (inr (selected_project title w), w).
Proof.
  intros Hdb. unfold associateTranscriptWithProject.
  rewrite (run_bind_inr _ _ w w (select_project title w)); [done|].
  unfold db_all. by rewrite Hdb.
Qed.

Lemma associate_throws (title : string) (w : World) (e : Exn) :
  db_fault env w (SelectProjectForTitle title) = Some e →
  associateTranscriptWithProject env title w = (inl e, w).
Proof.
  intros Hdb. unfold associateTranscriptWithProject.
  apply run_bind_inl. unfold db_all. by rewrite Hdb.
Qed.

Lemma record_meeting_run (transcript : Transcript) (v : JValue)
    (projectId : option string) (w : World) :
  record_meeting env transcript v projectId w =
  match meeting_row transcript v projectId with
  | inl e => (inl e, w)
  | inr _ =>
      let row := expected_meeting transcript v projectId
                   (JS.toISOString (clock env (reads w))) in
      match db_fault env (tick w) (InsertOrReplaceMeeting row) with
      | Some e => (inl e, tick w)
      | None => (inr (), put_meeting env row (tick w))
      end
  end.
Proof.
  unfold record_meeting. rewrite run_bind, lift_run.
  destruct (meeting_row transcript v projectId) as [e|row] eqn:Hrow; [done|].
  cbv zeta. rewrite <- (meeting_row_expected _ _ _ _ _ Hrow). reflexivity.
Qed.

Lemma publish_document_run (transcript : Transcript) (v : JValue)
    (projectId : option string) (w : World) :
  publish_document env transcript v projectId w =
  match markdown_head env transcript v projectId with
  | inl e => (inl e, w)
  | inr head =>
      let body_ := JS.join JS.nl
                     (head ++ generated_line (clock env (reads w)) :: markdown_foot) in
      match r2_fault env (tick w) (document_key (tr_id transcript)) body_ with
      | Some e => (inl e, tick w)
      | None =>
          (inr (),
           put_object (document_key (tr_id transcript))
             (mkR2Object body_ "text/markdown") (tick w))
      end
  end.
Proof.
  unfold publish_document. rewrite run_bind, createEnhancedMarkdown_run.
  by destruct (markdown_head env transcript v projectId).
Qed.

Lemma insert_insight_run (transcript : Transcript) (pid : string) (item : JValue)
    (w : World) :
  insert_insight env transcript pid item w =
  if is_null item
  then (inl (TypeError "Cannot read properties of null (reading 'type')"), tick w)
  else
    match db_fault env (tick w)
            (InsertProjectInsight (insight_id (tr_id transcript) (clock env (reads w))) pid
               (value_of "type" item) (value_of "title" item)
               (value_of "description" item) (tr_id transcript)
               (value_of "requiresAction" item) (value_of "confidence" item)) with
    | Some e => (inl e, tick w)
    | None =>
        (inr (),
         add_insight env (insight_id (tr_id transcript) (clock env (reads w))) pid
           (value_of "type" item) (value_of "title" item)
           (value_of "description" item) (tr_id transcript)
           (value_of "requiresAction" item) (value_of "confidence" item) (tick w))
    end.
Proof. by destruct item. Qed.

(** The loop over the insights, run in one piece, appends the rows of the
    inserts it gets through, in their order, and touches nothing else. *)
Lemma for_each_insert_run (transcript : Transcript) (pid : string)
    (l : list JValue) (w : World) :
  ∃ k n, (k ≤ length l)%nat ∧ (reads w ≤ n)%nat ∧
    snd (to_end (for_each l (insert_insight env transcript pid)) w) =
      mkWorld (meetings w)
        (project_insights w ++
         inserted_rows env (tr_id transcript) pid (reads w) (take k l))
        (projects w) (project_dashboard w) (tasks w) (bucket w) n ∧
    (∀ u, fst (to_end (for_each l (insert_insight env transcript pid)) w) = inr u →
          k = length l ∧ n = (reads w + k)%nat).
Proof.
  revert w. induction l as [|item l IH]; intros w.
  - exists 0%nat, (reads w). split; [done|]. split; [done|]. split; [|done]. simpl.
    destruct w. simpl. by rewrite app_nil_r.
  - cbn [for_each]. pose proof (insert_insight_run transcript pid item w) as Hrun.
    destruct (is_null item).
    { rewrite (to_end_step_inl _ _ _ _ _ Hrun).
      exists 0%nat, (S (reads w)). split; [simpl; lia|]. split; [lia|].
      split; [|done]. simpl. unfold tick. by rewrite app_nil_r. }
    destruct (db_fault env (tick w) _) as [e|].
    + rewrite (to_end_step_inl _ _ _ _ _ Hrun).
      exists 0%nat, (S (reads w)). split; [simpl; lia|]. split; [lia|].
      split; [|done]. simpl. unfold tick. by rewrite app_nil_r.
    + rewrite (to_end_step_inr _ _ _ _ _ Hrun).
      match goal with |- context [to_end (for_each l _) ?w1] =>
        destruct (IH w1) as (k & n & Hk & Hn & Hw & Hall) end.
      exists (S k), n. simpl in Hn. split; [simpl; lia|]. split; [lia|].
      split.
      * rewrite Hw. simpl. by rewrite <- app_assoc.
      * intros u Hu. destruct (Hall u Hu) as [-> ->]. simpl. split; [done | lia].
Qed.

Lemma inserted_rows_take (tid pid : string) (n k : nat) (l : list JValue) :
  inserted_rows env tid pid n (take k l) = take k (inserted_rows env tid pid n l).
Proof.
  revert n k. induction l as [|i l IH]; intros n [|k]; simpl; try done.
  by rewrite IH.
Qed.

Lemma inserted_rows_length (tid pid : string) (n : nat) (l : list JValue) :
  length (inserted_rows env tid pid n l) = length l.
Proof. revert n. induction l as [|i l IH]; intros n; simpl; [done | by rewrite IH]. Qed.

(** The block of inserts appends a prefix of the rows of the insights,
    all of them when it does not throw, and none without a project id. *)
Lemma insert_insights_run (transcript : Transcript) (projectId : option string)
    (v : JValue) (w : World) :
  ∃ rows n,
    snd (to_end (insert_insights env transcript projectId v) w) =
      mkWorld (meetings w) (project_insights w ++ rows) (projects w)
        (project_dashboard w) (tasks w) (bucket w) n ∧
    (reads w ≤ n)%nat ∧
    rows `prefix_of` appended_rows env transcript projectId v (reads w) ∧
    (∀ u, fst (to_end (insert_insights env transcript projectId v) w) = inr u →
          rows = appended_rows env transcript projectId v (reads w) ∧
          n = (reads w + length rows)%nat).
Proof.
  assert (Hskip :
    appended_rows env transcript projectId v (reads w) = [] →
    insert_insights env transcript projectId v = mret () →
    ∃ rows n,
      snd (to_end (insert_insights env transcript projectId v) w) =
        mkWorld (meetings w) (project_insights w ++ rows) (projects w)
          (project_dashboard w) (tasks w) (bucket w) n ∧
      (reads w ≤ n)%nat ∧
      rows `prefix_of` appended_rows env transcript projectId v (reads w) ∧
      (∀ u, fst (to_end (insert_insights env transcript projectId v) w) = inr u →
            rows = appended_rows env transcript projectId v (reads w) ∧
            n = (reads w + length rows)%nat)).
  { intros -> ->. exists [], (reads w). simpl.
    split; [destruct w; simpl; by rewrite app_nil_r|].
    split; [lia|]. split; [done|]. intros _ _. split; [done | lia]. }
  destruct projectId as [pid|]; [|by apply Hskip].
  destruct (truthy (Some pid)) eqn:Htruthy.
  2: { apply Hskip; unfold appended_rows, insert_insights; by rewrite Htruthy. }
  clear Hskip. unfold appended_rows, insert_insights, looped_items. rewrite Htruthy.
  destruct (looped env v) as [e|items].
  { exists [], (reads w). simpl. split; [destruct w; simpl; by rewrite app_nil_r|].
    split; [lia|]. split; [done|]. by intros u. }
  destruct (for_each_insert_run transcript pid items w) as (k & n & Hk & Hn & Hw & Hall).
  eexists _, _. split; [exact Hw|]. split; [lia|]. split.
  - rewrite inserted_rows_take. eexists. symmetry. apply take_drop.
  - intros u Hu. destruct (Hall u Hu) as [-> ->].
    rewrite firstn_all, inserted_rows_length. done.
Qed.

(** The callback run in one piece, step by step: which call throws decides
    where the pipeline of the transcript ends and what has been written by
    then. *)
Lemma syncTranscript_run (transcript : Transcript) (w : World) :
  to_end (syncTranscript env transcript) w =
  match db_fault env w (SelectProjectForTitle (tr_title transcript)) with
  | Some e => (inl e, w)
  | None =>
      let projectId := selected_project (tr_title transcript) w in
      let v := extracted env transcript in
      match meeting_row transcript v projectId with
      | inl e => (inl e, w)
      | inr _ =>
          let row := expected_meeting transcript v projectId
                       (JS.toISOString (clock env (reads w))) in
          match db_fault env (tick w) (InsertOrReplaceMeeting row) with
          | Some e => (inl e, tick w)
          | None =>
              match to_end (insert_insights env transcript projectId v)
                      (put_meeting env row (tick w)) with
              | (inl e, w6) => (inl e, w6)
              | (inr _, w6) =>
                  match markdown_head env transcript v projectId with
                  | inl e => (inl e, w6)
                  | inr head =>
                      let body_ :=
                        JS.join JS.nl
                          (head ++ generated_line (clock env (reads w6)) :: markdown_foot) in
                      match r2_fault env (tick w6) (document_key (tr_id transcript))
                              body_ with
                      | Some e => (inl e, tick w6)
                      | None =>
                          (inr (tr_id transcript),
                           put_object (document_key (tr_id transcript))
                             (mkR2Object body_ "text/markdown") (tick w6))
                      end
                  end
              end
          end
      end
  end.
Proof.
  unfold syncTranscript.
  destruct (db_fault env w (SelectProjectForTitle _)) as [e|] eqn:Hselect.
  { apply to_end_step_inl. by apply associate_throws. }
  rewrite (to_end_step_inr _ _ _ _ _ (associate_run _ w Hselect)).
  rewrite (to_end_step_inr _ _ _ _ _ (generateBusinessInsights_run transcript w)).
  cbv zeta.
  pose proof (record_meeting_run transcript (extracted env transcript)
                (selected_project (tr_title transcript) w) w) as Hrecord.
  destruct (meeting_row transcript _ _) as [e|row].
  { by apply to_end_step_inl. }
  cbv zeta in Hrecord.
  destruct (db_fault env (tick w) (InsertOrReplaceMeeting _)) as [e|].
  { by apply to_end_step_inl. }
  rewrite (to_end_step_inr _ _ _ _ _ Hrecord), to_end_bind, run_bind.
  destruct (to_end (insert_insights env transcript _ _) _) as [[e|[]] w6]; [done|].
  pose proof (publish_document_run transcript (extracted env transcript)
                (selected_project (tr_title transcript) w) w6) as Hpublish.
  destruct (markdown_head env transcript _ _) as [e|head].
  { by apply to_end_step_inl. }
  cbv zeta in Hpublish.
  destruct (r2_fault env (tick w6) _ _) as [e|].
  { by apply to_end_step_inl. }
  by rewrite (to_end_step_inr _ _ _ _ _ Hpublish).
Qed.

(** A fulfilled callback has recorded the meeting in place of the earlier
    rows in conflict with it, appended one row per insight when a project was
    associated, and published the document. *)
Lemma syncTranscript_fulfilled (transcript : Transcript) (w w' : World) (id : string) :
  to_end (syncTranscript env transcript) w = (inr id, w') →
  let projectId := selected_project (tr_title transcript) w in
  let v := extracted env transcript in
  let rows := appended_rows env transcript projectId v (S (reads w)) in
  ∃ doc,
    id = tr_id transcript ∧
    document env transcript v projectId (S (reads w) + length rows) = Some doc ∧
    w' = mkWorld
           (insert_or_replace (meetings_conflict env)
              (expected_meeting transcript v projectId
                 (JS.toISOString (clock env (reads w)))) (meetings w))
           (project_insights w ++ rows) (projects w) (project_dashboard w) (tasks w)
           (<[document_key (tr_id transcript) := doc]> (bucket w))
           (S (S (reads w) + length rows)).
Proof.
  rewrite syncTranscript_run.
  destruct (db_fault env w _); [done|]. cbv zeta.
  destruct (meeting_row transcript _ _) as [e|row]; [done|].
  destruct (db_fault env (tick w) _); [done|].
  match goal with |- context [to_end (insert_insights env ?t ?p ?b) ?w0] =>
    destruct (insert_insights_run t p b w0) as (rows & n & Hw & Hn & Hpre & Hall);
    destruct (to_end (insert_insights env t p b) w0) as [[e|[]] w6] eqn:Hloop; [done|]
  end.
  simpl in Hw, Hall. destruct (Hall () eq_refl) as [Hrows ->].
  unfold document.
  destruct (markdown_head env transcript _ _) as [e|head]; [done|].
  destruct (r2_fault env (tick w6) _ _); [done|].
  intros [= <- <-]. eexists. split; [done|]. split; [reflexivity|].
  rewrite Hw. unfold put_object, tick. simpl. by rewrite Hrows.
Qed.

(** Whatever its outcome, the callback only appends to [project_insights],
    and what it appends are rows of the insights of its own transcript
    under the project id the association returned. *)
Lemma syncTranscript_appends (transcript : Transcript) (w : World) :
  ∃ rows,
    project_insights (snd (to_end (syncTranscript env transcript) w)) =
      project_insights w ++ rows ∧
    rows `prefix_of`
      appended_rows env transcript (selected_project (tr_title transcript) w)
        (extracted env transcript) (S (reads w)).
Proof.
  rewrite syncTranscript_run.
  assert (Hnil : ∀ w0, project_insights w0 = project_insights w →
    ∃ rows, project_insights w0 = project_insights w ++ rows ∧
      rows `prefix_of`
        appended_rows env transcript (selected_project (tr_title transcript) w)
          (extracted env transcript) (S (reads w))).
  { intros w0 ->. exists []. split; [by rewrite app_nil_r | apply prefix_nil]. }
  destruct (db_fault env w _); [by apply Hnil|]. cbv zeta.
  destruct (meeting_row transcript _ _) as [e|row]; [by apply Hnil|].
  destruct (db_fault env (tick w) _); [by apply Hnil|].
  match goal with |- context [to_end (insert_insights env ?t ?p ?b) ?w0] =>
    destruct (insert_insights_run t p b w0) as (rows & n & Hw & Hn & Hpre & Hall);
    destruct (to_end (insert_insights env t p b) w0) as [[e|[]] w6] eqn:Hloop
  end; simpl in Hw, Hpre; clear Hnil.
  - exists rows. simpl. rewrite Hw. simpl. done.
  - exists rows. destruct (markdown_head env transcript _ _) as [e|head];
      [simpl; rewrite Hw; simpl; done|].
    destruct (r2_fault env (tick w6) _ _); simpl; rewrite Hw; simpl; done.
Qed.
End Callback.

(** *** The callback among the others *)

Section Outcomes.
Context (env : Env) (Hkey : keyed_by_id env).

Lemma stable_recorded (transcript : Transcript) (w0 : World) :
  stable (own transcript) (recorded env transcript w0).
Proof.
  intros w w' [n Hw] [_ Hkept]. exists n.
  destruct (Hkept (tr_id transcript) eq_refl) as [Hrows _]. by rewrite Hrows.
Qed.

Lemma stable_published (transcript : Transcript) (w0 : World) :
  stable (own transcript) (published env transcript w0).
Proof.
  intros w w' (n & doc & rest & Hdoc & Hw & Htype & Hcontent) [_ Hkept].
  exists n, doc, rest. destruct (Hkept (tr_id transcript) eq_refl) as [_ Hbucket].
  by rewrite Hbucket.
Qed.

Lemma stable_synced (transcript : Transcript) (w0 : World) (id : string) :
  stable (own transcript) (synced env transcript w0 id).
Proof.
  intros w w' (Hid & Hrec & Hpub) Hkept. split; [done|].
  split; [by eapply stable_recorded | by eapply stable_published].
Qed.

Lemma recorded_put_meeting (transcript : Transcript) (w0 w : World) (n : nat) :
  recorded env transcript w0
    (put_meeting env
       (expected_meeting transcript (extracted env transcript)
          (selected_project (tr_title transcript) w0) (JS.toISOString (clock env n))) w).
Proof.
  exists n. unfold rows_of, put_meeting. simpl.
  apply (rows_of_insert_or_replace env Hkey
           (expected_meeting transcript (extracted env transcript)
              (selected_project (tr_title transcript) w0) (JS.toISOString (clock env n)))).
Qed.

(** The document starts with the title and the project id. *)
Lemma document_front_matter (transcript : Transcript) (v : JValue)
    (projectId : option string) (n : nat) (doc : R2Object) :
  document env transcript v projectId n = Some doc →
  contentType doc = "text/markdown" ∧
  ∃ rest, content doc = front_matter_start transcript projectId +:+ rest.
Proof.
  unfold document.
  destruct (markdown_head env transcript v projectId) as [e|head] eqn:Hhead; [done|].
  intros [= <-]. split; [done|]. simpl.
  destruct (markdown_head_lines _ _ _ _ _ Hhead) as [Hfirst _].
  exists (JS.join JS.nl
            (drop 3 head ++ generated_line (clock env n) :: markdown_foot)).
  rewrite <- (take_drop 3 head) at 1. rewrite <- (assoc_L (++)), Hfirst.
  rewrite join_app; [|done|by destruct (drop 3 head)].
  unfold front_matter_start. rewrite !join_cons, !app_assoc_string. reflexivity.
Qed.

(** The document of an extraction that is an [Insight] is the
    [insight_document]. *)
Lemma document_of_insight (transcript : Transcript) (v : JValue)
    (projectId : option string) (n : nat) (doc : R2Object) (i : Insight) :
  document env transcript v projectId n = Some doc →
  as_insight v = Some i →
  content doc = insight_document env transcript i projectId (clock env n).
Proof.
  unfold document. intros Hdoc Hshape.
  destruct (markdown_of_insight env transcript v i projectId (clock env n) Hshape)
    as (head & Hhead & Htext).
  rewrite Hhead in Hdoc. injection Hdoc as <-. exact Htext.
Qed.

Lemma published_put_object (transcript : Transcript) (w0 w : World) (n : nat)
    (doc : R2Object) :
  document env transcript (extracted env transcript)
    (selected_project (tr_title transcript) w0) n = Some doc →
  published env transcript w0 (put_object (document_key (tr_id transcript)) doc w).
Proof.
  intros Hdoc. destruct (document_front_matter _ _ _ _ _ Hdoc) as [Htype [rest Hrest]].
  exists n, doc, rest. split; [done|].
  split; [unfold put_object; simpl; by rewrite lookup_insert_eq|].
  split; [done|]. split; [done|]. intros i Hi. by eapply document_of_insight.
Qed.

Lemma selected_project_projects (title : string) (w w0 : World) :
  projects w = projects w0 → selected_project title w = selected_project title w0.
Proof. intros H. unfold selected_project, select_project. by rewrite H. Qed.

(** The loop over the insights keeps every stable fact; with [must], none
    of its inserts throws. *)
Lemma reaches_for_each (R : relation World) `{!PreOrder R} (must : bool)
    (transcript : Transcript) (pid : string) (l : list JValue) (P : World → Prop) :
  stable R P →
  (∀ item, monotone R (insert_insight env transcript pid item)) →
  (must = true →
   Forall (λ item, is_null item = false) l ∧
   ∀ w id pid ty t d r c,
     db_fault env w (InsertProjectInsight id pid ty t d (tr_id transcript) r c) = None) →
  reaches R must (λ _, P) (for_each l (insert_insight env transcript pid)) P.
Proof.
  intros HP Hmono Hok. induction l as [|item l IH]; [by intros w Hw|]. cbn [for_each].
  apply (reaches_step R must _ _ _ P (λ _, P)); [|done|].
  - intros w Hw. pose proof (Hmono item w) as Hlater.
    rewrite insert_insight_run in *.
    destruct (is_null item) eqn:Hnull.
    { destruct must; [|done]. destruct (Hok eq_refl) as [Hall _].
      apply Forall_cons in Hall as [Hitem _]. congruence. }
    destruct (db_fault env (tick w) _) as [e|] eqn:Hdb; [|by eapply HP].
    destruct must; [|done]. destruct (Hok eq_refl) as [_ Hdb']. by rewrite Hdb' in Hdb.
  - intros _. apply IH. intros Hmust. destruct (Hok Hmust) as [Hall Hdb].
    apply Forall_cons in Hall as [_ Hall]. done.
Qed.

Lemma reads_fine_inv (transcript : Transcript) (projectId : option string) (v : JValue) :
  reads_fine env transcript projectId v = true →
  (∃ row, meeting_row transcript v projectId = inr row) ∧
  (truthy projectId = true →
   ∃ items, looped env v = inr items ∧ Forall (λ item, is_null item = false) items) ∧
  (∃ head, markdown_head env transcript v projectId = inr head).
Proof.
  unfold reads_fine. intros H.
  apply andb_true_iff in H as [H Hhead]. apply andb_true_iff in H as [Hrow Hloop].
  split; [|split].
  - destruct (meeting_row transcript v projectId) as [e|row]; [done | by eexists].
  - intros Htruthy. rewrite Htruthy in Hloop.
    destruct (looped env v) as [e|items]; [done|]. exists items. split; [done|].
    apply Forall_forall. intros item Hin.
    rewrite forallb_forall in Hloop. apply list_elem_of_In, Hloop in Hin.
    by destruct (is_null item).
  - destruct (markdown_head env transcript v projectId) as [e|head]; [done | by eexists].
Qed.

Lemma reaches_insert_insights (must : bool) (transcript : Transcript)
    (projectId : option string) (P : World → Prop) :
  stable (own transcript) P →
  (must = true → reliable env transcript) →
  reaches (own transcript) must (λ _, P)
    (insert_insights env transcript projectId (extracted env transcript)) P.
Proof.
  intros HP Hreliable. unfold insert_insights.
  destruct projectId as [pid|]; [|by intros w Hw].
  destruct (truthy (Some pid)) eqn:Htruthy; [|by intros w Hw].
  destruct (looped env (extracted env transcript)) as [e|items] eqn:Hlooped.
  - exists (λ _, P). split; [|split; [done | by intros _ w Hw]].
    intros w Hw. simpl. destruct must; [|done].
    destruct (reads_fine_inv transcript (Some pid) _
                (reliable_reads _ _ (Hreliable eq_refl) (Some pid)))
      as (_ & Hloop & _).
    destruct (Hloop Htruthy) as (items & Hitems & _). congruence.
  - apply reaches_for_each; [apply _ | done | |].
    + intros item. apply monotone_insert_insight.
    + intros Hmust. split; [|apply (reliable_insight _ _ (Hreliable Hmust))].
      destruct (reads_fine_inv transcript (Some pid) _
                  (reliable_reads _ _ (Hreliable Hmust) (Some pid)))
        as (_ & Hloop & _).
      destruct (Hloop Htruthy) as (items' & Hitems & Hall). congruence.
Qed.

(** A callback returns only when its meeting is recorded and its document
    published, and both stay so whatever the callbacks of the other ids do.
    With [must], for a transcript whose calls are reliable, it does
    return. *)
Lemma reaches_syncTranscript (must : bool) (transcript : Transcript) (w0 : World) :
  (must = true → reliable env transcript) →
  reaches (own transcript) must (synced env transcript w0) (syncTranscript env transcript)
    (λ w, projects w = projects w0).
Proof.
  intros Hreliable. unfold syncTranscript.
  set (pid0 := selected_project (tr_title transcript) w0).
  set (v := extracted env transcript).
  apply (reaches_step _ must _ _ _ _ (λ projectId _, projectId = pid0));
    [|by intros x w w' H _|].
  { intros w Hw.
    destruct (db_fault env w (SelectProjectForTitle (tr_title transcript)))
      as [e|] eqn:Hdb.
    - rewrite (associate_throws env _ w e Hdb). destruct must; [|done].
      by rewrite (reliable_select _ _ (Hreliable eq_refl)) in Hdb.
    - rewrite (associate_run env _ w Hdb). by apply selected_project_projects. }
  intros projectId.
  apply (reaches_step _ must _ _ _ _ (λ businessInsights _,
           projectId = pid0 ∧ businessInsights = v)); [|by intros x w w' H _|].
  { intros w Hw. by rewrite generateBusinessInsights_run. }
  intros businessInsights.
  apply (reaches_step _ must _ _ _ _ (λ _ w,
           (projectId = pid0 ∧ businessInsights = v) ∧ recorded env transcript w0 w)).
  { intros w [-> ->]. rewrite record_meeting_run.
    destruct (meeting_row transcript v pid0) as [e|row] eqn:Hrow.
    { destruct must; [|done].
      destruct (reads_fine_inv transcript pid0 _
                  (reliable_reads _ _ (Hreliable eq_refl) pid0))
        as ([row Hrow'] & _ & _).
      unfold v in Hrow. congruence. }
    cbv zeta. destruct (db_fault env (tick w) _) as [e|] eqn:Hdb.
    - destruct must; [|done].
      by rewrite (reliable_meeting _ _ (Hreliable eq_refl)) in Hdb.
    - split; [done|]. apply recorded_put_meeting. }
  { intros _ w w' [Heq Hrec] Hkept. split; [done|]. by eapply stable_recorded. }
  intros _.
  apply reaches_if; [apply stable_recorded|]. intros [-> ->].
  apply (reaches_bind _ must (λ _, recorded env transcript w0)).
  { by apply reaches_insert_insights; [apply stable_recorded|]. }
  intros _.
  apply (reaches_step _ must _ _ _ _
           (λ _ w, recorded env transcript w0 w ∧ published env transcript w0 w)).
  - intros w Hw. rewrite publish_document_run.
    destruct (markdown_head env transcript v pid0) as [e|head] eqn:Hhead.
    { destruct must; [|done].
      destruct (reads_fine_inv transcript pid0 _
                  (reliable_reads _ _ (Hreliable eq_refl) pid0))
        as (_ & _ & [head Hhead']).
      unfold v in Hhead. congruence. }
    cbv zeta. destruct (r2_fault env (tick w) _ _) as [e|] eqn:Hr2.
    + destruct must; [|done].
      by rewrite (reliable_put _ _ (Hreliable eq_refl)) in Hr2.
    + split.
      * destruct Hw as [n Hn]. exists n. by rewrite <- Hn.
      * apply (published_put_object transcript w0 (tick w) (reads w)).
        unfold document. fold pid0 v. by rewrite Hhead.
  - intros _ w w' [Hrec Hpub] Hkept.
    split; [by eapply stable_recorded | by eapply stable_published].
  - intros _ w [Hrec Hpub]. by split.
Qed.
End Outcomes.

(** ** A batch *)

Lemma sync_response (env : Env) (w w' : World) (ts : list Transcript)
    (results : list (Settled string)) :
  fireflies env = FetchJson (Some ts) →
  allSettled (schedule env) (syncTranscript env) ts w = (inr results, w') →
  handleEnhancedMeetingSync env "POST" w =
  (inr (mkResponse 200
          (BodySync (count_fulfilled results) (sync_message (count_fulfilled results))
             (length results * 2))), w').
Proof.
  intros Hfetch Hall. unfold handleEnhancedMeetingSync.
  rewrite bool_decide_eq_false_2 by (intros H; by apply H).
  rewrite run_try_catch.
  rewrite (run_bind_inr _ _ w w ts) by (unfold fetch_transcripts; by rewrite Hfetch).
  rewrite (run_bind_inr _ _ _ _ _ Hall).
  by rewrite (run_bind_inr _ _ _ _ _ (triggerAutoRAGSync_run env w')).
Qed.

Lemma keyed_by_same_id (env : Env) :
  meetings_conflict env = same_id → keyed_by_id env.
Proof. intros Heq new old. rewrite Heq. apply bool_decide_eq_true. Qed.

(** The callbacks of a batch, all of them: the worlds stay in their order
    and the meetings of the ids in [ids], none of which is in the batch, are
    left alone. *)
Lemma batch_steady (env : Env) (ids : string → Prop) (ts : list Transcript) :
  keyed_by_id env →
  Forall (λ b, ¬ ids (tr_id b)) ts →
  Forall (λ b, steady (kept ids) (λ id, id = tr_id b) (syncTranscript env b)) ts.
Proof.
  intros Hkey Hts. eapply Forall_impl; [exact Hts|].
  intros b Hb. by apply steady_syncTranscript.
Qed.



(** ** Syncing a transcript again *)

Lemma appended_rows_length (env : Env) (transcript : Transcript)
    (projectId : option string) (v : JValue) (n : nat) :
  length (appended_rows env transcript projectId v n) =
  if truthy projectId then length (looped_items env v) else 0%nat.
Proof.
  unfold appended_rows. destruct projectId as [pid|]; [|done].
  destruct (truthy (Some pid)); [|done]. apply inserted_rows_length.
Qed.

(** C2. When the pipeline has run twice on the same transcript id, the
    [meetings] table, which is keyed by the id, holds exactly one row of that
    id: after the first run the row of the first run, after the second run
    the row of the second one, with the title, date, duration and
    participants of its transcript, the fields of its extraction, its project
    and the time of its insertion. [project_insights] holds the rows it held
    before, then the rows of the first run, then those of the second: one row
    per insight that the loop of a run with a project goes through, none for
    a run without. *)
Theorem resync_replaces_meeting_and_appends_insights
    (env1 env2 : Env) (t1 t2 : Transcript) (w w1 w2 : World) (id1 id2 : string)
    (Hkey1 : keyed_by_id env1)
    (Hkey2 : keyed_by_id env2)
    (Hsame : tr_id t1 = tr_id t2)
    (Hfirst : to_end (syncTranscript env1 t1) w = (inr id1, w1))
    (Hsecond : to_end (syncTranscript env2 t2) w1 = (inr id2, w2)) :
  let p1 := selected_project (tr_title t1) w in
  let p2 := selected_project (tr_title t2) w1 in
  let new1 := appended_rows env1 t1 p1 (extracted env1 t1) (S (reads w)) in
  let new2 := appended_rows env2 t2 p2 (extracted env2 t2) (S (reads w1)) in
  rows_of (tr_id t1) w1 =
    [expected_meeting t1 (extracted env1 t1) p1 (JS.toISOString (clock env1 (reads w)))] ∧
  rows_of (tr_id t1) w2 =
    [expected_meeting t2 (extracted env2 t2) p2 (JS.toISOString (clock env2 (reads w1)))] ∧
  project_insights w1 = project_insights w ++ new1 ∧
  project_insights w2 = (project_insights w ++ new1) ++ new2 ∧
  length new1 = (if truthy p1 then length (looped_items env1 (extracted env1 t1))
                 else 0%nat) ∧
  length new2 = (if truthy p2 then length (looped_items env2 (extracted env2 t2))
                 else 0%nat).
Proof.
  destruct (syncTranscript_fulfilled env1 t1 w w1 id1 Hfirst) as (doc1 & _ & _ & Hw1).
  destruct (syncTranscript_fulfilled env2 t2 w1 w2 id2 Hsecond) as (doc2 & _ & _ & Hw2).
  cbv zeta. split; [|split; [|split; [|split; [|split]]]].
  - rewrite Hw1. unfold rows_of. simpl.
    apply (rows_of_insert_or_replace env1 Hkey1 (expected_meeting t1 _ _ _)).
  - rewrite Hw2, Hsame. unfold rows_of. simpl.
    apply (rows_of_insert_or_replace env2 Hkey2 (expected_meeting t2 _ _ _)).
  - by rewrite Hw1.
  - rewrite Hw2. simpl. by rewrite Hw1 at 1.
  - apply appended_rows_length.
  - apply appended_rows_length.
Qed.

(** The weekly sync, whose extraction has two insights, synced twice. *)
Lemma resync_replaces_meeting_and_appends_insights_sample :
  length (rows_of "t1" twice) = 1%nat ∧
  mr_created_at <$> rows_of "t1" twice = ["2023-11-14T22:13:20.004Z"] ∧
  mr_summary <$> rows_of "t1" twice = [Some (JString "Permit delay discussed.")] ∧
  length (project_insights once) = 2%nat ∧
  length (project_insights twice) = 4%nat ∧
  take 2 (project_insights twice) = project_insights once.
Proof.
  destruct (resync_replaces_meeting_and_appends_insights
              (eager ticking) (eager ticking) weekly_sync weekly_sync
              goodwill_world once twice "t1" "t1"
              (keyed_by_same_id (eager ticking) eq_refl)
              (keyed_by_same_id (eager ticking) eq_refl)
              eq_refl eq_refl eq_refl)
    as (Hrows1 & Hrows2 & Hins1 & Hins2 & Hlen1 & Hlen2).
  change (tr_id weekly_sync) with "t1" in *.
  rewrite Hrows2, Hins2, Hins1. repeat split.
Defined.

(** ** The rows of [project_insights] and their ids *)

(** Rows are inserted only under a project id that the association
    returned and that is not empty; each of them carries that project id and
    the id of its transcript. *)
Lemma insights_need_a_project (env : Env) (transcript : Transcript) (w : World) :
  ∃ rows,
    project_insights (snd (to_end (syncTranscript env transcript) w)) =
      project_insights w ++ rows ∧
    (truthy (selected_project (tr_title transcript) w) = false → rows = []) ∧
    Forall (λ r, selected_project (tr_title transcript) w = Some (pi_project_id r) ∧
                 pi_source_meeting_id r = tr_id transcript) rows.
Proof.
  destruct (syncTranscript_appends env transcript w) as (rows & Hrows & Hpre).
  exists rows. split; [done|].
  unfold appended_rows in Hpre.
  destruct (selected_project (tr_title transcript) w) as [pid|].
  2: { apply prefix_nil_inv in Hpre as ->. done. }
  destruct (truthy (Some pid)).
  2: { apply prefix_nil_inv in Hpre as ->. done. }
  split; [done|]. destruct Hpre as [rest Hrest].
  assert (Hall : ∀ n l, Forall (λ r, Some pid = Some (pi_project_id r) ∧
                                     pi_source_meeting_id r = tr_id transcript)
                          (inserted_rows env (tr_id transcript) pid n l)).
  { intros n l. revert n. induction l as [|i l IH]; intros n; simpl; constructor; auto. }
  specialize (Hall (S (reads w)) (looped_items env (extracted env transcript))).
  rewrite Hrest in Hall. by apply Forall_app in Hall as [? _].
Qed.

(** C8, at the failing input: one meeting with a project and two insights,
    synced while the clock stands within one millisecond. Both rows are
    inserted, under the same id. *)
Theorem insight_ids_collide_within_a_millisecond :
  let run := handleEnhancedMeetingSync (eager standing) "POST" goodwill_world in
  fst run = inr (mkResponse 200 (BodySync 1 (sync_message 1) 2)) ∧
  pi_title <$> project_insights (snd run) =
    [Some (JString "Permit delay"); Some (JString "No crane")] ∧
  pi_project_id <$> project_insights (snd run) = ["p-goodwill"; "p-goodwill"] ∧
  pi_id <$> project_insights (snd run) =
    ["insight_t1_1700000000000"; "insight_t1_1700000000000"].
Proof. vm_compute. repeat split. Qed.

(** With a clock that has moved on between the two inserts the ids differ. *)
Lemma insight_ids_differ_across_milliseconds :
  pi_id <$> project_insights
              (snd (handleEnhancedMeetingSync (eager ticking) "POST" goodwill_world)) =
    ["insight_t1_1700000000001"; "insight_t1_1700000000002"].
Proof. vm_compute. reflexivity. Qed.

(** ** Replies of the model that are not what the prompt asks for *)

(** A reply that is JSON, with [followUpRequired] as a text and a field
    more in its risk, is stored as it is: the sync counts the meeting, its
    row has the text, and its document is published. *)
Lemma loose_reply_is_synced :
  let run := handleEnhancedMeetingSync (replying loose_reply) "POST" goodwill_world in
  structurally_valid loose_reply = false ∧
  fst run = inr (mkResponse 200 (BodySync 1 (sync_message 1) 2)) ∧
  mr_follow_up_required <$> meetings (snd run) = [Some (JString "yes")] ∧
  is_Some (bucket (snd run) !! "meetings/meeting-t1.md").
Proof. vm_compute. repeat split. by eexists. Qed.

(** A reply without the list of insights: the row of the meeting is stored,
    then reading the [length] of the missing list throws. The meeting is not
    counted and has no document. *)
Lemma reply_without_insights_is_rejected_after_its_row :
  let run := handleEnhancedMeetingSync (replying no_insights_reply) "POST" goodwill_world in
  fst run = inr (mkResponse 200 (BodySync 0 (sync_message 0) 2)) ∧
  mr_id <$> meetings (snd run) = ["t1"] ∧
  bucket (snd run) = ∅ ∧
  fst (to_end (syncTranscript (replying no_insights_reply) weekly_sync) goodwill_world) =
    inl (TypeError "Cannot read properties of undefined (reading 'length')").
Proof. vm_compute. repeat split. Qed.

(** ** Project association *)

Lemma lower_ascii_idemp (c : ascii) : JS.lower_ascii (JS.lower_ascii c) = JS.lower_ascii c.
Proof. destruct c as [[] [] [] [] [] [] [] []]; reflexivity. Qed.

Lemma lower_ascii_percent (c : ascii) :
  Ascii.eqb (JS.lower_ascii c) "%" = Ascii.eqb c "%".
Proof. destruct c as [[] [] [] [] [] [] [] []]; reflexivity. Qed.

Lemma lower_ascii_underscore (c : ascii) :
  Ascii.eqb (JS.lower_ascii c) "_" = Ascii.eqb c "_".
Proof. destruct c as [[] [] [] [] [] [] [] []]; reflexivity. Qed.

Lemma lower_app (a b : string) : SQL.lower (a +:+ b) = SQL.lower a +:+ SQL.lower b.
Proof.
  unfold SQL.lower. induction a as [|c a IH]; [done|].
  rewrite app_cons. simpl. by rewrite IH.
Qed.

Lemma wildcard_free_lower (s : string) : wildcard_free (SQL.lower s) = wildcard_free s.
Proof.
  unfold SQL.lower. induction s as [|c s IH]; [done|]. simpl.
  by rewrite lower_ascii_percent, lower_ascii_underscore, IH.
Qed.

(** *** The characters of a string *)

Lemma bytes_cons (P : ascii → Prop) (b : ascii) (s : string) :
  bytes P (String b s) ↔ P b ∧ bytes P s.
Proof. unfold bytes. simpl. apply Forall_cons. Qed.

Lemma bytes_closed (P : ascii → Prop) (open : option (list ascii)) :
  from_option (Forall P) True open → Forall (bytes P) (JS.closed open).
Proof.
  destruct open as [l|]; simpl; [|constructor].
  intros Hl. constructor; [|constructor]. unfold bytes.
  rewrite String.list_ascii_of_string_of_list_ascii. by apply Forall_reverse.
Qed.

Lemma bytes_characters_from (P : ascii → Prop) (open : option (list ascii)) (s : string) :
  from_option (Forall P) True open → bytes P s →
  Forall (bytes P) (JS.characters_from open s).
Proof.
  revert open. induction s as [|b s IH]; intros open Hopen Hs; cbn [JS.characters_from].
  - by apply bytes_closed.
  - apply bytes_cons in Hs as [Hb Hs].
    assert (Hone : bytes P (String b EmptyString)).
    { apply bytes_cons. split; [done | constructor]. }
    destruct (JS.is_continuation b).
    + destruct open as [l|].
      * apply IH; [|done]. simpl in *. by constructor.
      * constructor; [done|]. by apply IH.
    + apply Forall_app. split; [by apply bytes_closed|].
      destruct (192 <=? nat_of_ascii b)%nat.
      * apply IH; [|done]. simpl. by repeat constructor.
      * constructor; [done|]. by apply IH.
Qed.

Lemma bytes_characters (P : ascii → Prop) (s : string) :
  bytes P s → Forall (bytes P) (JS.characters s).
Proof. by apply bytes_characters_from. Qed.

Lemma bytes_lower (s : string) :
  bytes (λ b, JS.lower_ascii b = b) (SQL.lower s).
Proof.
  unfold SQL.lower. induction s as [|c s IH]; [constructor|]. simpl.
  apply bytes_cons. split; [apply lower_ascii_idemp | done].
Qed.

Lemma lower_fixed (c : string) :
  bytes (λ b, JS.lower_ascii b = b) c → SQL.lower c = c.
Proof.
  unfold SQL.lower. induction c as [|b c IH]; [done|].
  intros [Hb Hc]%bytes_cons. simpl. by rewrite Hb, IH.
Qed.

Lemma bytes_wildcard_free (s : string) :
  wildcard_free s = true → bytes (λ b, b ≠ "%"%char ∧ b ≠ "_"%char) s.
Proof.
  induction s as [|c s IH]; [constructor|]. simpl.
  intros [[Hp Hu]%andb_true_iff Hs]%andb_true_iff.
  apply bytes_cons. split; [|by apply IH].
  apply negb_true_iff in Hp, Hu. split; intros ->; by rewrite Ascii.eqb_refl in *.
Qed.

Lemma no_wildcard_character (c : string) :
  bytes (λ b, b ≠ "%"%char ∧ b ≠ "_"%char) c →
  String.eqb c "%" = false ∧ String.eqb c "_" = false.
Proof.
  intros Hc. split; apply String.eqb_neq; intros ->;
    apply bytes_cons in Hc as [[? ?] _]; done.
Qed.

Lemma characters_from_percent (open : option (list ascii)) (s : string) :
  JS.characters_from open (s +:+ "%") = JS.characters_from open s ++ ["%"].
Proof.
  revert open. induction s as [|b s IH]; intros open.
  - by destruct open.
  - rewrite app_cons. cbn [JS.characters_from]. destruct (JS.is_continuation b).
    + destruct open as [l|]; [apply IH|]. by rewrite IH.
    + rewrite <- (assoc_L (++)). f_equal.
      destruct (192 <=? nat_of_ascii b)%nat; [apply IH|]. by rewrite IH.
Qed.

Lemma characters_pattern (s : string) :
  JS.characters ("%" +:+ s +:+ "%") = "%" :: JS.characters s ++ ["%"].
Proof.
  unfold JS.characters. change ("%" +:+ s +:+ "%") with (String "%" (s +:+ "%")).
  cbn [JS.characters_from].
  change (JS.is_continuation "%") with false.
  change (192 <=? nat_of_ascii "%")%nat with false.
  cbn [JS.closed app]. by rewrite characters_from_percent.
Qed.

(** *** LIKE *)

Lemma like_percent (pattern t : list string) :
  SQL.like_characters ("%" :: pattern) t =
  SQL.like_characters pattern t ||
  match t with
  | [] => false
  | _ :: t' => SQL.like_characters ("%" :: pattern) t'
  end.
Proof. by destruct t. Qed.

Lemma like_cons (p : string) (pattern : list string) (c : string) (t : list string) :
  String.eqb p "%" = false →
  SQL.like_characters (p :: pattern) (c :: t) =
  (String.eqb p "_" || String.eqb (SQL.lower p) (SQL.lower c))
  && SQL.like_characters pattern t.
Proof. intros Hp. simpl. by rewrite Hp. Qed.

Lemma like_percent_only (t : list string) : SQL.like_characters ["%"] t = true.
Proof. induction t as [|c t IH]; [done|]. rewrite like_percent. by destruct t. Qed.

(** A text that starts with the pattern taken literally matches the pattern
    followed by [%], whatever wildcards the pattern holds. *)
Lemma starts_with_like (q t : list string) :
  starts_with q t = true → SQL.like_characters (q ++ ["%"]) t = true.
Proof.
  revert t. induction q as [|p q IH]; intros t Hstart.
  - apply like_percent_only.
  - destruct t as [|c t]; [done|]. simpl in Hstart.
    apply andb_true_iff in Hstart as [Hpc Hrest].
    apply String.eqb_eq in Hpc as <-.
    change ((p :: q) ++ ["%"]) with (p :: (q ++ ["%"])).
    destruct (String.eqb p "%") eqn:Hp.
    + apply String.eqb_eq in Hp as ->. rewrite like_percent.
      apply orb_true_iff. right. rewrite like_percent. by rewrite (IH t Hrest).
    + rewrite like_cons by done. rewrite (IH t Hrest), String.eqb_refl.
      by rewrite orb_true_r.
Qed.

Lemma includes_like (q t : list string) :
  includes q t = true → SQL.like_characters ("%" :: q ++ ["%"]) t = true.
Proof.
  induction t as [|c t IH]; intros Hin; rewrite like_percent.
  - simpl in Hin. rewrite orb_false_r in Hin. by rewrite starts_with_like.
  - simpl in Hin. apply orb_true_iff in Hin as [Hstart|Hrest].
    + by rewrite starts_with_like.
    + rewrite (IH Hrest). by rewrite orb_true_r.
Qed.

(** For a lower-case pattern without wildcards and a lower-case text, the
    match is the literal one. *)
Lemma like_starts_with (q t : list string) :
  Forall (bytes (λ b, b ≠ "%"%char ∧ b ≠ "_"%char)) q →
  Forall (bytes (λ b, JS.lower_ascii b = b)) q →
  Forall (bytes (λ b, JS.lower_ascii b = b)) t →
  SQL.like_characters (q ++ ["%"]) t = starts_with q t.
Proof.
  revert t. induction q as [|p q IH]; intros t Hfree Hq Ht.
  - apply like_percent_only.
  - apply Forall_cons in Hfree as [Hp Hfree]. apply Forall_cons in Hq as [Hpl Hq].
    destruct (no_wildcard_character p Hp) as [Hpercent Hunder].
    change ((p :: q) ++ ["%"]) with (p :: (q ++ ["%"])).
    destruct t as [|c t]; [by simpl; rewrite Hpercent|].
    apply Forall_cons in Ht as [Hcl Ht].
    rewrite like_cons by done.
    rewrite Hunder, (lower_fixed p Hpl), (lower_fixed c Hcl). simpl.
    by rewrite (IH t Hfree Hq Ht).
Qed.

Lemma like_includes (q t : list string) :
  Forall (bytes (λ b, b ≠ "%"%char ∧ b ≠ "_"%char)) q →
  Forall (bytes (λ b, JS.lower_ascii b = b)) q →
  Forall (bytes (λ b, JS.lower_ascii b = b)) t →
  SQL.like_characters ("%" :: q ++ ["%"]) t = includes q t.
Proof.
  intros Hfree Hq.
  induction t as [|c t IH]; intros Ht; rewrite like_percent.
  - simpl. by rewrite like_starts_with.
  - pose proof Ht as Ht0. apply Forall_cons in Ht as [Hc Ht']. simpl includes.
    rewrite (IH Ht'). f_equal. by apply like_starts_with.
Qed.

Lemma lower_like_contains_pattern (title keyword : string) :
  lower_like_contains title (Some keyword) =
  SQL.like_characters ("%" :: JS.characters (SQL.lower keyword) ++ ["%"])
    (JS.characters (SQL.lower title)).
Proof.
  unfold lower_like_contains, SQL.like.
  by rewrite !lower_app, characters_pattern.
Qed.

(** A keyword that occurs in the title matches it. *)
Lemma title_contains_matches (title keyword : string) :
  title_contains title keyword = true →
  lower_like_contains title (Some keyword) = true.
Proof. rewrite lower_like_contains_pattern. apply includes_like. Qed.

(** For a keyword without wildcards, to match is to occur. *)
Lemma matches_iff_title_contains (title keyword : string) :
  wildcard_free keyword = true →
  lower_like_contains title (Some keyword) = title_contains title keyword.
Proof.
  intros Hfree. rewrite lower_like_contains_pattern. apply like_includes.
  - apply bytes_characters, bytes_wildcard_free. by rewrite wildcard_free_lower.
  - apply bytes_characters, bytes_lower.
  - apply bytes_characters, bytes_lower.
Qed.

Lemma names_project_matches (title : string) (p : Project) :
  names_project title p = true → project_matches title p = true.
Proof.
  unfold names_project, project_matches. intros H.
  apply orb_true_iff in H as [H|H]; apply orb_true_iff.
  - left. by apply title_contains_matches.
  - right. destruct (autorag_project_tag p); [|done]. by apply title_contains_matches.
Qed.

Lemma project_matches_names (title : string) (p : Project) :
  keywords_wildcard_free p = true →
  project_matches title p = names_project title p.
Proof.
  unfold keywords_wildcard_free, names_project, project_matches. intros H.
  apply andb_true_iff in H as [Hname Htag].
  rewrite matches_iff_title_contains by done. f_equal.
  destruct (autorag_project_tag p); [|done]. by apply matches_iff_title_contains.
Qed.

Lemma desc_transitive {A} (key : A → Z) : Transitive (desc key).
Proof. intros a b c Hab Hbc. unfold desc in *. lia. Qed.

Lemma desc_total {A} (key : A → Z) : Total (desc key).
Proof. intros a b. unfold desc. lia. Qed.

#[export] Existing Instances desc_transitive desc_total.

(** [ORDER BY key DESC LIMIT 1] is empty on no rows and otherwise a row
    whose key no other row exceeds. *)
Lemma order_by_desc_head {A} (key : A → Z) (rows : list A) :
  match take 1 (order_by_desc key rows) with
  | [] => rows = []
  | r :: rest => rest = [] ∧ r ∈ rows ∧ ∀ q, q ∈ rows → key q ≤ key r
  end.
Proof.
  unfold order_by_desc.
  pose proof (merge_sort_Permutation (desc key) rows) as Hperm.
  pose proof (StronglySorted_merge_sort (desc key) rows) as Hsorted.
  destruct (merge_sort (desc key) rows) as [|r sorted]; simpl.
  - by apply Permutation_nil_l in Hperm.
  - split; [by destruct sorted|]. split.
    + rewrite <- Hperm. by left.
    + intros q Hq. rewrite <- Hperm in Hq.
      apply StronglySorted_inv in Hsorted as [_ Hall].
      apply elem_of_cons in Hq as [->|Hq]; [done|].
      rewrite Forall_forall in Hall. by apply Hall.
Qed.

Lemma selected_project_spec (title : string) (w : World) :
  match selected_project title w with
  | None => ∀ p, p ∈ projects w → project_matches title p = false
  | Some id =>
      ∃ r, r ∈ projects w ∧ p_id r = id ∧ project_matches title r = true ∧
           ∀ q, q ∈ projects w → project_matches title q = true →
                p_updated_at q ≤ p_updated_at r
  end.
Proof.
  unfold selected_project, select_project.
  pose proof (order_by_desc_head p_updated_at
                (filter (λ p, project_matches title p = true) (projects w))) as Hhead.
  destruct (take 1 _) as [|r rest].
  - intros p Hp. destruct (project_matches title p) eqn:Hm; [|done].
    assert (Hin : p ∈ filter (λ p, project_matches title p = true) (projects w))
      by by apply list_elem_of_filter.
    rewrite Hhead in Hin. by apply elem_of_nil in Hin.
  - destruct Hhead as (_ & Hr & Hmax). apply list_elem_of_filter in Hr as [Hm Hr].
    exists r. repeat split; try done.
    intros q Hq Hqm. apply Hmax. by apply list_elem_of_filter.
Qed.

(** C7 (as the code has it). When its query does not throw, the matcher returns
    null exactly when no project matches the title, a project matching when
    the pattern [%name%] or [%alias%] does, letters of either case alike and
    with [%] and [_] in the name or alias read as wildcards. Otherwise it
    returns the id of a matching project that no other matching project
    exceeds in [updated_at]. A project whose name or alias occurs in the title
    matches, so the result is then not null; and when no name or alias holds
    a wildcard, the result is null exactly when the title contains none of
    them. *)
Theorem association_returns_latest_match (env : Env) (title : string) (w : World)
    (Hdb : db_fault env w (SelectProjectForTitle title) = None) :
  ∃ result,
    associateTranscriptWithProject env title w = (inr result, w) ∧
    (result = None ↔ ∀ p, p ∈ projects w → project_matches title p = false) ∧
    (∀ id, result = Some id →
       ∃ r, r ∈ projects w ∧ p_id r = id ∧ project_matches title r = true ∧
            ∀ q, q ∈ projects w → project_matches title q = true →
                 p_updated_at q ≤ p_updated_at r) ∧
    (∀ p, p ∈ projects w → names_project title p = true → result ≠ None) ∧
    ((∀ p, p ∈ projects w → keywords_wildcard_free p = true) →
     (result = None ↔ ∀ p, p ∈ projects w → names_project title p = false)).
Proof.
  exists (selected_project title w). split; [by apply associate_run|].
  pose proof (selected_project_spec title w) as Hspec.
  assert (Hnone : selected_project title w = None ↔
                  ∀ p, p ∈ projects w → project_matches title p = false).
  { destruct (selected_project title w) as [id|]; [|done].
    split; [done|]. intros Hno. destruct Hspec as (r & Hr & _ & Hm & _).
    rewrite (Hno r Hr) in Hm. done. }
  split; [done|]. split; [|split].
  - intros id Hid. by rewrite Hid in Hspec.
  - intros p Hp Hnames Hres. pose proof (proj1 Hnone Hres p Hp) as Hm.
    by rewrite (names_project_matches title p Hnames) in Hm.
  - intros Hfree. rewrite Hnone. split; intros Hno p Hp.
    + rewrite <- project_matches_names by auto. auto.
    + rewrite project_matches_names by auto. auto.
Qed.

Lemma association_returns_latest_match_sample :
  ∃ result,
    associateTranscriptWithProject (eager ticking) "Goodwill Weekly Sync" goodwill_world =
      (inr result, goodwill_world) ∧
    result = Some "p-goodwill".
Proof.
  destruct (association_returns_latest_match (eager ticking) "Goodwill Weekly Sync"
              goodwill_world eq_refl) as (result & Hrun & _).
  exists result. split; [done|]. vm_compute in Hrun. by injection Hrun.
Defined.

(** C7, the counterexample: the title contains neither the name nor an alias
    of any project, and the matcher returns a project, because the [_] of
    the name "Phase_2" matches the space of "Phase 2". *)
Lemma wildcard_name_matches_other_title :
  names_project "Phase 2 kickoff" <$> projects phase_two_world = [false] ∧
  associateTranscriptWithProject (eager ticking) "Phase 2 kickoff" phase_two_world =
    (inr (Some "p-phase2"), phase_two_world).
Proof. split; vm_compute; reflexivity. Qed.

(** The wildcard [_] stands for one character, of however many bytes: the
    name "Caf_s" matches a title with an accented letter in its place. *)
Lemma wildcard_matches_one_character :
  names_project cafes_du_monde <$> projects cafes_world = [false] ∧
  associateTranscriptWithProject (eager ticking) cafes_du_monde cafes_world =
    (inr (Some "cafe"), cafes_world).
Proof. split; vm_compute; reflexivity. Qed.


(** ** The order of texts *)

Lemma string_leb_trans (a b c : string) :
  String.leb a b = true → String.leb b c = true → String.leb a c = true.
Proof.
  revert b c. induction a as [|x a IH]; intros [|y b] [|z c]; unfold String.leb;
    simpl; try done.
  unfold Ascii.compare.
  destruct (N.compare_spec (N_of_ascii x) (N_of_ascii y)) as [Hxy|Hxy|Hxy];
    destruct (N.compare_spec (N_of_ascii y) (N_of_ascii z)) as [Hyz|Hyz|Hyz];
    try done.
  - rewrite Hxy, Hyz, N.compare_refl. apply IH.
  - rewrite Hxy. by rewrite (proj2 (N.compare_lt_iff _ _) Hyz).
  - rewrite <- Hyz. by rewrite (proj2 (N.compare_lt_iff _ _) Hxy).
  - intros _ _. by rewrite (proj2 (N.compare_lt_iff _ _) (N.lt_trans _ _ _ Hxy Hyz)).
Qed.

Lemma text_desc_transitive {A} (key : A → string) : Transitive (text_desc key).
Proof. intros a b c Hab Hbc. unfold text_desc in *. by eapply string_leb_trans. Qed.

Lemma text_desc_total {A} (key : A → string) : Total (text_desc key).
Proof. intros a b. unfold text_desc. destruct (String.leb_total (key b) (key a)); auto. Qed.

Lemma text_asc_transitive {A} (key : A → string) : Transitive (text_asc key).
Proof. intros a b c Hab Hbc. unfold text_asc in *. by eapply string_leb_trans. Qed.

Lemma text_asc_total {A} (key : A → string) : Total (text_asc key).
Proof. intros a b. unfold text_asc. apply String.leb_total. Qed.

#[export] Existing Instances text_desc_transitive text_desc_total
  text_asc_transitive text_asc_total.

(** ** The dashboard *)

Lemma StronglySorted_take {A} (R : relation A) (n : nat) (l : list A) :
  StronglySorted R l → StronglySorted R (take n l).
Proof.
  intros Hl. revert n. induction Hl as [|x l Hl IH Hx]; intros [|n]; simpl;
    try constructor; [apply IH|].
  apply Forall_take. done.
Qed.

(** [ORDER BY .. LIMIT n] over the rows that pass the WHERE clause. *)
Lemma top_rows_select {A} (n : nat) (wanted : A → Prop) `{!∀ x, Decision (wanted x)}
    (before : relation A) `{!RelDecision before, !Transitive before, !Total before}
    (all : list A) :
  top_rows n wanted before all (take n (merge_sort before (filter wanted all))).
Proof.
  set (rows := filter wanted all).
  pose proof (merge_sort_Permutation before rows) as Hperm.
  pose proof (StronglySorted_merge_sort before rows) as Hsorted.
  split.
  - rewrite length_take. lia.
  - apply Forall_take. rewrite Hperm. apply Forall_forall. intros x Hx.
    by apply list_elem_of_filter in Hx as [? ?].
  - etrans; [apply sublist_submseteq, sublist_take|].
    rewrite Hperm. apply sublist_submseteq, sublist_filter.
  - by apply StronglySorted_take.
  - intros x Hx Hwanted.
    assert (Hin : x ∈ merge_sort before rows).
    { rewrite Hperm. by apply list_elem_of_filter. }
    rewrite <- (take_drop n (merge_sort before rows)) in Hin, Hsorted.
    apply elem_of_app in Hin as [Hin|Hin]; [by left|]. right. split.
    + rewrite length_take. apply Nat.min_l.
      destruct (decide (n ≤ length (merge_sort before rows))%nat) as [|Hshort]; [done|].
      rewrite drop_ge in Hin by lia. by apply elem_of_nil in Hin.
    + apply Forall_forall. intros y Hy.
      by eapply StronglySorted_app_1_elem_of.
Qed.

Lemma top_rows_iff {A} (n : nat) (wanted wanted' : A → Prop) (before : relation A)
    (all listed : list A) :
  (∀ x, wanted x ↔ wanted' x) →
  top_rows n wanted before all listed → top_rows n wanted' before all listed.
Proof.
  intros Hiff [H1 H2 H3 H4 H5]. split; try done.
  - eapply Forall_impl; [exact H2|]. intros x. apply Hiff.
  - intros x Hx Hw. apply H5; [done|]. by apply Hiff.
Qed.

(** Nothing is listed when no row is wanted. *)
Lemma top_rows_none {A} (n : nat) (wanted : A → Prop) (before : relation A)
    (all listed : list A) :
  top_rows n wanted before all listed →
  (∀ x, x ∈ all → ¬ wanted x) → listed = [].
Proof.
  intros [_ Hwanted Hrows _ _] Hnone. destruct listed as [|x listed]; [done|].
  apply Forall_cons in Hwanted as [Hx _]. destruct (Hnone x); [|done].
  eapply elem_of_submseteq; [|exact Hrows]. by left.
Qed.

Lemma above_iff (cell : Value) (day : string) :
  SQL.above cell day = true ↔
  ∃ text_, cell = Some (JString text_) ∧ String.ltb day text_ = true.
Proof.
  split.
  - destruct cell as [[| | |s| |]|]; simpl; try done. intros H. by exists s.
  - by intros (s & -> & H).
Qed.

Section Dashboard.
Context (env : Env).

Lemma generateExecutiveSummary_inv (p : DashboardRow) (insights_ : list InsightRow)
    (meetings_ : list MeetingRow) (w w' : World) (s : Text) :
  generateExecutiveSummary env p insights_ meetings_ w = (inr s, w') →
  w' = w ∧ is_summary env p insights_ meetings_ s.
Proof.
  unfold generateExecutiveSummary, is_summary, ai, fallback_summary.
  rewrite run_bind, lift_run.
  destruct (executive_summary_prompt env p insights_ meetings_) as [e|prompt]; [done|].
  rewrite run_try_catch, run_bind.
  destruct (ai_run env prompt) as [e|reply] eqn:Hai.
  - cbn [throw]. rewrite run_bind, lift_run.
    destruct (pd_timeline_status p) as [timeline_status|]; [|done].
    intros [= <- <-]. split; [done|]. exists prompt. split; [done|]. right.
    by exists e, timeline_status.
  - intros [= <- <-]. split; [done|]. exists prompt. split; [done|]. by left.
Qed.

Lemma generateExecutiveSummary_world (p : DashboardRow) (insights_ : list InsightRow)
    (meetings_ : list MeetingRow) (w : World) :
  snd (generateExecutiveSummary env p insights_ meetings_ w) = w.
Proof.
  unfold generateExecutiveSummary, ai, fallback_summary.
  rewrite run_bind, lift_run.
  destruct (executive_summary_prompt env p insights_ meetings_) as [e|prompt]; [done|].
  rewrite run_try_catch, run_bind.
  destruct (ai_run env prompt) as [e|reply]; [|done].
  cbn [throw]. rewrite run_bind, lift_run.
  by destruct (pd_timeline_status p).
Qed.

Lemma generateExecutiveSummary_available (p : DashboardRow) (insights_ : list InsightRow)
    (meetings_ : list MeetingRow) (w : World) (prompt : string) :
  executive_summary_prompt env p insights_ meetings_ = inr prompt →
  (∃ reply, ai_run env prompt = AiResponse reply) ∨ is_Some (pd_timeline_status p) →
  ∃ s, generateExecutiveSummary env p insights_ meetings_ w = (inr s, w).
Proof.
  intros Hprompt Hcases. unfold generateExecutiveSummary, ai, fallback_summary.
  rewrite run_bind, lift_run, Hprompt, run_try_catch, run_bind.
  destruct (ai_run env prompt) as [e|reply] eqn:Hai; [|by eexists].
  destruct Hcases as [[reply Hreply]|[status_ Hstatus]]; [done|].
  cbn [throw]. rewrite run_bind, lift_run, Hstatus. by eexists.
Qed.

Lemma parse_or_empty_inv (cell : option Text) (w w' : World) (v : JValue) :
  parse_or_empty cell w = (inr v, w') →
  w' = w ∧ v = parsed_cell cell ∧ cell_parses cell = true.
Proof. destruct cell as [[x|[|c s]]|]; intros [= <- <-]; done. Qed.

Lemma parse_or_empty_world (cell : option Text) (w : World) :
  snd (parse_or_empty cell w) = w.
Proof. by destruct cell as [[x|[|c s]]|]. Qed.

Lemma parse_or_empty_run (cell : option Text) (w : World) :
  cell_parses cell = true →
  parse_or_empty cell w = (inr (parsed_cell cell), w).
Proof. by destruct cell as [[v|[|c s]]|]. Qed.

Lemma dash_meeting_inv (m : MeetingRow) (w w' : World) (view : DashMeeting) :
  dash_meeting m w = (inr view, w') → w' = w ∧ view = dash_view m.
Proof.
  unfold dash_meeting. intros H.
  apply bind_inr in H as (a & w1 & Ha & H). apply parse_or_empty_inv in Ha as (-> & -> & _).
  apply bind_inr in H as (r & w2 & Hr & H). apply parse_or_empty_inv in Hr as (-> & -> & _).
  by injection H as <- <-.
Qed.

Lemma dash_meetings_inv (l : list MeetingRow) (w w' : World) (view : list DashMeeting) :
  map_M dash_meeting l w = (inr view, w') → w' = w ∧ view = dash_view <$> l.
Proof.
  revert w w' view. induction l as [|m l IH]; intros w w' view.
  - by intros [= <- <-].
  - cbn [map_M]. intros H.
    apply bind_inr in H as (y & w1 & Hy & H). apply dash_meeting_inv in Hy as [-> ->].
    apply bind_inr in H as (ys & w2 & Hys & H). apply IH in Hys as [-> ->].
    by injection H as <- <-.
Qed.

Lemma dash_meetings_run (l : list MeetingRow) (w : World) :
  Forall (λ m, cell_parses (mr_action_items_json m) = true ∧
               cell_parses (mr_ai_risk_flags m) = true) l →
  map_M dash_meeting l w = (inr (dash_view <$> l), w).
Proof.
  induction 1 as [|m l [Ha Hr] Hl IH]; [done|]. cbn [map_M].
  rewrite (run_bind_inr _ _ w w (dash_view m)).
  - by rewrite (run_bind_inr _ _ _ _ _ IH).
  - unfold dash_meeting.
    rewrite (run_bind_inr _ _ _ _ _ (parse_or_empty_run _ w Ha)).
    by rewrite (run_bind_inr _ _ _ _ _ (parse_or_empty_run _ w Hr)).
Qed.

Lemma db_all_inv {A} (s : Stmt) (query : World → list A) (w w' : World) (rows : list A) :
  db_all env s query w = (inr rows, w') → w' = w ∧ rows = query w.
Proof. unfold db_all. destruct (db_fault env w s); [done|]. by intros [= <- <-]. Qed.

Lemma db_all_run {A} (s : Stmt) (query : World → list A) (w : World) :
  db_fault env w s = None → db_all env s query w = (inr (query w), w).
Proof. intros H. unfold db_all. by rewrite H. Qed.

Lemma select_project_dashboard_nil (id : string) (w : World) :
  select_project_dashboard id w = [] ↔ ∀ r, r ∈ project_dashboard w → pd_id r ≠ id.
Proof.
  unfold select_project_dashboard. split.
  - intros Hnil r Hr Hid.
    assert (Hin : r ∈ filter (λ r, pd_id r = id) (project_dashboard w))
      by by apply list_elem_of_filter.
    rewrite Hnil in Hin. by apply elem_of_nil in Hin.
  - intros Hno. induction (project_dashboard w) as [|x l IH]; [done|].
    rewrite filter_cons_False by (apply Hno; by left).
    apply IH. intros y Hy. apply Hno. by right.
Qed.

Lemma select_recent_meetings_top (id : string) (w : World) :
  top_rows 5 (λ m, mr_project_id m = Some id ∧ passes_date_filter env w m)
    (text_desc date_text) (meetings w) (select_recent_meetings env id w).
Proof.
  eapply top_rows_iff; [|apply (top_rows_select 5 (is_recent env id w)); apply _].
  intros m. unfold is_recent, passes_date_filter. by rewrite above_iff.
Qed.

Lemma select_project_insights_top (id : string) (w : World) :
  top_rows 10 (λ r, pi_project_id r = id) (desc pi_extracted_at) (project_insights w)
    (select_project_insights id w).
Proof. apply top_rows_select; apply _. Qed.

(** The dashboard of an existing project, step by step. *)
Lemma handleProjectDashboard_found (id : string) (w : World) (p : DashboardRow)
    (rest : list DashboardRow) :
  id ≠ "" →
  db_fault env w (SelectProjectDashboard id) = None →
  select_project_dashboard id w = p :: rest →
  handleProjectDashboard env (Some id) w =
  (insights_ ← db_all env (SelectProjectInsights id) (select_project_insights id);
   recent ← db_all env (SelectRecentMeetings id) (select_recent_meetings env id);
   taskStats ← db_all env (SelectTaskStats id) (select_task_stats id);
   recent_view ← map_M dash_meeting recent;
   executive ← generateExecutiveSummary env p insights_ recent;
   mret (mkResponse 200
           (BodyDashboard
              (mkDashboard p (dash_insight <$> insights_) recent_view
                 taskStats executive)))) w.
Proof.
  intros Hid Hdb Hrows. destruct id as [|c s]; [done|].
  unfold handleProjectDashboard.
  by rewrite (run_bind_inr _ _ w w (p :: rest)) by (by rewrite db_all_run, Hrows).
Qed.

Lemma handleProjectDashboard_not_found (id : string) (w : World) :
  id ≠ "" →
  db_fault env w (SelectProjectDashboard id) = None →
  select_project_dashboard id w = [] →
  handleProjectDashboard env (Some id) w =
  (inr (mkResponse 404 (BodyError "Project not found")), w).
Proof.
  intros Hid Hdb Hnil. destruct id as [|c s]; [done|].
  unfold handleProjectDashboard.
  rewrite (run_bind_inr _ _ w w []); [done|].
  by rewrite db_all_run, Hnil.
Qed.
End Dashboard.

Lemma those_total {A B} (f : A → Exn + B) (l : list A) :
  Forall (λ x, succeeds (f x) = true) l → ∃ values, those (f <$> l) = inr values.
Proof.
  induction 1 as [|x l Hx Hl [values IH]]; [by exists []|].
  rewrite fmap_cons. cbn [those]. destruct (f x) as [e|b]; [done|].
  rewrite IH. by eexists.
Qed.

Section Dashboard_view.
Context (env : Env).

Lemma executive_summary_prompt_total (p : DashboardRow) (insights_ : list InsightRow)
    (meetings_ : list MeetingRow) :
  Forall (λ r, succeeds (text_of env (pi_title r)) = true) insights_ →
  ∃ prompt, executive_summary_prompt env p insights_ meetings_ = inr prompt.
Proof.
  intros Htitles. unfold executive_summary_prompt, joined_titles.
  destruct (those_total
              (λ r, match pi_title r with
                    | None | Some JNull => inr ""
                    | Some v => to_string env v
                    end) (take 3 insights_)) as [titles ->]; [|by eexists].
  apply Forall_take. eapply Forall_impl; [exact Htitles|].
  intros r Hr. cbv beta in Hr.
  destruct (pi_title r) as [[| | | | |]|]; try done; exact Hr.
Qed.

(** What the dashboard answers for an existing project is a view of it. *)
Lemma dashboard_view (id : string) (w w' : World) (p : DashboardRow)
    (rest : list DashboardRow) (resp : Response) :
  id ≠ "" →
  db_fault env w (SelectProjectDashboard id) = None →
  select_project_dashboard id w = p :: rest →
  handleProjectDashboard env (Some id) w = (inr resp, w') →
  w' = w ∧
  ∃ d, resp = mkResponse 200 (BodyDashboard d) ∧ well_formed_view env id w d.
Proof.
  intros Hid Hdb Hrows. rewrite (handleProjectDashboard_found env id w p rest) by done.
  intros H.
  apply bind_inr in H as (insights_ & w1 & Hi & H). apply db_all_inv in Hi as [-> ->].
  apply bind_inr in H as (recent & w2 & Hm & H). apply db_all_inv in Hm as [-> ->].
  apply bind_inr in H as (stats & w3 & Ht & H). apply db_all_inv in Ht as [-> ->].
  apply bind_inr in H as (view & w4 & Hv & H). apply dash_meetings_inv in Hv as [-> ->].
  apply bind_inr in H as (s & w5 & Hs & H).
  apply generateExecutiveSummary_inv in Hs as [-> Hs].
  injection H as <- <-. split; [done|]. eexists. split; [reflexivity|].
  exists (select_project_insights id w), (select_recent_meetings env id w). simpl.
  split.
  { assert (Hin : p ∈ select_project_dashboard id w) by (rewrite Hrows; by left).
    by apply list_elem_of_filter in Hin as [? ?]. }
  split; [done|]. split; [apply select_project_insights_top|].
  split; [done|]. split; [apply select_recent_meetings_top | done].
Qed.

(** The dashboard answers when its reads succeed, the stored texts can be
    read and the summary can be made. *)
Lemma dashboard_answers (id : string) (w : World) (p : DashboardRow)
    (rest : list DashboardRow) :
  id ≠ "" →
  select_project_dashboard id w = p :: rest →
  reads_succeed env id w → cells_parse env id w → summary_available env id w →
  ∃ d, handleProjectDashboard env (Some id) w =
         (inr (mkResponse 200 (BodyDashboard d)), w).
Proof.
  intros Hid Hrows (Hd & Hi & Hm & Ht) Hcells [Htitles Hsummary].
  rewrite (handleProjectDashboard_found env id w p rest) by done.
  rewrite (run_bind_inr _ _ _ _ _ (db_all_run env _ _ w Hi)).
  rewrite (run_bind_inr _ _ _ _ _ (db_all_run env _ _ w Hm)).
  rewrite (run_bind_inr _ _ _ _ _ (db_all_run env _ _ w Ht)).
  destruct (select_recent_meetings_top env id w) as [_ Hwanted Hsub _ _].
  destruct (select_project_insights_top id w) as [_ Hwanted' Hsub' _ _].
  assert (Hparse : Forall (λ m, cell_parses (mr_action_items_json m) = true ∧
                                cell_parses (mr_ai_risk_flags m) = true)
                     (select_recent_meetings env id w)).
  { apply Forall_forall. intros m Hin.
    rewrite Forall_forall in Hwanted. destruct (Hwanted m Hin) as [Hp Hdate].
    apply Hcells; [|done..]. by eapply elem_of_submseteq. }
  rewrite (run_bind_inr _ _ _ _ _ (dash_meetings_run _ w Hparse)).
  destruct (executive_summary_prompt_total p (select_project_insights id w)
              (select_recent_meetings env id w)) as [prompt Hprompt].
  { apply Forall_forall. intros r Hin. rewrite Forall_forall in Hwanted'.
    apply Htitles; [by eapply elem_of_submseteq | by apply Hwanted']. }
  destruct (generateExecutiveSummary_available env p _ _ w prompt Hprompt) as [s Hs].
  { destruct Hsummary as [Hreplies|Hstatus]; [left; apply Hreplies|right].
    assert (Hin : p ∈ select_project_dashboard id w) by (rewrite Hrows; by left).
    apply list_elem_of_filter in Hin as [? ?]. by apply Hstatus. }
  rewrite (run_bind_inr _ _ _ _ _ Hs). by eexists.
Qed.
End Dashboard_view.

(** C9 (as the code has it). A request without an id, or with an empty one,
    is answered 400 "Project ID required" before any lookup. For any other
    id whose lookup does not throw, the dashboard answers 404
    "Project not found" exactly when no row of [project_dashboard] has the
    id. For an existing project, every answer of the dashboard is a 200 with a
    view of that project: its row; at most 10 of its insights, those
    extracted last, by [extracted_at] descending; at most 5 of its meetings
    whose stored date is a text above the day thirty days back, those with
    the greatest dates, by date descending; both lists empty when there is
    nothing to list; and as executive summary the reply of the model or,
    when the model call throws, the fallback text. The dashboard does answer
    when its reads do not throw, the stored texts of the listed meetings are
    JSON or empty and the summary can be made; it leaves the stores as they
    are. *)
Theorem dashboard_response (env : Env) (id : option string) (w : World) :
  (truthy id = false →
   handleProjectDashboard env id w =
     (inr (mkResponse 400 (BodyError "Project ID required")), w)) ∧
  (∀ projectId,
     id = Some projectId → projectId ≠ "" →
     db_fault env w (SelectProjectDashboard projectId) = None →
     ((∀ r, r ∈ project_dashboard w → pd_id r ≠ projectId) ↔
      handleProjectDashboard env id w =
        (inr (mkResponse 404 (BodyError "Project not found")), w)) ∧
     ((∃ r, r ∈ project_dashboard w ∧ pd_id r = projectId) →
      (∀ resp w', handleProjectDashboard env id w = (inr resp, w') →
         w' = w ∧
         ∃ d, resp = mkResponse 200 (BodyDashboard d) ∧
              well_formed_view env projectId w d ∧
              ((∀ r, r ∈ project_insights w → pi_project_id r ≠ projectId) →
               d_insights d = []) ∧
              ((∀ m, m ∈ meetings w →
                     ¬ (mr_project_id m = Some projectId ∧ passes_date_filter env w m)) →
               recentMeetings d = [])) ∧
      (reads_succeed env projectId w → cells_parse env projectId w →
       summary_available env projectId w →
       ∃ d, handleProjectDashboard env id w =
              (inr (mkResponse 200 (BodyDashboard d)), w)))).
Proof.
  split.
  { by destruct id as [[|c s]|]. }
  intros projectId -> Hid Hdb.
  destruct (select_project_dashboard projectId w) as [|p rest] eqn:Hrows.
  - pose proof (proj1 (select_project_dashboard_nil projectId w) Hrows) as Hnone.
    split.
    + split; [intros _; by apply handleProjectDashboard_not_found | done].
    + intros (r & Hr & Hrid). by destruct (Hnone r Hr).
  - assert (Hp : p ∈ project_dashboard w ∧ pd_id p = projectId).
    { assert (Hin : p ∈ select_project_dashboard projectId w) by (rewrite Hrows; by left).
      by apply list_elem_of_filter in Hin as [? ?]. }
    split.
    + split.
      * intros Hnone. destruct Hp as [Hp Hpid]. by destruct (Hnone p Hp).
      * intros Hrun.
        destruct (dashboard_view env projectId w w p rest _ Hid Hdb Hrows Hrun)
          as (_ & d & Hd & _).
        discriminate.
    + intros _. split.
      * intros resp w' Hrun.
        destruct (dashboard_view env projectId w w' p rest _ Hid Hdb Hrows Hrun)
          as (-> & d & -> & Hview).
        split; [done|]. exists d. split; [done|]. split; [done|].
        destruct Hview as (insights_ & meetings_ & _ & -> & Hi & -> & Hm & _).
        split; intros Hnone.
        -- by rewrite (top_rows_none _ _ _ _ _ Hi Hnone).
        -- by rewrite (top_rows_none _ _ _ _ _ Hm Hnone).
      * intros Hreads Hcells Hsummary. by eapply dashboard_answers.
Qed.

(** The dashboard of a project without insights and without meetings, the
    model being down: empty lists and the fallback text. *)
Lemma dashboard_response_sample :
  ∃ d, handleProjectDashboard no_transcript_list (Some "p-goodwill") dashboard_world =
         (inr (mkResponse 200 (BodyDashboard d)), dashboard_world) ∧
       d_insights d = [] ∧ recentMeetings d = [] ∧
       executiveSummary d =
         Plain ("Project Goodwill is on_track with 12% profit margin. " +:+
                "0 insights requiring attention.").
Proof.
  destruct (dashboard_response no_transcript_list (Some "p-goodwill") dashboard_world)
    as [_ Hfound].
  destruct (Hfound "p-goodwill" eq_refl) as [_ [Hview Hanswers]].
  - discriminate.
  - reflexivity.
  - exists goodwill_row. split; [by left | done].
  - destruct Hanswers as [d Hd].
    + by repeat split.
    + intros m Hm. by apply elem_of_nil in Hm.
    + split; [intros r Hr; by apply elem_of_nil in Hr|]. right.
      intros p Hp _. apply list_elem_of_singleton in Hp as ->. by eexists.
    + exists d. split; [done|].
      destruct (Hview _ _ Hd) as (_ & d' & Hd' & _ & Hno_insights & Hno_meetings).
      injection Hd' as <-.
      split; [apply Hno_insights; intros r Hr; by apply elem_of_nil in Hr|].
      split; [apply Hno_meetings; intros m Hm; by apply elem_of_nil in Hm|].
      vm_compute in Hd. by injection Hd as <-.
Defined.

(** C9, the counterexample: a request with an empty id, for which no project
    row exists, is answered 400, not 404. *)
Lemma dashboard_without_id_is_refused :
  handleProjectDashboard no_transcript_list (Some "") dashboard_world =
    (inr (mkResponse 400 (BodyError "Project ID required")), dashboard_world) ∧
  (∀ r, r ∈ project_dashboard dashboard_world → pd_id r ≠ "") ∧
  handleProjectDashboard no_transcript_list None dashboard_world =
    (inr (mkResponse 400 (BodyError "Project ID required")), dashboard_world).
Proof.
  split; [reflexivity|]. split; [|reflexivity].
  intros r Hr. apply list_elem_of_singleton in Hr as ->. discriminate.
Qed.

(** The meetings that the dashboard lists are those whose date is stored as
    a text: of a meeting that the sync has recorded a moment ago, with its
    date as a number, and one stored with the day as a text, only the second
    is listed. *)
Lemma dashboard_lists_text_dates :
  ∃ d, handleProjectDashboard (model_down (FetchJson None)) (Some "p-goodwill")
         meetings_world = (inr (mkResponse 200 (BodyDashboard d)), meetings_world) ∧
       dm_title <$> recentMeetings d = ["Goodwill Kickoff"].
Proof. eexists. split; [vm_compute; reflexivity|]. reflexivity. Qed.

(** Without a timeline status the fallback text cannot be made: when the
    model is down, the dashboard of such a project throws. *)
Lemma dashboard_of_unscheduled_project :
  fst (handleProjectDashboard (model_down (FetchJson None)) (Some "p-new")
         unscheduled_world) =
  inl (TypeError "Cannot read properties of null (reading 'toLowerCase')").
Proof. vm_compute. reflexivity. Qed.

(** * Further properties of the sync pipeline *)

(** ** The prompt of the extractor *)

Lemma units_continuation (c : ascii) : JS.is_continuation c = true → JS.units c = 0%nat.
Proof.
  unfold JS.is_continuation, JS.units. intros [H1 H2]%andb_true_iff.
  apply Nat.leb_le in H1. apply Nat.ltb_lt in H2.
  destruct (nat_of_ascii c <? 128)%nat eqn:H; [apply Nat.ltb_lt in H; lia|].
  by rewrite (proj2 (Nat.ltb_lt _ _) H2).
Qed.

Lemma continuation_byte (x : N) :
  JS.is_continuation (ascii_of_N (128 + N.land x 63)) = true.
Proof.
  assert (Hx : (N.land x 63 < 64)%N).
  { change 63%N with (N.ones 6). rewrite N.land_ones. by apply N.mod_lt. }
  unfold JS.is_continuation, nat_of_ascii. rewrite N_ascii_embedding by lia.
  apply andb_true_iff. split; [apply Nat.leb_le | apply Nat.ltb_lt]; lia.
Qed.

Lemma length_high_surrogate (b0 b1 b2 : ascii) :
  JS.length (JS.high_surrogate b0 b1 b2) = 1%nat.
Proof.
  unfold JS.high_surrogate. cbn [JS.length].
  change (JS.units (ascii_of_N 237)) with 1%nat.
  by rewrite !(units_continuation _ (continuation_byte _)).
Qed.

(** A slice has no more code units than it was asked for. *)
Lemma length_slice_units (n : nat) (keep : bool) (s : string) :
  (JS.length (JS.slice_units n keep s) ≤ n)%nat.
Proof.
  revert n keep. induction s as [|c s IH]; intros n keep; cbn [JS.slice_units].
  { simpl. lia. }
  destruct (JS.is_continuation c) eqn:Hc.
  - destruct keep; [|apply IH]. cbn [JS.length].
    rewrite (units_continuation c Hc). apply IH.
  - destruct (JS.units c) as [|[|[|u]]] eqn:Hu; try (simpl; lia).
    + destruct n as [|k]; [simpl; lia|]. cbn [JS.length]. rewrite Hu.
      specialize (IH k true). lia.
    + destruct n as [|[|k]]; [simpl; lia| |].
      * destruct s as [|b1 [|b2 s']]; try (simpl; lia).
        by rewrite length_high_surrogate.
      * cbn [JS.length]. rewrite Hu. specialize (IH k true). lia.
Qed.

Lemma ascii_byte (c : ascii) :
  (nat_of_ascii c <? 128)%nat = true →
  JS.is_continuation c = false ∧ JS.units c = 1%nat.
Proof.
  intros H. unfold JS.is_continuation, JS.units. rewrite H.
  apply Nat.ltb_lt in H. split; [|done].
  apply andb_false_iff. left. apply Nat.leb_gt. lia.
Qed.

(** Of a text of ASCII characters a slice is its first characters. *)
Lemma slice_units_ascii (n : nat) (keep : bool) (s : string) :
  JS.is_ascii s = true →
  ∃ rest, s = JS.slice_units n keep s +:+ rest ∧
          String.length (JS.slice_units n keep s) = (n `min` String.length s)%nat.
Proof.
  revert n keep. induction s as [|c s IH]; intros n keep Hs; cbn [JS.slice_units].
  { exists "". split; [done|]. simpl. lia. }
  cbn [JS.is_ascii] in Hs. apply andb_true_iff in Hs as [Hc Hs].
  destruct (ascii_byte c Hc) as [-> ->].
  destruct n as [|k].
  - exists (String c s). split; [done|]. simpl. lia.
  - destruct (IH k true Hs) as (rest & Hrest & Hlen). exists rest.
    rewrite app_cons, <- Hrest. split; [done|]. simpl. by rewrite Hlen.
Qed.

(** X1. The prompt of the extractor is a fixed text around the title of the
    meeting, in full, and the first 2500 code units of the transcript text:
    the slice has at most 2500 code units, and of a text of ASCII characters
    it is the first 2500 characters, or the whole text when that is
    shorter. *)
Theorem prompt_carries_at_most_2500_characters :
  ∃ before after : string, ∀ transcript : Transcript,
    insights_prompt transcript =
      before +:+ "Meeting: " +:+ tr_title transcript +:+ JS.nl +:+
      "      Content: " +:+ JS.slice0 2500 (full_text transcript) +:+ after ∧
    (JS.length (JS.slice0 2500 (full_text transcript)) ≤ 2500)%nat ∧
    (JS.is_ascii (full_text transcript) = true →
     ∃ rest,
       full_text transcript = JS.slice0 2500 (full_text transcript) +:+ rest ∧
       String.length (JS.slice0 2500 (full_text transcript)) =
         (2500 `min` String.length (full_text transcript))%nat).
Proof.
  exists (String.substring 0 86 (insights_prompt (mkTranscript "" "" 0 0 None "" None))),
         (String.substring 111 633
            (insights_prompt (mkTranscript "" "" 0 0 None "" None))).
  intros transcript. split; [|split].
  - unfold insights_prompt. fold (full_text transcript).
    generalize (JS.slice0 2500 (full_text transcript)) as content.
    generalize (tr_title transcript) as title. intros title content.
    unfold JS.join, dq, JS.nl. cbn [String.concat].
    rewrite !app_assoc_string. reflexivity.
  - apply length_slice_units.
  - intros Hascii. by apply slice_units_ascii.
Qed.

Lemma prompt_carries_at_most_2500_characters_sample :
  ∃ rest,
    full_text weekly_sync = JS.slice0 2500 (full_text weekly_sync) +:+ rest ∧
    String.length (JS.slice0 2500 (full_text weekly_sync)) =
      (2500 `min` String.length (full_text weekly_sync))%nat.
Proof.
  destruct prompt_carries_at_most_2500_characters as (before & after & Hprompt).
  destruct (Hprompt weekly_sync) as (_ & _ & Hascii).
  apply Hascii. reflexivity.
Defined.

(** ** What a failed pipeline leaves behind *)

Lemma insert_insights_get_through (env : Env) (transcript : Transcript)
    (projectId : option string) (v : JValue) (w : World) :
  (∀ w s, db_fault env w s = None) →
  reads_fine env transcript projectId v = true →
  ∃ w', to_end (insert_insights env transcript projectId v) w = (inr (), w').
Proof.
  intros Hdb Hreads.
  destruct (reads_fine_inv env transcript projectId v Hreads) as (_ & Hloop & _).
  unfold insert_insights. destruct projectId as [pid|]; [|by eexists].
  destruct (truthy (Some pid)) eqn:Htruthy; [|by eexists].
  destruct (Hloop eq_refl) as (items & -> & Hitems). clear Hloop Hreads.
  revert w. induction Hitems as [|item items Hitem Hitems IH]; intros w; [by eexists|].
  cbn [for_each].
  pose proof (insert_insight_run env transcript pid item w) as Hrun.
  rewrite Hitem, Hdb in Hrun. rewrite (to_end_step_inr _ _ _ _ _ Hrun). apply IH.
Qed.

(** X2. The pipeline of a transcript is no transaction: when the database
    takes every statement, the callback can read the extraction and the
    upload of the document throws, the pipeline is rejected with the
    exception of the upload, and the meeting row and the insight rows it has
    written stay in the database; the bucket is as it was. (The [meetings]
    table is keyed by the id.) *)
Theorem failed_upload_leaves_the_rows_written (env : Env) (transcript : Transcript)
    (e : Exn) (w : World)
    (Hkey : keyed_by_id env)
    (Hdb : ∀ w s, db_fault env w s = None)
    (Hreads : reads_fine env transcript (selected_project (tr_title transcript) w)
                (extracted env transcript) = true)
    (Hr2 : ∀ w key body, r2_fault env w key body = Some e) :
  let projectId := selected_project (tr_title transcript) w in
  ∃ w',
    to_end (syncTranscript env transcript) w = (inl e, w') ∧
    rows_of (tr_id transcript) w' =
      [expected_meeting transcript (extracted env transcript) projectId
         (JS.toISOString (clock env (reads w)))] ∧
    project_insights w' =
      project_insights w ++
      appended_rows env transcript projectId (extracted env transcript) (S (reads w)) ∧
    bucket w' = bucket w.
Proof.
  intros projectId. rewrite syncTranscript_run, Hdb. cbv zeta. fold projectId.
  destruct (reads_fine_inv env transcript projectId _ Hreads)
    as ([row ->] & _ & [head ->]).
  rewrite Hdb.
  set (row' := expected_meeting transcript (extracted env transcript) projectId
                 (JS.toISOString (clock env (reads w)))).
  destruct (insert_insights_get_through env transcript projectId
              (extracted env transcript) (put_meeting env row' (tick w)) Hdb Hreads)
    as [w6 Hloop].
  destruct (insert_insights_run env transcript projectId (extracted env transcript)
              (put_meeting env row' (tick w)))
    as (rows & n & Hw6 & _ & _ & Hall).
  rewrite Hloop in Hw6, Hall. simpl in Hw6, Hall.
  destruct (Hall () eq_refl) as [-> ->]. rewrite Hloop, Hr2.
  eexists. split; [done|]. rewrite Hw6. unfold rows_of, tick. simpl.
  split; [apply (rows_of_insert_or_replace env Hkey row')|]. done.
Qed.

(** The weekly sync with the bucket down: its row and its two insights are
    in the database, no document is in the bucket. *)
Lemma failed_upload_leaves_the_rows_written_sample :
  ∃ w',
    to_end (syncTranscript (bucket_down ticking) weekly_sync) goodwill_world =
      (inl (Error "R2 unavailable"), w') ∧
    mr_id <$> meetings w' = ["t1"] ∧
    pi_title <$> project_insights w' =
      [Some (JString "Permit delay"); Some (JString "No crane")] ∧
    bucket w' = ∅.
Proof.
  destruct (failed_upload_leaves_the_rows_written (bucket_down ticking) weekly_sync
              (Error "R2 unavailable") goodwill_world)
    as (w' & Hrun & Hrows & Hins & Hbucket);
    [by apply keyed_by_same_id | done | by vm_compute | done |].
  exists w'. split; [done|].
  assert (Hw' : snd (to_end (syncTranscript (bucket_down ticking) weekly_sync)
                       goodwill_world) = w') by (by rewrite Hrun).
  rewrite <- Hw'. vm_compute. done.
Defined.

(** ** The documents in the bucket *)

(** X3. A pipeline that gets to its end has stored under the key of its
    meeting, as markdown, the document rendered from its transcript, the
    extraction and the project id, which starts with the title and the
    project id, and which is the [insight_document] when the extraction is
    an [Insight]; and it has left every other object of the bucket as it
    was. *)
Theorem documents_of_other_meetings_are_kept (env : Env) (transcript : Transcript)
    (w w' : World) (id : string)
    (Hrun : to_end (syncTranscript env transcript) w = (inr id, w')) :
  let projectId := selected_project (tr_title transcript) w in
  ∃ n doc rest,
    document env transcript (extracted env transcript) projectId n = Some doc ∧
    bucket w' = <[document_key (tr_id transcript) := doc]> (bucket w) ∧
    contentType doc = "text/markdown" ∧
    content doc = front_matter_start transcript projectId +:+ rest ∧
    (∀ i, as_insight (extracted env transcript) = Some i →
          content doc = insight_document env transcript i projectId (clock env n)) ∧
    ∀ other, other ≠ tr_id transcript →
      bucket w' !! document_key other = bucket w !! document_key other.
Proof.
  destruct (syncTranscript_fulfilled env transcript w w' id Hrun) as (doc & _ & Hdoc & ->).
  cbv zeta. destruct (document_front_matter env _ _ _ _ _ Hdoc) as [Htype [rest Hrest]].
  eexists _, doc, rest. split; [exact Hdoc|]. cbn [bucket].
  split; [done|]. split; [done|]. split; [done|].
  split; [intros i Hi; by eapply document_of_insight|].
  intros other Hother. apply lookup_insert_ne.
  intros Heq. by apply document_key_inj in Heq.
Qed.

Lemma documents_of_other_meetings_are_kept_sample :
  (∃ doc rest, bucket once !! "meetings/meeting-t1.md" = Some doc ∧
               content doc =
                 "---" +:+ JS.nl +:+ "  title: Goodwill Weekly Sync" +:+ JS.nl +:+
                 "  project_id: p-goodwill" +:+ JS.nl +:+ rest) ∧
  bucket once !! "meetings/meeting-t0.md" = None.
Proof.
  destruct (documents_of_other_meetings_are_kept (eager ticking) weekly_sync
              goodwill_world once "t1" eq_refl)
    as (n & doc & rest & Hdoc & Hbucket & Htype & Hcontent & _ & Hother).
  split.
  - exists doc, rest. rewrite Hbucket. split; [by rewrite lookup_insert_eq|].
    rewrite Hcontent. vm_compute. reflexivity.
  - change "meetings/meeting-t0.md" with (document_key "t0").
    by rewrite (Hother "t0").
Defined.

(** ** The sync endpoint as a whole *)

(** X4. The sync endpoint always answers, whatever the method, the reply
    of the transcript source, the reply of the model and whatever throws: 405
    for a method other than POST, with nothing read or written, and 200 for
    a POST. With the [meetings] table keyed by the id, nothing that was
    stored before the request is lost. *)
Theorem sync_endpoint_always_answers (env : Env) (method : string) (w : World) :
  ∃ r w',
    handleEnhancedMeetingSync env method w = (inr r, w') ∧
    (if decide (method = "POST") then status r = 200
     else r = mkResponse 405 (BodyText "Method not allowed") ∧ w' = w) ∧
    (keyed_by_id env → later w w').
Proof.
  unfold handleEnhancedMeetingSync. destruct (decide (method = "POST")) as [->|Hne].
  - rewrite bool_decide_eq_false_2 by (intros H; by apply H).
    rewrite run_try_catch, run_bind.
    pose proof (fetch_transcripts_world env w) as Hw1.
    destruct (fetch_transcripts env w) as [[e|ts] w1]; simpl in Hw1; subst w1.
    + eexists _, _. split; [reflexivity|]. done.
    + rewrite run_bind.
      destruct (allSettled_total (schedule env) (syncTranscript env) ts w)
        as (rs & w2 & Hrun & _).
      rewrite Hrun, run_bind, triggerAutoRAGSync_run. eexists _, _.
      split; [reflexivity|]. split; [done|]. intros Hkey.
      destruct (allSettled_steady (kept (λ _, False)) (λ b id, id = tr_id b)
                  (schedule env) (syncTranscript env) ts w)
        as (rs' & w2' & Hrun' & _ & Hlater).
      { apply batch_steady; [done|]. apply Forall_forall. by intros b _ []. }
      rewrite Hrun in Hrun'. injection Hrun' as _ <-. by apply kept_later in Hlater.
  - rewrite bool_decide_eq_true_2 by done. eexists _, _. split; [reflexivity|]. done.
Qed.

Lemma sync_endpoint_always_answers_sample :
  ∃ r w',
    handleEnhancedMeetingSync (replying no_insights_reply) "POST" goodwill_world =
      (inr r, w') ∧
    status r = 200 ∧ later goodwill_world w'.
Proof.
  destruct (sync_endpoint_always_answers (replying no_insights_reply) "POST"
              goodwill_world) as (r & w' & Hrun & Hstatus & Hlater).
  exists r, w'. split; [done|]. split; [done|].
  apply Hlater. by apply keyed_by_same_id.
Defined.

(** ** The transcript section without sentences *)

Lemma sentence_line_head (env : Env) (s : Sentence) (rest : string) :
  ∃ c r, sentence_line env s +:+ rest = String c r ∧ c ≠ "N"%char.
Proof.
  unfold sentence_line, sentence_timestamp.
  destruct (start_time s) as [offset|]; [destruct (Qeq_bool offset 0)|].
  - eexists _, _. split; [by rewrite !app_cons|]. done.
  - eexists _, _. split; [by rewrite !app_cons|]. done.
  - eexists _, _. split; [by rewrite !app_cons|]. done.
Qed.

(** X5. The transcript section of the document is the placeholder "No
    transcript available." exactly when the transcript has no sentences: no
    list of them, or an empty one. *)
Theorem transcript_section_placeholder (env : Env) (transcript : Transcript) :
  transcript_section env transcript = "No transcript available." ↔
  sentences transcript = None ∨ sentences transcript = Some [].
Proof.
  unfold transcript_section. destruct (sentences transcript) as [[|s ss]|].
  - split; [by right | done].
  - split; [|by intros [|]].
    rewrite fmap_cons, join_cons.
    assert (Hhead : ∃ c r,
      match sentence_line env <$> ss with
      | [] => sentence_line env s
      | _ :: _ =>
          sentence_line env s +:+ (JS.nl +:+ JS.nl) +:+
          JS.join (JS.nl +:+ JS.nl) (sentence_line env <$> ss)
      end = String c r ∧ c ≠ "N"%char).
    { destruct (sentence_line env <$> ss).
      - rewrite <- (app_empty_r (sentence_line env s)). apply sentence_line_head.
      - apply sentence_line_head. }
    destruct Hhead as (c & r & -> & Hc). simpl. intros [= ? _]. done.
  - split; [by left | done].
Qed.

(** ** The meetings of a batch and the others *)

(** X6. A sync touches the meeting rows and the documents of the
    transcripts it has fetched and no others: with the [meetings] table keyed
    by the id, the rows and the document of any other meeting id are after
    the request what they were before it, whatever the method, the replies of
    the source and of the model, what throws and the order of the
    callbacks. *)
Theorem sync_keeps_the_rows_of_other_meetings (env : Env) (method : string) (w : World)
    (id : string)
    (Hkey : keyed_by_id env)
    (Hother : id ∉ tr_id <$> fetched env) :
  rows_of id (snd (handleEnhancedMeetingSync env method w)) = rows_of id w ∧
  bucket (snd (handleEnhancedMeetingSync env method w)) !! document_key id =
    bucket w !! document_key id.
Proof.
  unfold handleEnhancedMeetingSync. case_bool_decide; [done|].
  rewrite run_try_catch, run_bind.
  pose proof (fetch_transcripts_world env w) as Hw1.
  assert (Hts : ∀ ts, fst (fetch_transcripts env w) = inr ts → ts = fetched env).
  { unfold fetch_transcripts, fetched. destruct (fireflies env) as [e|[ts|]]; simpl;
      intros ts'; congruence. }
  destruct (fetch_transcripts env w) as [[e|ts] w1]; simpl in Hw1; subst w1; [done|].
  rewrite (Hts ts eq_refl), run_bind.
  destruct (allSettled_steady (kept (λ x, x = id)) (λ b x, x = tr_id b)
              (schedule env) (syncTranscript env) (fetched env) w)
    as (rs & w2 & Hrun & _ & _ & Hkept).
  { apply batch_steady; [done|]. apply Forall_forall. intros b Hb Heq.
    apply Hother. apply list_elem_of_fmap. by exists b. }
  rewrite Hrun, run_bind, triggerAutoRAGSync_run. simpl.
  apply (Hkept id eq_refl).
Qed.

(** A request whose batch is the weekly sync leaves the row of another
    meeting where it is. *)
Lemma sync_keeps_the_rows_of_other_meetings_sample :
  rows_of "t1" (snd (handleEnhancedMeetingSync (eager ticking) "POST" once)) ≠
    rows_of "t1" once ∧
  rows_of "t0" (snd (handleEnhancedMeetingSync (eager ticking) "POST" once)) =
    rows_of "t0" once.
Proof.
  split; [by vm_compute|].
  apply (sync_keeps_the_rows_of_other_meetings (eager ticking) "POST" once "t0").
  - by apply keyed_by_same_id.
  - change (tr_id <$> fetched (eager ticking)) with ["t1"].
    apply not_elem_of_cons. split; [done | apply not_elem_of_nil].
Defined.


(** * The chat route: [formatSearchResults] *)

Lemma result_block_shown (index : nat) (result : SearchResult) :
  result_block index (shown result) = result_block index result.
Proof.
  unfold result_block, shown. simpl.
  by destruct (sr_action_items result) as [[|a [|b l]]|].
Qed.

(** X7. [formatSearchResults] shows the first three results and, of each,
    the first two action items: the results after the third and the action
    items after the second change nothing in the answer. *)
Theorem formatSearchResults_shows_three_results (results : option (list SearchResult))
    (query : string) :
  formatSearchResults results query =
  formatSearchResults ((λ l, shown <$> take 3 l) <$> results) query.
Proof.
  destruct results as [[|r rs]|]; [done| |done].
  cbn [fmap option_fmap option_map].
  assert (Htop : take 3 (shown <$> take 3 (r :: rs)) = shown <$> take 3 (r :: rs)).
  { apply take_ge. rewrite length_fmap, length_take. lia. }
  change (take 3 (r :: rs)) with (r :: take 2 rs) in *. rewrite fmap_cons in *.
  unfold formatSearchResults. cbv zeta. rewrite Htop.
  change (take 3 (r :: rs)) with (r :: take 2 rs).
  rewrite <- fmap_cons, imap_fmap. f_equal. f_equal. apply imap_ext. intros i x _.
  symmetry. apply result_block_shown.
Qed.

(** ** What [trim] strips *)

Lemma after_app (code s rest : list ascii) :
  after code s = Some rest ↔ s = code ++ rest.
Proof.
  revert s. induction code as [|p code IH]; intros s; simpl.
  - split; congruence.
  - destruct s as [|c s]; [done|]. destruct (Ascii.eqb_spec p c) as [->|Hne].
    + rewrite IH. split; congruence.
    + split; congruence.
Qed.

Lemma strip_one_Some (codes : list (list ascii)) (s rest : list ascii) :
  strip_one codes s = Some rest → ∃ code, code ∈ codes ∧ s = code ++ rest.
Proof.
  unfold strip_one. induction codes as [|code codes IH]; simpl; [done|].
  destruct (after code s) as [r|] eqn:Hafter.
  - intros [= ->]. exists code. split; [left|]. by apply after_app.
  - intros (code' & Hin & Heq)%IH. exists code'. split; [by right | done].
Qed.

Lemma strip_one_None (codes : list (list ascii)) (s : list ascii) :
  strip_one codes s = None → ∀ code rest, code ∈ codes → s ≠ code ++ rest.
Proof.
  unfold strip_one. induction codes as [|code codes IH]; simpl.
  - intros _ code rest Hin. by apply elem_of_nil in Hin.
  - destruct (after code s) as [r|] eqn:Hafter; [done|].
    intros Hnone code' rest [->|Hin]%elem_of_cons.
    + intros Heq%after_app. congruence.
    + by apply IH.
Qed.

(** Stripping goes on until the string starts with none of the codes, when
    none of them is empty. *)
Lemma strip_all_done (codes : list (list ascii)) (fuel : nat) (s : list ascii) :
  [] ∉ codes → (length s ≤ fuel)%nat →
  strip_one codes (strip_all fuel codes s) = None.
Proof.
  intros Hcodes. revert s. induction fuel as [|fuel IH]; intros s Hlen.
  - destruct s; [|simpl in Hlen; lia]. simpl.
    destruct (strip_one codes []) as [rest|] eqn:Hstrip; [|done].
    apply strip_one_Some in Hstrip as (code & Hin & Heq).
    symmetry in Heq. apply app_eq_nil in Heq as [-> _]. done.
  - simpl. destruct (strip_one codes s) as [rest|] eqn:Hstrip; [|done].
    apply IH. apply strip_one_Some in Hstrip as (code & Hin & ->).
    rewrite length_app in Hlen. destruct code; [done|]. simpl in Hlen. lia.
Qed.

(** Stripping stops before a character that is in none of the codes. *)
Lemma strip_all_stops (codes : list (list ascii)) (c : ascii) (fuel : nat)
    (a b : list ascii) :
  (∀ code, code ∈ codes → c ∉ code) →
  ∃ a', strip_all fuel codes (a ++ c :: b) = a' ++ c :: b.
Proof.
  intros Hc. revert a. induction fuel as [|fuel IH]; intros a; [by exists a|].
  simpl. destruct (strip_one codes (a ++ c :: b)) as [rest|] eqn:Hstrip; [|by exists a].
  apply strip_one_Some in Hstrip as (code & Hin & Heq).
  assert (∃ a'', rest = a'' ++ c :: b) as [a'' ->]; [|apply IH].
  specialize (Hc code Hin). clear Hin IH. revert a Heq.
  induction code as [|p code IHc]; intros a Heq; [by exists a|].
  destruct a as [|x a]; simpl in Heq.
  - injection Heq as -> _. exfalso. apply Hc. left.
  - injection Heq as _ Heq. apply (IHc (λ H, Hc (list_elem_of_further _ _ _ H)) a Heq).
Qed.

Lemma string_of_list_ascii_app (a b : list ascii) :
  String.string_of_list_ascii (a ++ b) =
  String.string_of_list_ascii a +:+ String.string_of_list_ascii b.
Proof. induction a as [|c a IH]; [done|]. simpl. by rewrite app_cons, IH. Qed.

Lemma list_ascii_of_string_app (a b : string) :
  String.list_ascii_of_string (a +:+ b) =
  String.list_ascii_of_string a ++ String.list_ascii_of_string b.
Proof. induction a as [|c a IH]; [done|]. rewrite app_cons. simpl. by rewrite IH. Qed.

Ltac not_among :=
  repeat (apply not_elem_of_cons; split; [done|]); apply not_elem_of_nil.

Lemma white_space_nonempty : [] ∉ white_space.
Proof. unfold white_space. cbn [fmap list_fmap]. not_among. Qed.

Lemma reversed_white_space_nonempty : [] ∉ reverse <$> white_space.
Proof. unfold white_space. cbn [fmap list_fmap]. not_among. Qed.

Lemma star_is_no_white_space (code : list ascii) :
  code ∈ reverse <$> white_space → "*"%char ∉ code.
Proof.
  revert code. apply Forall_forall. unfold white_space. cbn [fmap list_fmap].
  repeat (apply Forall_cons; split; [not_among|]). apply Forall_nil_2.
Qed.

(** What [trim] returns neither starts nor ends with a code point that it
    strips. *)
Lemma trimEnd_ends (s : list ascii) :
  strip_one (reverse <$> white_space) (reverse (trimEnd s)) = None.
Proof.
  unfold trimEnd. rewrite reverse_involutive.
  apply strip_all_done; [apply reversed_white_space_nonempty|].
  by rewrite length_reverse.
Qed.

Lemma trim_ends (s : string) : ends_blank (trim s) = false.
Proof.
  unfold ends_blank, trim. rewrite String.list_ascii_of_string_of_list_ascii.
  rewrite trimEnd_ends. apply bool_decide_eq_false_2. by intros [? ?].
Qed.

Lemma foldl_append (a : string) (l : list string) :
  foldl String.append a l = a +:+ String.concat "" l.
Proof.
  revert a. induction l as [|x l IH]; intros a; simpl.
  - by rewrite app_empty_r.
  - rewrite IH, app_assoc_string. f_equal. destruct l; [by rewrite app_empty_r | done].
Qed.

(** A text that starts with the header and goes on after a star keeps both
    through [trim]. *)
Lemma trim_keeps_header (query before after_ : string) :
  ∃ rest,
    trim (results_header query +:+ before +:+ "*" +:+ after_) =
    results_header query +:+ before +:+ "*" +:+ rest.
Proof.
  unfold trim.
  set (text := String.list_ascii_of_string
                 (results_header query +:+ before +:+ "*" +:+ after_)).
  assert (Hstart : trimStart text = text).
  { subst text. unfold results_header. rewrite list_ascii_of_string_app.
    cbn [String.list_ascii_of_string app]. unfold trimStart. cbn [length strip_all].
    reflexivity. }
  rewrite Hstart. unfold trimEnd.
  assert (Htext : text = String.list_ascii_of_string (results_header query +:+ before) ++
                         "*"%char :: String.list_ascii_of_string after_).
  { subst text. rewrite !list_ascii_of_string_app. by rewrite <- app_assoc. }
  generalize (length text) as fuel. intros fuel.
  rewrite Htext, reverse_app, reverse_cons, <- app_assoc. cbn [app].
  destruct (strip_all_stops (reverse <$> white_space) "*" fuel
              (reverse (String.list_ascii_of_string after_))
              (reverse (String.list_ascii_of_string (results_header query +:+ before)))
              star_is_no_white_space) as [a' ->].
  exists (String.string_of_list_ascii (reverse a')).
  rewrite reverse_app, reverse_cons, reverse_involutive, <- app_assoc.
  rewrite !string_of_list_ascii_app, String.string_of_list_ascii_of_string.
  by rewrite app_assoc_string.
Qed.

Lemma formatSearchResults_some (r : SearchResult) (rs : list SearchResult)
    (query : string) :
  ∃ rest,
    formatSearchResults (Some (r :: rs)) query =
    results_header query +:+ "**1. " +:+ sr_title r +:+ "**" +:+ rest ∧
    ends_blank (formatSearchResults (Some (r :: rs)) query) = false.
Proof.
  unfold formatSearchResults. change (take 3 (r :: rs)) with (r :: take 2 rs).
  cbv zeta. rewrite foldl_append. cbn [imap]. unfold result_block at 1 3.
  change (pretty (0 + 1)%nat) with "1".
  set (others := imap (result_block ∘ S) (take 2 rs)).
  set (tail :=
    JS.nl +:+
    match sr_summary r with
    | Some (String c s) => String c s +:+ JS.nl
    | _ => ""
    end +:+
    match sr_action_items r with
    | Some (item :: items) =>
        "Key action items: " +:+ JS.join ", " (take 2 (item :: items)) +:+ JS.nl
    | _ => ""
    end +:+ JS.nl +:+ String.concat "" others).
  destruct (trim_keeps_header query ("**1. " +:+ sr_title r +:+ "*") tail)
    as [rest Hrest].
  assert (Htext :
    results_header query +:+
    String.concat ""
      (("**" +:+ "1" +:+ ". " +:+ sr_title r +:+ "**" +:+ JS.nl +:+
        match sr_summary r with
        | Some (String c s) => String c s +:+ JS.nl
        | _ => ""
        end +:+
        match sr_action_items r with
        | Some (item :: items) =>
            "Key action items: " +:+ JS.join ", " (take 2 (item :: items)) +:+ JS.nl
        | _ => ""
        end +:+ JS.nl) :: others) =
    results_header query +:+ ("**1. " +:+ sr_title r +:+ "*") +:+ "*" +:+ tail).
  { subst tail. f_equal. destruct others as [|o others']; cbn [String.concat];
      rewrite ?app_empty_r, !app_assoc_string; reflexivity. }
  rewrite Htext. exists rest. split; [|apply trim_ends].
  rewrite Hrest. by rewrite !app_assoc_string.
Qed.

(** X8. The answer of [formatSearchResults] is never empty and neither
    starts nor ends with white space. Without results (no list, or an empty
    one) it is the fixed "couldn't find" sentence; otherwise it starts with the
    header that quotes the query, followed by the title of the first result as
    item 1. *)
Theorem formatSearchResults_answer (results : option (list SearchResult))
    (query : string) :
  let answer := formatSearchResults results query in
  answer ≠ "" ∧ starts_blank answer = false ∧ ends_blank answer = false ∧
  match results with
  | Some (first :: _) =>
      ∃ rest, answer = results_header query +:+ "**1. " +:+ sr_title first +:+ "**" +:+ rest
  | _ => answer = no_results
  end.
Proof.
  assert (Hnone : no_results ≠ "" ∧ starts_blank no_results = false ∧
                  ends_blank no_results = false) by (by vm_compute).
  destruct results as [[|r rs]|]; cbv zeta; [by destruct Hnone as (? & ? & ?)| |
    by destruct Hnone as (? & ? & ?)].
  destruct (formatSearchResults_some r rs query) as (rest & Hanswer & Hend).
  split; [|split; [|split; [done | by exists rest]]]; rewrite Hanswer.
  - unfold results_header. by rewrite app_cons.
  - unfold starts_blank, results_header. rewrite list_ascii_of_string_app.
    cbn [String.list_ascii_of_string app]. apply bool_decide_eq_false_2.
    by intros [? ?].
Qed.

(** Four results, of which the first has three action items, the second an
    empty list of them and the third an empty summary. *)
Lemma formatSearchResults_example :
  formatSearchResults (Some three_results) "steel" =
  JS.join JS.nl [
    "Based on the documents I found, here's what I can tell you about " +:+ dq +:+
      "steel" +:+ dq +:+ ":";
    "";
    "**1. Kickoff**";
    "Scope agreed. ";
    "Key action items: Order steel, Book crane";
    "";
    "**2. Weekly**";
    "";
    "**3. Review**" ].
Proof. by vm_compute. Qed.


(** * The chat route of the Next.js application *)

Lemma or_text_nonempty (x : option JValue) (text : string) :
  text ≠ "" → is_truthy (or_text x text) = true.
Proof.
  intros Htext. unfold or_text. destruct x as [v|].
  - destruct (is_truthy v) eqn:Hv; [done|]. by destruct text.
  - by destruct text.
Qed.

Module ChatRouteFacts.
Import Next.

Lemma read_message_run (body : Text) (sent : list Call) :
  read_message body sent =
  match message_of body with
  | Some message => (inr message, sent)
  | None =>
      (inl match body with
           | Plain _ => SyntaxError "Unexpected token in JSON"
           | _ => TypeError "Cannot destructure property 'message' of null"
           end, sent)
  end.
Proof. by destruct body as [[]|]. Qed.

Lemma spoken_truthy (data : JValue) : is_truthy (ChatRoute2.spoken data) = true.
Proof.
  unfold ChatRoute2.spoken. destruct (is_empty_list _); [done|].
  destruct (or_value _ _) as [v|]; [|done]. by destruct (is_truthy v) eqn:Hv.
Qed.

Lemma spoken_or_text (data : JValue) :
  (if is_empty_list (optional_prop "matches" (prop "result" data))
   then JString ChatRoute2.no_matches
   else or_text (or_value (optional_prop "response" (prop "result" data))
                   (prop "response" data)) apology) =
  ChatRoute2.spoken data.
Proof.
  unfold ChatRoute2.spoken, or_text. destruct (is_empty_list _); [done|].
  by destruct (or_value _ _).
Qed.

(** X9. The checked route never throws and always answers with status 200
    and a [response] that is truthy. Which one is decided by the
    configuration and by the reply to the one request it sends: the
    configuration error when the account id or the token is not set; what the
    reply of AutoRAG says when the request is answered with success and JSON
    that is not null; the "not configured yet" notice when it is answered
    with the status 404; and in every other case (a body that cannot be
    read, a request that fails, any other status, a reply that is no JSON)
    the "trouble connecting" sentence with the hint at the AutoRAG index. The
    hints at the account id and at the token are never given. *)
Theorem checked_route_always_answers (process_env : ProcessEnv) (outside : Call → Fetched)
    (body : Text) (sent : list Call) :
  ∃ v sent',
    ChatRoute2.POST process_env outside body sent = (inr (mkChatReply 200 v), sent') ∧
    is_truthy v = true ∧
    if ChatRoute2.no_account process_env || ChatRoute2.no_token process_env
    then v = JString ChatRoute2.configuration_error
    else
      match message_of body with
      | None => v = JString (ChatRoute2.trouble +:+ ChatRoute2.ensure_index)
      | Some message =>
          match outside (ChatRoute2.request process_env message) with
          | Unreachable _ => v = JString (ChatRoute2.trouble +:+ ChatRoute2.ensure_index)
          | Replied r =>
              if http_ok r then
                match http_json r with
                | inr JNull | inl _ =>
                    v = JString (ChatRoute2.trouble +:+ ChatRoute2.ensure_index)
                | inr data => v = ChatRoute2.spoken data
                end
              else
                match http_text r with
                | inr _ =>
                    if bool_decide (http_status r = 404)
                    then v = JString ChatRoute2.not_configured
                    else v = JString (ChatRoute2.trouble +:+ ChatRoute2.ensure_index)
                | inl _ => v = JString (ChatRoute2.trouble +:+ ChatRoute2.ensure_index)
                end
          end
      end.
Proof.
  unfold ChatRoute2.POST, attempt.
  destruct (ChatRoute2.no_account process_env) eqn:Haccount; cbn [orb].
  { eexists _, _. split; [reflexivity|]. by split. }
  destruct (ChatRoute2.no_token process_env) eqn:Htoken.
  { eexists _, _. split; [reflexivity|]. by split. }
  unfold mbind at 1, N_bind at 1. rewrite read_message_run.
  destruct (message_of body) as [message|].
  2: { eexists _, _. split; [reflexivity|]. by split. }
  unfold mbind at 1, N_bind at 1, send.
  set (call := ChatRoute2.request process_env message).
  destruct (outside call) as [e|r] eqn:Hcall.
  { eexists _, _. split; [reflexivity|]. by split. }
  destruct (http_ok r) eqn:Hok; cbn [negb].
  - unfold mbind at 1, N_bind at 1, of_outcome.
    destruct (http_json r) as [e|data] eqn:Hjson.
    { eexists _, _. split; [reflexivity|]. by split. }
    unfold mbind, N_bind.
    assert (Hresult : data = JNull ∨
      (result_of data (sent ++ [call]) = (inr (prop "result" data), sent ++ [call]) ∧
       match data with
       | JNull => False
       | _ => True
       end)).
    { destruct data; auto. }
    destruct Hresult as [->|[Hresult Hdata]].
    { eexists _, _. split; [reflexivity|]. by split. }
    rewrite Hresult. cbv zeta. rewrite spoken_or_text.
    eexists _, _. split; [reflexivity|]. split; [apply spoken_truthy|].
    by destruct data.
  - unfold mbind, N_bind, of_outcome.
    destruct (http_text r) as [e|errorText].
    { eexists _, _. split; [reflexivity|]. by split. }
    case_bool_decide; eexists _, _; (split; [reflexivity|]); by split.
Qed.

(** X10. The checked route sends nothing, to anyone, when the account id or
    the token is unset, empty or the placeholder of the template, or when the
    body of the request is no JSON or null. Otherwise it sends one request: to
    the ai-search URL of the configured account, with the configured token as
    bearer, the [message] of the body as query and the threshold 0.5. *)
Theorem checked_route_requests (process_env : ProcessEnv) (outside : Call → Fetched)
    (body : Text) (sent : list Call) :
  snd (ChatRoute2.POST process_env outside body sent) =
  match CLOUDFLARE_ACCOUNT_ID process_env, CLOUDFLARE_API_TOKEN process_env,
        message_of body with
  | Some account, Some token, Some message =>
      if ChatRoute2.no_account process_env || ChatRoute2.no_token process_env
      then sent
      else sent ++ [mkCall
                      ("https://api.cloudflare.com/client/v4/accounts/" +:+ account +:+
                       "/autorag/rags/alleato-docs/ai-search")
                      ("Bearer " +:+ token) message true 10 (1 # 2)]
  | _, _, _ => sent
  end.
Proof.
  assert (Hnone : ChatRoute2.no_account process_env || ChatRoute2.no_token process_env
                  = true →
    snd (ChatRoute2.POST process_env outside body sent) = sent).
  { intros Hunset. unfold ChatRoute2.POST, attempt. by rewrite Hunset. }
  destruct process_env as [account token].
  unfold ChatRoute2.no_account, ChatRoute2.no_token in *. cbn [CLOUDFLARE_ACCOUNT_ID
    CLOUDFLARE_API_TOKEN] in *.
  destruct account as [account|]; [|by apply Hnone].
  destruct token as [token|];
    [|apply Hnone; cbn [ChatRoute2.unset]; by rewrite orb_true_r].
  destruct (ChatRoute2.unset (Some account) _ || ChatRoute2.unset (Some token) _)
    eqn:Hunset.
  { rewrite (Hnone eq_refl). by destruct (message_of body). }
  clear Hnone. unfold ChatRoute2.POST, attempt, ChatRoute2.no_account, ChatRoute2.no_token.
  cbn [CLOUDFLARE_ACCOUNT_ID CLOUDFLARE_API_TOKEN]. rewrite Hunset.
  unfold mbind at 1, N_bind at 1. rewrite read_message_run.
  destruct (message_of body) as [message|]; [|done].
  unfold mbind at 1, N_bind at 1, send, ChatRoute2.request, ai_search, ai_search_url,
    bearer, interpolated. cbn [CLOUDFLARE_ACCOUNT_ID CLOUDFLARE_API_TOKEN].
  destruct (outside _) as [e|r]; [done|].
  destruct (http_ok r); cbn [negb]; unfold mbind, N_bind, of_outcome.
  - destruct (http_json r) as [e|data]; [done|]. by destruct data.
  - destruct (http_text r) as [e|errorText]; [done|]. by case_bool_decide.
Qed.

(** X11. The first route never throws and always answers with status 200
    and a truthy [response]. It checks no configuration: whenever the body is
    JSON and not null it sends its one request, with "undefined" in the place
    of an account id or a token that is not set, and it answers with what the
    reply to that request says when the request is answered with success and
    JSON that is not null; in every other case with the fallback
    sentence. *)
Theorem first_route_always_answers (process_env : ProcessEnv) (outside : Call → Fetched)
    (body : Text) (sent : list Call) :
  ∃ v sent',
    ChatRoute1.POST process_env outside body sent = (inr (mkChatReply 200 v), sent') ∧
    is_truthy v = true ∧
    sent_at_most (ChatRoute1.request process_env <$> message_of body) sent sent' ∧
    match message_of body with
    | None => v = JString ChatRoute1.fallback
    | Some message =>
        match outside (ChatRoute1.request process_env message) with
        | Unreachable _ => v = JString ChatRoute1.fallback
        | Replied r =>
            if http_ok r then
              match http_json r with
              | inr JNull | inl _ => v = JString ChatRoute1.fallback
              | inr data => v = ChatRoute1.spoken data
              end
            else v = JString ChatRoute1.fallback
        end
    end.
Proof.
  unfold ChatRoute1.POST, attempt.
  unfold mbind at 1, N_bind at 1. rewrite read_message_run.
  destruct (message_of body) as [message|]; cbn [fmap option_fmap option_map].
  2: { eexists _, _. split; [reflexivity|]. by repeat split. }
  unfold mbind at 1, N_bind at 1, send.
  set (call := ChatRoute1.request process_env message).
  destruct (outside call) as [e|r] eqn:Hcall.
  { eexists _, _. split; [reflexivity|]. by repeat split. }
  destruct (http_ok r) eqn:Hok; cbn [negb].
  2: { eexists _, _. split; [reflexivity|]. by repeat split. }
  unfold mbind at 1, N_bind at 1, of_outcome.
  destruct (http_json r) as [e|data] eqn:Hjson.
  { eexists _, _. split; [reflexivity|]. by repeat split. }
  unfold mbind, N_bind.
  assert (Hresult : data = JNull ∨
    (result_of data (sent ++ [call]) = (inr (prop "result" data), sent ++ [call]) ∧
     match data with
     | JNull => False
     | _ => True
     end)).
  { destruct data; auto. }
  destruct Hresult as [->|[Hresult Hdata]].
  { eexists _, _. split; [reflexivity|]. by repeat split. }
  rewrite Hresult. cbv zeta.
  eexists _, _. split; [reflexivity|].
  split; [by apply or_text_nonempty|]. split; [done|]. by destruct data.
Qed.

(** With nothing configured and AutoRAG out of reach, the first route has
    tried "accounts/undefined" with the bearer "undefined". *)
Lemma first_route_without_configuration :
  ChatRoute1.POST nothing_configured offline hello [] =
  (inr (mkChatReply 200 (JString ChatRoute1.fallback)),
   [mkCall
      "https://api.cloudflare.com/client/v4/accounts/undefined/autorag/rags/alleato-docs/ai-search"
      "Bearer undefined" (Some (JString "hello")) true 10 (7 # 10)]).
Proof. reflexivity. Qed.
End ChatRouteFacts.


(** * The other endpoints of the worker *)

(** ** The project a chat message names *)

Lemma rest_after_app (prefix s rest : string) :
  rest_after prefix s = Some rest ↔ s = prefix +:+ rest.
Proof.
  revert s. induction prefix as [|p prefix IH]; intros s; simpl.
  - change ("" +:+ rest) with rest. split; congruence.
  - rewrite app_cons. destruct s as [|c s]; [done|].
    destruct (Ascii.eqb_spec p c) as [->|Hne].
    + rewrite IH. split; congruence.
    + split; congruence.
Qed.

Lemma first_char_app (a b : string) :
  first_char (a +:+ b) = match first_char a with Some c => Some c | None => first_char b end.
Proof. destruct a; [done|]. by rewrite app_cons. Qed.

(** Every alternative starts and ends with a word character. *)
Lemma keyword_ends (keyword : string) :
  keyword ∈ project_keywords →
  from_option is_word false (first_char keyword) = true ∧
  from_option is_word false (last_char keyword) = true.
Proof.
  revert keyword. apply Forall_forall. unfold project_keywords.
  repeat (apply Forall_cons; split; [done|]). apply Forall_nil_2.
Qed.

Lemma matches_here_iff (before : option ascii) (s keyword : string) :
  keyword ∈ project_keywords →
  matches_here before s keyword = true ↔
  ∃ post, s = keyword +:+ post ∧
          from_option is_word false before = false ∧
          from_option is_word false (first_char post) = false.
Proof.
  intros [Hfirst Hlast]%keyword_ends. unfold matches_here, word_boundary.
  rewrite Hlast. split.
  - destruct (rest_after keyword s) as [rest|] eqn:Hrest;
      [|by rewrite andb_false_r].
    apply rest_after_app in Hrest as ->. rewrite first_char_app.
    destruct (first_char keyword) as [c|]; [|done]. simpl in Hfirst. simpl.
    rewrite Hfirst. intros [Hb Ha]%andb_prop. exists rest. split; [done|].
    split; [by destruct (from_option is_word false before) |
            by destruct (from_option is_word false (first_char rest))].
  - intros (post & -> & Hb & Ha).
    rewrite (proj2 (rest_after_app keyword _ post) eq_refl), first_char_app.
    destruct (first_char keyword) as [c|]; [|done]. simpl in Hfirst. simpl.
    by rewrite Hfirst, Hb, Ha.
Qed.

Lemma last_char_cons (c : ascii) (s : string) : is_Some (last_char (String c s)).
Proof.
  revert c. induction s as [|a s IH]; intros c; [by eexists|].
  change (last_char (String c (String a s))) with (last_char (String a s)). apply IH.
Qed.

Lemma last_before_cons (before : option ascii) (c : ascii) (pre : string) :
  last_before before (String c pre) = last_before (Some c) pre.
Proof.
  unfold last_before. destruct pre as [|a pre]; [done|].
  change (last_char (String c (String a pre))) with (last_char (String a pre)).
  by destruct (last_char_cons a pre) as [x ->].
Qed.

Lemma first_match_eq (before : option ascii) (s : string) :
  first_match before s =
  match list_find (λ k, matches_here before s k = true) project_keywords with
  | Some (_, keyword) => Some keyword
  | None =>
      match s with
      | EmptyString => None
      | String c rest => first_match (Some c) rest
      end
  end.
Proof. by destruct s. Qed.

Lemma first_match_Some (before : option ascii) (s keyword : string) :
  first_match before s = Some keyword →
  keyword ∈ project_keywords ∧ whole_word_from before keyword s.
Proof.
  revert before. induction s as [|c s IH]; intros before; rewrite first_match_eq;
    destruct (list_find (λ k, matches_here before _ k = true) project_keywords)
      as [[i k]|] eqn:Hfind; try done.
  - intros [= ->]. apply list_find_Some in Hfind as (Hk%list_elem_of_lookup_2 & Hm & _).
    split; [done|]. apply matches_here_iff in Hm as (post & Hs & Hb & Ha); [|done].
    by exists "", post.
  - intros [= ->]. apply list_find_Some in Hfind as (Hk%list_elem_of_lookup_2 & Hm & _).
    split; [done|]. apply matches_here_iff in Hm as (post & Hs & Hb & Ha); [|done].
    by exists "", post.
  - intros (Hk & pre & post & -> & Hb & Ha)%IH. split; [done|].
    exists (String c pre), post. rewrite app_cons. split; [done|].
    by rewrite last_before_cons.
Qed.

Lemma first_match_None (before : option ascii) (s keyword : string) :
  first_match before s = None → keyword ∈ project_keywords →
  ¬ whole_word_from before keyword s.
Proof.
  intros Hnone Hk (pre & post & -> & Hb & Ha).
  revert before Hnone Hb. induction pre as [|c pre IH]; intros before Hnone Hb;
    rewrite first_match_eq in Hnone.
  - assert (Hm : matches_here before ("" +:+ keyword +:+ post) keyword = true).
    { apply matches_here_iff; [done|]. by exists post. }
    assert (Hfind : is_Some (list_find
                               (λ k, matches_here before ("" +:+ keyword +:+ post) k = true)
                               project_keywords)).
    { by apply list_find_elem_of with keyword. }
    destruct Hfind as [[i k] Hfind]. by rewrite Hfind in Hnone.
  - destruct (list_find (λ k, matches_here before _ k = true) project_keywords)
      as [[i k]|]; [done|].
    rewrite app_cons in Hnone. apply (IH (Some c)); [done|].
    by rewrite <- (last_before_cons before).
Qed.

(** X12. The chat looks for a project exactly when the message, in lower
    case, has one of the four project names as a word of its own, with no
    letter, digit or underscore next to it; the keyword it looks for is then
    one of the four, whatever else the message says. *)
Theorem project_keyword_is_a_whole_word (env : Env) (message : string) :
  match first_keyword env message with
  | Some keyword =>
      keyword ∈ project_keywords ∧ whole_word keyword (toLowerCase env message)
  | None =>
      ∀ keyword, keyword ∈ project_keywords →
                 ¬ whole_word keyword (toLowerCase env message)
  end.
Proof.
  unfold first_keyword, whole_word.
  destruct (first_match None (toLowerCase env message)) as [keyword|] eqn:Hmatch.
  - by apply first_match_Some.
  - intros keyword. by apply first_match_None.
Qed.

(** ** The chat of the worker *)

Section Chat.
Context (env : Env) (services : Services).

Lemma d1_run {A} (answer : World → Exn + A) (w : World) : d1 answer w = (answer w, w).
Proof. reflexivity. Qed.

Lemma read_body_run (body : Text) (w : World) :
  read_body body w =
  match message_of body with
  | Some message => (inr message, w)
  | None =>
      (inl match body with
           | Plain _ => SyntaxError "Unexpected token in JSON"
           | _ => TypeError "Cannot destructure property 'message' of null"
           end, w)
  end.
Proof. by destruct body as [[]|]. Qed.

Lemma extractProjectContext_world (message : option JValue) (w : World) :
  snd (extractProjectContext env services message w) = w.
Proof.
  unfold extractProjectContext. destruct message as [[]|]; try done.
  destruct (first_keyword _); [|done]. rewrite run_bind, d1_run.
  destruct (d1_context services w _) as [e|[|row rows]]; try done.
  rewrite run_bind, d1_run. by destruct (d1_context_insights services w _).
Qed.

Lemma localized_world (value : option Q) (w : World) :
  snd (localized env value w) = w.
Proof. by destruct value. Qed.

Lemma enhanced_world (context : ProjectContext) (message : string) (w : World) :
  snd (enhanced env context message w) = w.
Proof.
  unfold enhanced. rewrite run_bind.
  pose proof (localized_world (cx_actual_cost (context_row context)) w) as H1.
  destruct (localized env (cx_actual_cost _) w) as [[e|actual] w1]; simpl in H1;
    subst w1; [done|].
  rewrite run_bind.
  pose proof (localized_world (pd_estimated_value (cx_project (context_row context))) w)
    as H2.
  by destruct (localized env (pd_estimated_value _) w) as [[e|estimated] w2].
Qed.

(** What the [try] block of the chat comes to, from the query on. *)
Lemma chat_from_query (projectContext : option ProjectContext) (query : option JValue)
    (w : World) :
  try_catch
    (autoragResponse ← call_autorag services
       (ai_search (Some (account_id services)) (Some (api_token services)) query (7 # 10));
     if negb (http_ok autoragResponse)
     then throw (Error ("AutoRAG API error: " +:+ pretty (http_status autoragResponse)))
     else
       data ← lift (http_json autoragResponse);
       result ← result_of data;
       let aiResponse := or_text (optional_prop "response" result) apology in
       let note :=
         match projectContext with
         | Some context =>
             if bool_decide (0 < length (context_insights context))%nat
             then Some (project_insights_note (context_insights context))
             else None
         | None => None
         end in
       mret (mkReply 200
               (ChatAnswer (mkSpoken aiResponse note)
                  ((λ context,
                      let row := context_row context in
                      mkContextSummary (pd_name (cx_project row))
                        (pd_status (cx_project row)) (cx_budget_health row))
                     <$> projectContext))))
    (λ error, mret (mkReply 200 (ChatFallback chat_fallback))) w =
  (inr (mkReply 200
          (answer_of
             (autorag services
                (ai_search (Some (account_id services)) (Some (api_token services)) query
                   (7 # 10)))
             match projectContext with
             | Some context =>
                 if bool_decide (0 < length (context_insights context))%nat
                 then Some (project_insights_note (context_insights context))
                 else None
             | None => None
             end
             ((λ context,
                 let row := context_row context in
                 mkContextSummary (pd_name (cx_project row))
                   (pd_status (cx_project row)) (cx_budget_health row))
                <$> projectContext))), w).
Proof.
  rewrite run_try_catch, run_bind. unfold call_autorag, answer_of.
  destruct (autorag services _) as [e|r]; [done|]. rewrite run_ret.
  destruct (http_ok r); cbn [negb]; [|done].
  rewrite run_bind. unfold lift. destruct (http_json r) as [e|data]; [done|].
  rewrite run_bind. by destruct data.
Qed.

Lemma answer_of_cases (reply : Fetched) (note : option string)
    (summary_ : option ContextSummary) :
  answer_of reply note summary_ = ChatFallback chat_fallback ∨
  ∃ answer, answer_of reply note summary_ = ChatAnswer answer summary_ ∧
            is_truthy (said answer) = true.
Proof.
  unfold answer_of. destruct reply as [e|r]; [by left|].
  destruct (http_ok r); [|by left]. destruct (http_json r) as [e|data]; [by left|].
  assert (Hsaid : is_truthy (or_text (optional_prop "response" (prop "result" data))
                               apology) = true) by (by apply or_text_nonempty).
  destruct data; [by left|right; by eexists..].
Qed.

(** The [try] block of the chat, whatever it throws, ends in a response. *)
Lemma chat_attempt (message : option JValue) (w : World) :
  ∃ payload,
    try_catch
      (projectContext ← extractProjectContext env services message;
       enhancedMessage ←
         match projectContext, message with
         | Some context, Some (JString text_) =>
             enhancedMessage ← enhanced env context text_;
             mret (Some (JString enhancedMessage))
         | _, _ => mret message
         end;
       autoragResponse ← call_autorag services
         (ai_search (Some (account_id services)) (Some (api_token services))
            enhancedMessage (7 # 10));
       if negb (http_ok autoragResponse)
       then throw (Error ("AutoRAG API error: " +:+ pretty (http_status autoragResponse)))
       else
         data ← lift (http_json autoragResponse);
         result ← result_of data;
         let aiResponse := or_text (optional_prop "response" result) apology in
         let note :=
           match projectContext with
           | Some context =>
               if bool_decide (0 < length (context_insights context))%nat
               then Some (project_insights_note (context_insights context))
               else None
           | None => None
           end in
         mret (mkReply 200
                 (ChatAnswer (mkSpoken aiResponse note)
                    ((λ context,
                        let row := context_row context in
                        mkContextSummary (pd_name (cx_project row))
                          (pd_status (cx_project row)) (cx_budget_health row))
                       <$> projectContext))))
      (λ error, mret (mkReply 200 (ChatFallback chat_fallback))) w =
    (inr (mkReply 200 payload), w) ∧
    (payload = ChatFallback chat_fallback ∨
     ∃ answer context, payload = ChatAnswer answer context ∧
                       is_truthy (said answer) = true).
Proof.
  rewrite run_try_catch, run_bind.
  pose proof (extractProjectContext_world message w) as Hw1.
  destruct (extractProjectContext env services message w) as [[e|projectContext] w1];
    simpl in Hw1; subst w1.
  { eexists. split; [reflexivity | by left]. }
  rewrite run_bind.
  set (query := match projectContext, message with
                | Some context, Some (JString text_) =>
                    enhancedMessage ← enhanced env context text_;
                    mret (Some (JString enhancedMessage))
                | _, _ => mret message
                end).
  assert (Hquery : snd (query w) = w).
  { subst query. destruct projectContext as [context|]; [|done].
    destruct message as [[]|]; try done. rewrite run_bind.
    pose proof (enhanced_world context s w) as Hw.
    by destruct (enhanced env context s w) as [[e|text_] w1]. }
  destruct (query w) as [[e|enhancedMessage] w1]; simpl in Hquery; subst w1.
  { eexists. split; [reflexivity | by left]. }
  pose proof (chat_from_query projectContext enhancedMessage w) as Hrun.
  rewrite run_try_catch in Hrun.
  match type of Hrun with
  | match ?c w with _ => _ end = (inr (mkReply 200 ?p), w) =>
      match goal with |- context [match ?c' w with _ => _ end] =>
        change c' with c end;
      destruct (answer_of_cases _ _ _ : p = _ ∨ _) as [Hp|(answer & Hp & Hsaid)];
      rewrite Hp in Hrun; rewrite Hrun
  end.
  - eexists. split; [reflexivity | by left].
  - eexists. split; [reflexivity|]. right. by eexists _, _.
Qed.

Lemma chat_outcome (request : Request) (w : World) :
  snd (handleEnhancedChat env services request w) = w ∧
  ∀ r, fst (handleEnhancedChat env services request w) = inr r →
       reply_status r = 200 ∨ reply_status r = 405.
Proof.
  unfold handleEnhancedChat. case_bool_decide.
  { split; [done|]. intros r [= <-]. by right. }
  rewrite run_bind, read_body_run.
  destruct (message_of (req_body request)) as [message|]; [|done].
  assert (Hattempt : ∀ c : M Reply,
    (∃ payload, c w = (inr (mkReply 200 payload), w) ∧
       (payload = ChatFallback chat_fallback ∨
        ∃ answer context, payload = ChatAnswer answer context ∧
                          is_truthy (said answer) = true)) →
    snd (c w) = w ∧ ∀ r, fst (c w) = inr r → reply_status r = 200 ∨ reply_status r = 405).
  { intros c (payload & -> & _). split; [done|]. intros r [= <-]. by left. }
  apply Hattempt, chat_attempt.
Qed.

(** X13. The chat of the worker reads the body of the request before its
    [try]: a body that is no JSON, or null, makes the handler throw. Once the
    body is read it always answers with status 200 and leaves the store as it
    is: with an answer whose text is truthy, or, whatever has thrown (the
    database, the template, the request to AutoRAG, its reply), with the
    fallback sentence. A method other than POST gets 405. *)
Theorem chat_answers_once_the_body_is_read (request : Request) (w : World) :
  if decide (req_method request = "POST")
  then
    match message_of (req_body request) with
    | Some message =>
        ∃ payload,
          handleEnhancedChat env services request w = (inr (mkReply 200 payload), w) ∧
          (payload = ChatFallback chat_fallback ∨
           ∃ answer context, payload = ChatAnswer answer context ∧
                             is_truthy (said answer) = true)
    | None => ∃ e, handleEnhancedChat env services request w = (inl e, w)
    end
  else
    handleEnhancedChat env services request w =
    (inr (mkReply 405 (PlainText "Method not allowed")), w).
Proof.
  unfold handleEnhancedChat. destruct (decide (req_method request = "POST")) as [Hpost|Hne].
  2: { by rewrite bool_decide_eq_true_2. }
  rewrite bool_decide_eq_false_2 by (intros H; by apply H).
  rewrite run_bind, read_body_run.
  destruct (message_of (req_body request)) as [message|]; [|by eexists].
  apply chat_attempt.
Qed.
End Chat.

Section Chat_context.
Context (env : Env) (services : Services).

Lemma chat_of_message (request : Request) (message : option JValue) (w : World) :
  req_method request = "POST" →
  message_of (req_body request) = Some message →
  handleEnhancedChat env services request w =
  try_catch
    (projectContext ← extractProjectContext env services message;
     enhancedMessage ←
       match projectContext, message with
       | Some context, Some (JString text_) =>
           enhancedMessage ← enhanced env context text_;
           mret (Some (JString enhancedMessage))
       | _, _ => mret message
       end;
     autoragResponse ← call_autorag services
       (ai_search (Some (account_id services)) (Some (api_token services))
          enhancedMessage (7 # 10));
     if negb (http_ok autoragResponse)
     then throw (Error ("AutoRAG API error: " +:+ pretty (http_status autoragResponse)))
     else
       data ← lift (http_json autoragResponse);
       result ← result_of data;
       let aiResponse := or_text (optional_prop "response" result) apology in
       let note :=
         match projectContext with
         | Some context =>
             if bool_decide (0 < length (context_insights context))%nat
             then Some (project_insights_note (context_insights context))
             else None
         | None => None
         end in
       mret (mkReply 200
               (ChatAnswer (mkSpoken aiResponse note)
                  ((λ context,
                      let row := context_row context in
                      mkContextSummary (pd_name (cx_project row))
                        (pd_status (cx_project row)) (cx_budget_health row))
                     <$> projectContext))))
    (λ error, mret (mkReply 200 (ChatFallback chat_fallback))) w.
Proof.
  intros Hpost Hmessage. unfold handleEnhancedChat.
  rewrite bool_decide_eq_false_2 by (intros H; by apply H).
  by rewrite run_bind, read_body_run, Hmessage.
Qed.

(** X14. A message that names no project goes to AutoRAG as it is, as the
    query of the one request, and the database is not asked anything: the
    response is what the chat makes of the reply to that request, with no
    project context and nothing put behind the answer. *)
Theorem chat_without_project_sends_the_message_itself (request : Request)
    (text_ : string) (w : World)
    (Hpost : req_method request = "POST")
    (Hmessage : message_of (req_body request) = Some (Some (JString text_)))
    (Hnone : first_keyword env text_ = None) :
  handleEnhancedChat env services request w =
  (inr (mkReply 200
          (answer_of
             (autorag services
                (mkCall
                   ("https://api.cloudflare.com/client/v4/accounts/" +:+
                    account_id services +:+ "/autorag/rags/alleato-docs/ai-search")
                   ("Bearer " +:+ api_token services) (Some (JString text_)) true 10
                   (7 # 10)))
             None None)), w).
Proof.
  rewrite (chat_of_message request _ w Hpost Hmessage).
  pose proof (chat_from_query services None (Some (JString text_)) w) as Hrun.
  rewrite run_try_catch in Hrun |- *. rewrite run_bind.
  unfold extractProjectContext. rewrite Hnone, run_ret, run_bind, run_ret.
  exact Hrun.
Qed.

(** X15. For a project whose actual cost or estimated value is NULL the
    chat has no answer: the template of the project context throws on the
    missing number, and the response is the fallback sentence, whatever
    AutoRAG would have said. *)
Theorem chat_falls_back_without_budget_numbers (request : Request) (text_ keyword : string)
    (row : ContextRow) (rows : list ContextRow) (w : World)
    (Hpost : req_method request = "POST")
    (Hmessage : message_of (req_body request) = Some (Some (JString text_)))
    (Hkeyword : first_keyword env text_ = Some keyword)
    (Hrow : d1_context services w ("%" +:+ keyword +:+ "%") = inr (row :: rows))
    (Hnull : cx_actual_cost row = None ∨ pd_estimated_value (cx_project row) = None) :
  handleEnhancedChat env services request w =
  (inr (mkReply 200 (ChatFallback chat_fallback)), w).
Proof.
  rewrite (chat_of_message request _ w Hpost Hmessage).
  rewrite run_try_catch, run_bind.
  unfold extractProjectContext. rewrite Hkeyword, run_bind, d1_run, Hrow.
  rewrite run_bind, d1_run.
  destruct (d1_context_insights services w _) as [e|insights_]; [done|].
  rewrite run_ret, run_bind, run_bind. unfold enhanced. cbn [context_row].
  rewrite run_bind. unfold localized at 1.
  destruct (cx_actual_cost row) as [actual|]; [|done]. rewrite run_ret, run_bind.
  destruct Hnull as [|Hnull]; [done|]. by rewrite Hnull.
Qed.

End Chat_context.

Lemma chat_without_project_sends_the_message_itself_sample :
  handleEnhancedChat (calm (FetchJson None) (λ _, AiThrows (Error "unavailable")) ticking)
    (sample_services None) (chat_request "What is new?") empty_world =
  (inr (mkReply 200 (ChatAnswer (mkSpoken (JString "All good.") None) None)), empty_world).
Proof.
  rewrite (chat_without_project_sends_the_message_itself _ (sample_services None)
             (chat_request "What is new?") "What is new?" empty_world);
    reflexivity.
Defined.

Lemma chat_falls_back_without_budget_numbers_sample :
  handleEnhancedChat (calm (FetchJson None) (λ _, AiThrows (Error "unavailable")) ticking)
    (sample_services None) (chat_request "How is Goodwill doing?") empty_world =
  (inr (mkReply 200 (ChatFallback chat_fallback)), empty_world) ∧
  handleEnhancedChat (calm (FetchJson None) (λ _, AiThrows (Error "unavailable")) ticking)
    (sample_services (Some 180000%Q)) (chat_request "How is Goodwill doing?") empty_world =
  (inr (mkReply 200
          (ChatAnswer
             (mkSpoken (JString "All good.")
                (Some (project_insights_note
                         [mkContextInsight "Permit delay" "The permit is late."])))
             (Some (mkContextSummary "Goodwill" "active" "healthy")))), empty_world).
Proof.
  split; [|by vm_compute].
  apply (chat_falls_back_without_budget_numbers _ (sample_services None)
           (chat_request "How is Goodwill doing?") "How is Goodwill doing?" "goodwill"
           (goodwill_context None) [] empty_world); try reflexivity. by left.
Defined.

(** ** The list of projects *)

(** X16. The statement of the projects list has as many placeholders as
    values are bound to it, and its text depends only on which of the two
    filters are given (a parameter that is missing or empty is no filter),
    never on their values, which are bound. *)
Theorem projects_query_binds_every_placeholder (status_ clientId : option string) :
  placeholders (projects_query status_ clientId) =
    length (projects_params status_ clientId) ∧
  (∀ status' clientId',
     truthy status' = truthy status_ → truthy clientId' = truthy clientId →
     projects_query status' clientId' = projects_query status_ clientId).
Proof.
  split.
  - by destruct status_ as [[|c s]|], clientId as [[|c' s']|].
  - intros status' clientId' Hs Hc. unfold projects_query, projects_conditions.
    by rewrite Hs, Hc.
Qed.

(** ** Sums of doubles *)

Lemma nearest_even_whole (n : Z) : JS.nearest_even n 1 = n.
Proof.
  unfold JS.nearest_even. rewrite Z.div_1_r, Z.mod_1_r. reflexivity.
Qed.

Lemma Qred_whole (n c : Z) : 0 < c → Qred ((n * c) # Z.to_pos c) = inject_Z n.
Proof.
  intros Hc. rewrite <- inject_Z_Qred. apply Qred_complete.
  unfold Qeq, inject_Z. simpl. rewrite Z2Pos.id by done. lia.
Qed.

(** A whole number within the safe integers is a double. *)
Lemma double_whole_positive (n : Z) :
  0 < n ≤ 2 ^ 53 → JS.double (inject_Z n) = inject_Z n.
Proof.
  intros Hn. unfold JS.double, inject_Z. cbn [Qnum Qden].
  rewrite Z.abs_eq by lia.
  rewrite (proj2 (Z.eqb_neq n 0)) by lia.
  rewrite (proj2 (Z.ltb_ge n 0)) by lia.
  assert (Hexp : JS.exponent n 1 = Z.log2 n).
  { unfold JS.exponent. change (Z.log2 1) with 0. rewrite Z.sub_0_r.
    pose proof (Z.log2_nonneg n) as Hnonneg.
    rewrite (proj2 (Z.leb_le 0 (Z.log2 n))) by done.
    destruct (Z.log2_spec n) as [Hlow _]; [lia|].
    by rewrite (proj2 (Z.leb_le _ _)) by lia. }
  rewrite Hexp.
  pose proof (Z.log2_nonneg n) as Hnonneg.
  assert (Hlog : Z.log2 n ≤ 53).
  { change 53 with (Z.log2 (2 ^ 53)). apply Z.log2_le_mono. lia. }
  rewrite Z.max_l by lia.
  destruct (Z.leb_spec 0 (Z.log2 n - 52)) as [Hbig|Hsmall].
  - assert (Hcases : Z.log2 n = 52 ∨ Z.log2 n = 53) by lia.
    destruct Hcases as [H52|H53].
    + rewrite H52. change (52 - 52) with 0. change (1 * 2 ^ 0) with 1.
      rewrite nearest_even_whole. unfold JS.scaled.
      change (0 <=? 0) with true. cbv iota. change (2 ^ 0) with 1.
      by rewrite Z.mul_1_r.
    + assert (Heq : n = 2 ^ 53).
      { destruct (Z.log2_spec n) as [Hlow _]; [lia|]. rewrite H53 in Hlow. lia. }
      subst n. vm_compute. reflexivity.
  - rewrite nearest_even_whole. unfold JS.scaled.
    rewrite (proj2 (Z.leb_gt _ _)) by lia.
    apply Qred_whole. apply Z.pow_pos_nonneg; lia.
Qed.

Lemma double_whole (x : Q) :
  Qden x = 1%positive → 0 ≤ Qnum x ≤ 2 ^ 53 → JS.double x = inject_Z (Qnum x).
Proof.
  destruct x as [n d]. simpl. intros -> Hn.
  destruct (decide (n = 0)) as [->|Hne]; [reflexivity|].
  apply (double_whole_positive n). lia.
Qed.

(** The sum of two whole numbers that is within the safe integers is
    exact. *)
Lemma plus_whole (a b : Z) :
  0 ≤ a → 0 ≤ b → a + b ≤ 2 ^ 53 →
  JS.plus (inject_Z a) (inject_Z b) = Some (inject_Z (a + b)).
Proof.
  intros Ha Hb Hsum. unfold JS.plus.
  rewrite (double_whole (inject_Z a + inject_Z b)); [|done|simpl; lia].
  replace (Qnum (inject_Z a + inject_Z b)) with (a + b) by (simpl; lia).
  destruct (Qle_bool _ _) eqn:Hle; [|done].
  apply Qle_bool_iff in Hle.
  change (Qabs (inject_Z (a + b))) with (inject_Z (Z.abs (a + b))) in Hle.
  rewrite <- Zle_Qle in Hle.
  assert (2 ^ 53 < 2 ^ 1024) by (apply Z.pow_lt_mono_r; lia). lia.
Qed.

(** ** The summary of the projects list *)

Lemma count_status_cons (value : string) (p : DashboardRow) (rows : list DashboardRow) :
  count_status value (p :: rows) =
  ((if decide (pd_timeline_status p = Some value) then 1 else 0) +
   count_status value rows)%nat.
Proof.
  unfold count_status. destruct (decide (pd_timeline_status p = Some value)).
  - by rewrite filter_cons_True.
  - by rewrite filter_cons_False.
Qed.

Lemma statuses_counted (rows : list DashboardRow) :
  (count_status "ON_TRACK" rows + count_status "AT_RISK" rows +
   count_status "OVERDUE" rows ≤ length rows)%nat ∧
  ((count_status "ON_TRACK" rows + count_status "AT_RISK" rows +
    count_status "OVERDUE" rows)%nat = length rows ↔
   Forall (λ p, pd_timeline_status p ∈
                  [Some "ON_TRACK"; Some "AT_RISK"; Some "OVERDUE"]) rows).
Proof.
  induction rows as [|p rows [IHle IHeq]].
  - split; [done|]. split; [by constructor | done].
  - rewrite !count_status_cons. simpl length.
    assert (Hp : pd_timeline_status p ∈
                   [Some "ON_TRACK"; Some "AT_RISK"; Some "OVERDUE"] ↔
                 ((if decide (pd_timeline_status p = Some "ON_TRACK") then 1 else 0) +
                  (if decide (pd_timeline_status p = Some "AT_RISK") then 1 else 0) +
                  (if decide (pd_timeline_status p = Some "OVERDUE") then 1 else 0)
                  = 1)%nat).
    { rewrite !elem_of_cons, elem_of_nil. repeat case_decide; split; try lia;
        try congruence; try tauto. }
    assert (Hone : ((if decide (pd_timeline_status p = Some "ON_TRACK") then 1 else 0) +
                    (if decide (pd_timeline_status p = Some "AT_RISK") then 1 else 0) +
                    (if decide (pd_timeline_status p = Some "OVERDUE") then 1 else 0)
                    ≤ 1)%nat).
    { repeat case_decide; try lia; congruence. }
    split; [lia|]. rewrite Forall_cons, Hp, <- IHeq. lia.
Qed.

Lemma whole_values_nonneg (rows : list DashboardRow) (values : list Z) :
  whole_values rows values → 0 ≤ foldr Z.add 0 values.
Proof. induction 1 as [|p v rows values [Hv _] _ IH]; simpl; lia. Qed.

Lemma total_value_whole (rows : list DashboardRow) (values : list Z) :
  whole_values rows values → foldr Z.add 0 values ≤ 2 ^ 53 →
  total_value rows = Some (inject_Z (foldr Z.add 0 values)).
Proof.
  unfold total_value. change (Some 0%Q) with (Some (inject_Z 0)).
  intros Hvalues.
  assert (Hacc : ∀ acc, 0 ≤ acc → acc + foldr Z.add 0 values ≤ 2 ^ 53 →
    foldl (λ sum p, sum ≫= λ so_far, JS.plus so_far (value_or_zero p))
      (Some (inject_Z acc)) rows = Some (inject_Z (acc + foldr Z.add 0 values))).
  { induction Hvalues as [|p v rows values [Hv Hp] Hrest IH]; intros acc Hacc Hsum.
    - simpl. by rewrite Z.add_0_r.
    - pose proof (whole_values_nonneg rows values Hrest) as Hnonneg.
      simpl in Hsum. cbn [foldl foldr].
      assert (Hvalue : value_or_zero p = inject_Z v).
      { unfold value_or_zero. by destruct Hp as [->|[-> ->]]. }
      rewrite Hvalue. cbn [mbind option_bind].
      rewrite plus_whole by lia. rewrite IH by lia. f_equal. f_equal. lia. }
  intros Hsum. rewrite Hacc by lia. done.
Qed.

(** X17. The projects list answers with the rows that D1 returns, as they
    are, and a summary of them: [total] is their number; the three counts by
    timeline status never add up to more, and to exactly [total] when every
    row is on track, at risk or overdue; [totalValue] adds up the estimated
    values from the first row on, a row without one counting for 0, in the
    arithmetic of doubles: it is their exact sum when the values are whole
    numbers, none below zero, whose sum is a safe integer. The endpoint has
    no [try]: when the statement throws, so does the handler. The store is
    left as it is. *)
Theorem projects_list_summary (services : Services) (request : Request) (w : World) :
  match d1_projects services w
          (projects_query (searchParams request "status") (searchParams request "client"))
          (projects_params (searchParams request "status") (searchParams request "client"))
  with
  | inr rows =>
      ∃ s,
        handleProjectsList services request w =
          (inr (mkReply 200 (ProjectsList rows s)), w) ∧
        total_ s = length rows ∧
        (onTrack s + atRisk s + overdue s ≤ total_ s)%nat ∧
        ((onTrack s + atRisk s + overdue s)%nat = total_ s ↔
         Forall (λ p, pd_timeline_status p ∈
                        [Some "ON_TRACK"; Some "AT_RISK"; Some "OVERDUE"]) rows) ∧
        (∀ values, whole_values rows values → foldr Z.add 0 values ≤ 2 ^ 53 →
                   totalValue s = Some (inject_Z (foldr Z.add 0 values)))
  | inl e => handleProjectsList services request w = (inl e, w)
  end.
Proof.
  unfold handleProjectsList. cbv zeta. rewrite run_bind, d1_run.
  destruct (d1_projects services w _ _) as [e|rows]; [done|].
  rewrite run_ret. eexists. split; [reflexivity|]. cbn [total_ onTrack atRisk overdue
    totalValue]. destruct (statuses_counted rows) as [Hle Heq].
  split; [done|]. split; [done|]. split; [done|]. apply total_value_whole.
Qed.

(** The projects of one status: one placeholder, one bound value, and the
    summary of the one row of the sample store. *)
Lemma projects_list_summary_sample :
  ∃ s,
    handleProjectsList (sample_services None) (projects_request (Some "active") (Some ""))
      dashboard_world =
      (inr (mkReply 200 (ProjectsList [goodwill_row] s)), dashboard_world) ∧
    total_ s = 1%nat ∧ onTrack s = 1%nat ∧
    totalValue s = Some (inject_Z 250000).
Proof.
  pose proof (projects_list_summary (sample_services None)
                (projects_request (Some "active") (Some "")) dashboard_world) as H.
  change (d1_projects _ _ _ _) with (inr (B := list DashboardRow) (A := Exn) [goodwill_row])
    in H.
  destruct H as (s & Hrun & Htotal & _ & _ & Hvalue).
  exists s. split; [done|]. split; [done|].
  split; [by vm_compute in Hrun; injection Hrun as <-|].
  apply (Hvalue [250000]); [|by vm_compute].
  constructor; [|constructor]. split; [lia | by left].
Defined.

Lemma projects_list_example :
  projects_query (Some "active") (Some "") =
    "SELECT * FROM project_dashboard WHERE status = ? ORDER BY priority DESC, timeline_status ASC" ∧
  projects_params (Some "active") (Some "") = ["active"].
Proof. by vm_compute. Qed.

(** Fractions are added as doubles are: a tenth and two tenths, each the
    double nearest to it, do not add up to the double nearest to three
    tenths. *)
Lemma doubles_add_with_rounding :
  ∃ sum, JS.plus (JS.double (1 # 10)) (JS.double (2 # 10)) = Some sum ∧
         Qeq_bool sum (JS.double (3 # 10)) = false ∧
         Qeq_bool sum (JS.double (3 # 10) + inject_Z 1 / inject_Z (2 ^ 54)) = true.
Proof. eexists. split; [vm_compute; reflexivity|]. by vm_compute. Qed.

(** ** The router *)

Lemma dash_meetings_world (l : list MeetingRow) (w : World) :
  snd (map_M dash_meeting l w) = w.
Proof.
  induction l as [|m l IH]; [done|]. cbn [map_M]. rewrite run_bind.
  assert (Hm : snd (dash_meeting m w) = w).
  { unfold dash_meeting. rewrite run_bind.
    pose proof (parse_or_empty_world (mr_action_items_json m) w) as H1.
    destruct (parse_or_empty (mr_action_items_json m) w) as [[e|a] w1]; simpl in H1;
      subst w1; [done|].
    rewrite run_bind. pose proof (parse_or_empty_world (mr_ai_risk_flags m) w) as H2.
    by destruct (parse_or_empty (mr_ai_risk_flags m) w) as [[e|r] w2]. }
  destruct (dash_meeting m w) as [[e|d] w1]; simpl in Hm; subst w1; [done|].
  rewrite run_bind. destruct (map_M dash_meeting l w) as [[e|ds] w2];
    simpl in IH; by subst w2.
Qed.

Lemma handleProjectDashboard_world (env : Env) (id : option string) (w : World) :
  snd (handleProjectDashboard env id w) = w.
Proof.
  unfold handleProjectDashboard. destruct id as [[|c s]|]; try done.
  rewrite run_bind. unfold db_all at 1. destruct (db_fault env w _); [done|].
  destruct (select_project_dashboard (String c s) w) as [|p rest]; [done|].
  rewrite run_bind. unfold db_all at 1. destruct (db_fault env w _); [done|].
  rewrite run_bind. unfold db_all at 1. destruct (db_fault env w _); [done|].
  rewrite run_bind. unfold db_all at 1. destruct (db_fault env w _); [done|].
  rewrite run_bind.
  pose proof (dash_meetings_world (select_recent_meetings env (String c s) w) w) as Hcells.
  destruct (map_M dash_meeting _ w) as [[e|view] w1]; simpl in Hcells; subst w1;
    [done|].
  rewrite run_bind.
  pose proof (generateExecutiveSummary_world env p
                (select_project_insights (String c s) w)
                (select_recent_meetings env (String c s) w) w) as Hsummary.
  by destruct (generateExecutiveSummary env p _ _ w) as [[e|executive] w1];
    simpl in Hsummary; subst w1.
Qed.

Ltac among :=
  cbn [reply_status of_response]; rewrite ?elem_of_cons in *;
  intuition (eauto; congruence).

Lemma handleProjectDashboard_status (env : Env) (id : option string) (w w' : World)
    (r : Response) :
  handleProjectDashboard env id w = (inr r, w') → status r ∈ [200; 400; 404].
Proof.
  unfold handleProjectDashboard. destruct id as [[|c s]|];
    try (intros [= <- _]; among).
  rewrite run_bind. unfold db_all at 1. destruct (db_fault env w _); [done|].
  destruct (select_project_dashboard (String c s) w) as [|p rest];
    [intros [= <- _]; among|].
  rewrite run_bind. unfold db_all at 1. destruct (db_fault env w _); [done|].
  rewrite run_bind. unfold db_all at 1. destruct (db_fault env w _); [done|].
  rewrite run_bind. unfold db_all at 1. destruct (db_fault env w _); [done|].
  rewrite run_bind.
  destruct (map_M dash_meeting _ w) as [[e|view] w1]; [done|].
  rewrite run_bind.
  destruct (generateExecutiveSummary env p _ _ w1) as [[e|executive] w2]; [done|].
  intros [= <- _]. among.
Qed.

Lemma handleEnhancedMeetingSync_status (env : Env) (method : string) (w w' : World)
    (r : Response) :
  handleEnhancedMeetingSync env method w = (inr r, w') → status r ∈ [200; 405].
Proof.
  unfold handleEnhancedMeetingSync. case_bool_decide; [intros [= <- _]; among|].
  rewrite run_try_catch, run_bind.
  destruct (fetch_transcripts env w) as [[e|ts] w1]; [intros [= <- _]; among|].
  rewrite run_bind.
  destruct (allSettled_total (schedule env) (syncTranscript env) ts w1)
    as (rs & w2 & -> & _).
  rewrite run_bind, triggerAutoRAGSync_run. intros [= <- _]. among.
Qed.

Section Router.
Context (env : Env) (services : Services).
Context (handleDocuments handleProjectInsights handleFinancialDashboard handleTasks
         handleCreateProject : Request → Exn + M Reply).

Abbreviation route := (fetch env services handleDocuments handleProjectInsights
                         handleFinancialDashboard handleTasks handleCreateProject).

(** The router hands a request for one of the handlers of the file to that
    handler and returns its promise as it is. *)
Lemma fetch_defined (request : Request) :
  req_method request ≠ "OPTIONS" →
  pathname request ∉ undefined_paths →
  route request =
  if bool_decide (pathname request = "/api/chat")
  then handleEnhancedChat env services request
  else if bool_decide (pathname request = "/api/sync-meetings")
  then answered (handleEnhancedMeetingSync env (req_method request))
  else if bool_decide (pathname request = "/api/projects")
  then handleProjectsList services request
  else if bool_decide (pathname request = "/api/project-dashboard")
  then answered (handleProjectDashboard env (searchParams request "id"))
  else mret (mkReply 404 (PlainText "Endpoint not found")).
Proof.
  intros Hmethod Hpath. unfold fetch, called.
  rewrite bool_decide_eq_false_2 by done.
  unfold undefined_paths in Hpath. rewrite !not_elem_of_cons in Hpath.
  destruct Hpath as (H1 & H2 & H3 & H4 & H5 & _).
  rewrite (bool_decide_eq_false_2 (pathname request = "/api/documents")) by done.
  rewrite (bool_decide_eq_false_2 (pathname request = "/api/project-insights")) by done.
  rewrite (bool_decide_eq_false_2 (pathname request = "/api/financial-dashboard")) by done.
  rewrite (bool_decide_eq_false_2 (pathname request = "/api/tasks")) by done.
  rewrite (bool_decide_eq_false_2 (pathname request = "/api/create-project")) by done.
  by repeat case_bool_decide.
Qed.

Lemma answered_run (handler : M Response) (w : World) :
  answered handler w =
  match handler w with
  | (inr r, w') => (inr (of_response r), w')
  | (inl e, w') => (inl e, w')
  end.
Proof. unfold answered. rewrite run_bind. by destruct (handler w) as [[e|r] w']. Qed.

(** X18. A request to one of the endpoints that the file implements, or to
    a path it does not know, is never answered with the 500 of the router:
    the status is 200, 400, 404 or 405. The router returns the promise of the
    handler without awaiting it, so its [catch] is out of reach of what the
    handler throws. *)
Theorem router_never_answers_500_for_its_handlers (request : Request) (w w' : World)
    (r : Reply)
    (Hpath : pathname request ∉ undefined_paths)
    (Hrun : route request w = (inr r, w')) :
  reply_status r ∈ [200; 400; 404; 405].
Proof.
  destruct (decide (req_method request = "OPTIONS")) as [Hoptions|Hmethod].
  { unfold fetch in Hrun. rewrite bool_decide_eq_true_2 in Hrun by done.
    injection Hrun as <- _. among. }
  rewrite (fetch_defined request Hmethod Hpath) in Hrun.
  repeat case_bool_decide.
  - destruct (chat_outcome env services request w) as [_ Hstatus].
    rewrite Hrun in Hstatus. destruct (Hstatus r eq_refl) as [-> | ->]; among.
  - rewrite answered_run in Hrun.
    destruct (handleEnhancedMeetingSync env _ w) as [[e|r0] w0] eqn:Hsync; [done|].
    injection Hrun as <- _. apply handleEnhancedMeetingSync_status in Hsync. among.
  - unfold handleProjectsList in Hrun. cbv zeta in Hrun. rewrite run_bind, d1_run in Hrun.
    destruct (d1_projects services w _ _); [done|]. injection Hrun as <- _. among.
  - rewrite answered_run in Hrun.
    destruct (handleProjectDashboard env _ w) as [[e|r0] w0] eqn:Hdash; [done|].
    injection Hrun as <- _. apply handleProjectDashboard_status in Hdash. among.
  - injection Hrun as <- _. among.
Qed.

(** X19. What a handler throws passes the router: a dashboard request whose
    first read of the database throws makes [fetch] throw the same exception,
    with no response at all. *)
Theorem rejection_of_a_handler_passes_the_router (request : Request) (id : string)
    (e : Exn) (w : World)
    (Hmethod : req_method request ≠ "OPTIONS")
    (Hpath : pathname request = "/api/project-dashboard")
    (Hid : searchParams request "id" = Some id)
    (Hnonempty : id ≠ "")
    (Hfault : db_fault env w (SelectProjectDashboard id) = Some e) :
  route request w = (inl e, w).
Proof.
  rewrite fetch_defined; [|done|rewrite Hpath; unfold undefined_paths; not_among].
  rewrite Hpath. repeat (rewrite bool_decide_eq_false_2 by done).
  rewrite bool_decide_eq_true_2 by done.
  rewrite answered_run, Hid. destruct id as [|c s]; [done|].
  unfold handleProjectDashboard. rewrite run_bind. unfold db_all. by rewrite Hfault.
Qed.

(** X20. Of the endpoints that the file implements only the sync writes:
    a request to the chat, the projects list or the dashboard, a preflight
    and a request to an unknown path leave the store as it is, whatever their
    outcome. *)
Theorem only_the_sync_endpoint_writes (request : Request) (w : World)
    (Hpath : pathname request ∉ undefined_paths)
    (Hsync : pathname request ≠ "/api/sync-meetings") :
  snd (route request w) = w.
Proof.
  destruct (decide (req_method request = "OPTIONS")) as [Hoptions|Hmethod].
  { unfold fetch. by rewrite bool_decide_eq_true_2. }
  rewrite (fetch_defined request Hmethod Hpath).
  rewrite (bool_decide_eq_false_2 (pathname request = "/api/sync-meetings")) by done.
  repeat case_bool_decide.
  - apply chat_outcome.
  - unfold handleProjectsList. cbv zeta. rewrite run_bind, d1_run.
    by destruct (d1_projects services w _ _).
  - rewrite answered_run.
    pose proof (handleProjectDashboard_world env (searchParams request "id") w) as Hw.
    by destruct (handleProjectDashboard env _ w) as [[e|r] w'].
  - done.
Qed.
End Router.

(** The router with the five handlers that the file does not define taken
    to throw, over the sample services. *)
Lemma router_never_answers_500_for_its_handlers_sample :
  fetch (calm (FetchJson None) (λ _, AiThrows (Error "unavailable")) ticking)
    (sample_services None) (not_defined "handleDocuments")
    (not_defined "handleProjectInsights") (not_defined "handleFinancialDashboard")
    (not_defined "handleTasks") (not_defined "handleCreateProject") nowhere empty_world =
  (inr (mkReply 404 (PlainText "Endpoint not found")), empty_world) ∧
  (404 : Z) ∈ [200; 400; 404; 405].
Proof.
  split; [reflexivity|].
  apply (router_never_answers_500_for_its_handlers
           (calm (FetchJson None) (λ _, AiThrows (Error "unavailable")) ticking)
           (sample_services None) (not_defined "handleDocuments")
           (not_defined "handleProjectInsights") (not_defined "handleFinancialDashboard")
           (not_defined "handleTasks") (not_defined "handleCreateProject")
           nowhere empty_world empty_world
           (mkReply 404 (PlainText "Endpoint not found")));
    [unfold undefined_paths; not_among | reflexivity].
Defined.

Lemma rejection_of_a_handler_passes_the_router_sample :
  fetch database_down (sample_services None) (not_defined "handleDocuments")
    (not_defined "handleProjectInsights") (not_defined "handleFinancialDashboard")
    (not_defined "handleTasks") (not_defined "handleCreateProject")
    (dashboard_request "p-goodwill") dashboard_world =
  (inl (Error "D1_ERROR"), dashboard_world).
Proof.
  by apply (rejection_of_a_handler_passes_the_router database_down (sample_services None)
              (not_defined "handleDocuments") (not_defined "handleProjectInsights")
              (not_defined "handleFinancialDashboard") (not_defined "handleTasks")
              (not_defined "handleCreateProject") (dashboard_request "p-goodwill")
              "p-goodwill").
Defined.

Lemma only_the_sync_endpoint_writes_sample :
  snd (fetch (calm (FetchJson None) (λ _, AiThrows (Error "unavailable")) ticking)
         (sample_services (Some 180000%Q)) (not_defined "handleDocuments")
         (not_defined "handleProjectInsights") (not_defined "handleFinancialDashboard")
         (not_defined "handleTasks") (not_defined "handleCreateProject")
         (chat_request "How is Goodwill doing?") dashboard_world) = dashboard_world.
Proof.
  apply (only_the_sync_endpoint_writes
           (calm (FetchJson None) (λ _, AiThrows (Error "unavailable")) ticking)
           (sample_services (Some 180000%Q)) (not_defined "handleDocuments")
           (not_defined "handleProjectInsights") (not_defined "handleFinancialDashboard")
           (not_defined "handleTasks") (not_defined "handleCreateProject")
           (chat_request "How is Goodwill doing?") dashboard_world);
    [unfold undefined_paths; not_among | done].
Defined.
